(** * markdownUtils: a shallow embedding of Joplin's markdown helpers

    The TypeScript module [markdownUtils] is a collection of string
    functions written with JavaScript regular expressions.  The embedding
    has three layers:

    - [JS]: JavaScript strings as sequences of UTF-16 code units, with the
      handful of [String.prototype] methods the module calls;
    - [Regex]: the backtracking matcher of ECMAScript regular expressions
      (the fragment the module's literals need), with [test], [match] and
      [replace] on top of it;
    - [markdownUtils]: the functions themselves, each regular expression
      written as the syntax tree of its literal. *)

From Stdlib Require Import ZArith NArith Ascii String Lia.
From stdpp Require Import base option list gmap.

Local Open Scope N_scope.

(** ** JavaScript strings *)

Module JS.

(** A string is a sequence of UTF-16 code units. *)
Abbreviation jsstring := (list N).

(** The code units of an ASCII literal. *)
Fixpoint js (s : string) : jsstring :=
  match s with
  | EmptyString => []
  | String a r => N_of_ascii a :: js r
  end.

Definition ch (a : ascii) : N := N_of_ascii a.

Definition LF : N := 10.
Definition CR : N := 13.
Definition TAB : N := 9.

(** [WhiteSpace] and [LineTerminator] of ECMA-262: what [\s] matches and
    what [trim] strips. *)
Definition isLineTerminator (c : N) : bool :=
  (c =? 10) || (c =? 13) || (c =? 0x2028) || (c =? 0x2029).

Definition isWhiteSpace (c : N) : bool :=
  (c =? 9) || (c =? 10) || (c =? 11) || (c =? 12) || (c =? 13) || (c =? 32)
  || (c =? 0xA0) || (c =? 0x1680) || ((0x2000 <=? c) && (c <=? 0x200A))
  || (c =? 0x2028) || (c =? 0x2029) || (c =? 0x202F) || (c =? 0x205F)
  || (c =? 0x3000) || (c =? 0xFEFF).

Definition isDigit (c : N) : bool := (48 <=? c) && (c <=? 57).

Fixpoint dropWhile (p : N -> bool) (s : jsstring) : jsstring :=
  match s with
  | [] => []
  | c :: r => if p c then dropWhile p r else s
  end.

Fixpoint takeWhile (p : N -> bool) (s : jsstring) : jsstring :=
  match s with
  | [] => []
  | c :: r => if p c then c :: takeWhile p r else []
  end.

(** [String.prototype.trim] *)
Definition trimStart (s : jsstring) : jsstring := dropWhile isWhiteSpace s.
Definition trimEnd (s : jsstring) : jsstring :=
  reverse (dropWhile isWhiteSpace (reverse s)).
Definition trim (s : jsstring) : jsstring := trimEnd (trimStart s).

(** [s.split(sep)] for a one-unit separator: never an empty array. *)
Fixpoint split (sep : N) (s : jsstring) : list jsstring :=
  match s with
  | [] => [[]]
  | c :: r =>
      if c =? sep then [] :: split sep r
      else match split sep r with
           | [] => [[c]]
           | l :: ls => (c :: l) :: ls
           end
  end.

(** [s.substring(0, n)] *)
Definition substring0 (n : nat) (s : jsstring) : jsstring := take n s.

(** [arr.join(sep)] on an array of strings *)
Fixpoint join (sep : jsstring) (parts : list jsstring) : jsstring :=
  match parts with
  | [] => []
  | [p] => p
  | p :: ps => p ++ sep ++ join sep ps
  end.

(** A string is falsy exactly when it is empty; [null] and [undefined]
    (both [None] below) are falsy as well. *)
Definition truthy (v : option jsstring) : bool :=
  match v with
  | Some (_ :: _) => true
  | _ => false
  end.

(** Calls that can raise or loop: the only exception the module can meet
    is the [TypeError] of a property access on [null] or [undefined];
    [OutOfFuel] is the answer of a [while] loop that was still running
    when the fuel given to it ran out. *)
Inductive outcome (A : Type) : Type :=
| Return (a : A)
| Throw_TypeError
| OutOfFuel.
Arguments Return {A} a.
Arguments Throw_TypeError {A}.
Arguments OutOfFuel {A}.

Definition bind {A B} (m : outcome A) (k : A -> outcome B) : outcome B :=
  match m with
  | Return a => k a
  | Throw_TypeError => Throw_TypeError
  | OutOfFuel => OutOfFuel
  end.

(** [for (let i = 0; i < count; i++) body], the loop state passed along *)
Fixpoint forLoop {St} (count i : nat) (body : nat -> St -> outcome St)
    (s : St) : outcome St :=
  match count with
  | O => Return s
  | S count' => bind (body i s) (forLoop count' (S i) body)
  end.

(** [recv.method(...)]: the receiver must not be [null]. *)
Definition invoke {A} (recv : option jsstring) (method : jsstring -> A)
  : outcome A :=
  match recv with
  | Some s => Return (method s)
  | None => Throw_TypeError
  end.

(** JavaScript numbers, as far as [Number] of a decimal numeral produces
    them: not-a-number, positive infinity, or a finite double holding an
    integer. *)
Inductive jsnumber : Type :=
| NaN
| PosInfinity
| Num (z : Z).

(** The double nearest to the natural number [n] (ties to even). *)
Definition roundToDouble (n : N) : jsnumber :=
  if n <? 2 ^ 53 then Num (Z.of_N n)
  else
    let e := N.log2 n - 52 in
    let q := n / 2 ^ e in
    let r := n mod 2 ^ e in
    let half := 2 ^ (e - 1) in
    let q' := if (half <? r) || ((r =? half) && N.odd q) then q + 1 else q in
    let v := q' * 2 ^ e in
    if 2 ^ 1024 <=? v then PosInfinity else Num (Z.of_N v).

Definition digitValue (c : N) : N := c - 48.

Definition decimalValue (digits : jsstring) : N :=
  foldl (fun acc c => 10 * acc + digitValue c) 0 digits.

(** [Number(v)] for [undefined] and for strings.  Of the
    [StringNumericLiteral] grammar only the empty and white-space strings
    (zero) and the unsigned decimal integers are evaluated; every other
    string is mapped to [NaN], which is what the grammar gives for
    non-numeric text but not for signs, fractions, exponents, radix
    prefixes or [Infinity].  [olLineNumber] only passes a run of digits. *)
Definition Number (v : option jsstring) : jsnumber :=
  match v with
  | None => NaN
  | Some s =>
      match trim s with
      | [] => Num 0
      | d => if forallb isDigit d then roundToDouble (decimalValue d) else NaN
      end
  end.

End JS.
Export JS.

(** ** Regular expressions *)

Module Regex.

(** Members of a character class: [x], [a-z], [\s], [\d]. *)
Inductive classItem : Type :=
| CChar (c : N)
| CRange (lo hi : N)
| CSpace
| CDigit.

(** One-character atoms: a literal, [.], [[...]] and [[^...]]. *)
Inductive charSet : Type :=
| Lit (c : N)
| Dot
| Class (items : list classItem)
| NotClass (items : list classItem).

Definition itemMem (c : N) (i : classItem) : bool :=
  match i with
  | CChar x => c =? x
  | CRange lo hi => (lo <=? c) && (c <=? hi)
  | CSpace => isWhiteSpace c
  | CDigit => isDigit c
  end.

Definition charSetMem (cs : charSet) (c : N) : bool :=
  match cs with
  | Lit x => c =? x
  | Dot => negb (isLineTerminator c)
  | Class items => existsb (itemMem c) items
  | NotClass items => negb (existsb (itemMem c) items)
  end.

(** Patterns.  [Star greedy r] is [r*] or [r*?]; [Group i r] is the
    [i]-th capturing parenthesis; [Bol] and [Eol] are [^] and [$] without
    the multiline flag. *)
Inductive regex : Type :=
| Empty
| Chr (cs : charSet)
| Seq (r1 r2 : regex)
| Alt (r1 r2 : regex)
| Star (greedy : bool) (r : regex)
| Group (i : nat) (r : regex)
| Bol
| Eol.

(** [r+], [r+?], [r?] *)
Definition Plus (greedy : bool) (r : regex) : regex := Seq r (Star greedy r).
Definition Opt (r : regex) : regex := Alt r Empty.

(** A literal sequence of characters. *)
Fixpoint Str (s : jsstring) : regex :=
  match s with
  | [] => Empty
  | [c] => Chr (Lit c)
  | c :: r => Seq (Chr (Lit c)) (Str r)
  end.

Fixpoint groupsOf (r : regex) : list nat :=
  match r with
  | Seq a b | Alt a b => groupsOf a ++ groupsOf b
  | Star _ a => groupsOf a
  | Group i a => i :: groupsOf a
  | _ => []
  end.

(** The matcher state: the index of the next character, the characters
    from there on, and the captures made so far. *)
Record mstate : Type := MState {
  ms_pos : nat;
  ms_rest : jsstring;
  ms_caps : gmap nat jsstring
}.

Definition orElse {A} (a b : option A) : option A :=
  match a with
  | Some x => Some x
  | None => b
  end.

Definition clearCaps (gs : list nat) (st : mstate) : mstate :=
  MState (ms_pos st) (ms_rest st) (foldr delete (ms_caps st) gs).

(** The loop of [r*]: [again] is one more iteration followed by the loop,
    [k st] leaves the loop here; a greedy star prefers [again], a lazy one
    [k st].  The captures of the groups inside [r] are reset at the start
    of an iteration, and an iteration that consumes nothing is rejected,
    so the fuel [S (length rest)] given below is never used up. *)
Fixpoint starLoop (step : (mstate -> option mstate) -> mstate -> option mstate)
    (groups : list nat) (greedy : bool) (k : mstate -> option mstate)
    (fuel : nat) (st : mstate) : option mstate :=
  match fuel with
  | O => None
  | S fuel' =>
      let again :=
        step
          (fun st' =>
             if (length (ms_rest st') <? length (ms_rest st))%nat
             then starLoop step groups greedy k fuel' st' else None)
          (clearCaps groups st) in
      if greedy then orElse again (k st) else orElse (k st) again
  end.

(** The backtracking matcher in continuation-passing style, as in
    ECMA-262: [rmatch r k st] matches [r] at [st] and hands every state it
    can end in to [k], in priority order, until [k] accepts one. *)
Fixpoint rmatch (r : regex) (k : mstate -> option mstate) (st : mstate)
  : option mstate :=
  match r with
  | Empty => k st
  | Chr cs =>
      match ms_rest st with
      | c :: rest =>
          if charSetMem cs c
          then k (MState (S (ms_pos st)) rest (ms_caps st))
          else None
      | [] => None
      end
  | Seq r1 r2 => rmatch r1 (rmatch r2 k) st
  | Alt r1 r2 => orElse (rmatch r1 k st) (rmatch r2 k st)
  | Star greedy r1 =>
      starLoop (rmatch r1) (groupsOf r1) greedy k (S (length (ms_rest st))) st
  | Group i r1 =>
      rmatch r1
        (fun st' =>
           k (MState (ms_pos st') (ms_rest st')
                (<[i := take (ms_pos st' - ms_pos st) (ms_rest st)]>
                   (ms_caps st'))))
        st
  | Bol => if (ms_pos st =? 0)%nat then k st else None
  | Eol => match ms_rest st with [] => k st | _ :: _ => None end
  end.

(** A successful match: where it starts, the matched text and the
    captures ([None] for a group that took no part). *)
Record matchResult : Type := MatchResult {
  m_index : nat;
  m_text : jsstring;
  m_caps : gmap nat jsstring
}.

(** [m[i]] of a match array *)
Definition group (m : matchResult) (i : nat) : option jsstring :=
  match i with
  | O => Some (m_text m)
  | _ => m_caps m !! i
  end.

(** Try to match at one position. *)
Definition matchAt (r : regex) (pos : nat) (rest : jsstring)
  : option matchResult :=
  match rmatch r Some (MState pos rest ∅) with
  | Some st => Some (MatchResult pos (take (ms_pos st - pos) rest) (ms_caps st))
  | None => None
  end.

(** The leftmost match at or after [pos]. *)
Fixpoint search (r : regex) (pos : nat) (rest : jsstring)
  : option matchResult :=
  match matchAt r pos rest with
  | Some m => Some m
  | None =>
      match rest with
      | [] => None
      | _ :: rest' => search r (S pos) rest'
      end
  end.

(** [regex.exec(s)] / [s.match(regex)] without the global flag *)
Definition exec (r : regex) (s : jsstring) : option matchResult :=
  search r 0 s.

(** [regex.test(s)] *)
Definition test (r : regex) (s : jsstring) : bool :=
  bool_decide (is_Some (exec r s)).

(** The successive matches of a global regular expression, interleaved
    with the characters no match covers.  After a match of length [n > 0]
    the next [n - 1] characters are skipped; after an empty match the
    search moves on by one character, which is copied. *)
Inductive piece : Type :=
| Copy (c : N)
| Hit (m : matchResult).

Fixpoint pieces (r : regex) (skip pos : nat) (rest : jsstring) : list piece :=
  match skip with
  | S skip' =>
      match rest with
      | [] => []
      | _ :: rest' => pieces r skip' (S pos) rest'
      end
  | O =>
      match matchAt r pos rest with
      | Some m =>
          Hit m ::
          match rest with
          | [] => []
          | c :: rest' =>
              match length (m_text m) with
              | O => Copy c :: pieces r 0 (S pos) rest'
              | S n => pieces r n (S pos) rest'
              end
          end
      | None =>
          match rest with
          | [] => []
          | c :: rest' => Copy c :: pieces r 0 (S pos) rest'
          end
      end
  end.

(** [s.match(regex)] with the global flag: the matched texts, or [null]
    when there is none. *)
Definition matchAll (r : regex) (s : jsstring) : option (list jsstring) :=
  match omap (fun p => match p with Hit m => Some (m_text m) | Copy _ => None end)
             (pieces r 0 0 s) with
  | [] => None
  | ms => Some ms
  end.

(** Replacement templates: literal text and [$n]. *)
Inductive replItem : Type :=
| RText (s : jsstring)
| RGroup (i : nat).

Definition expand (tmpl : list replItem) (m : matchResult) : jsstring :=
  flat_map (fun it =>
              match it with
              | RText s => s
              | RGroup i => default [] (group m i)
              end) tmpl.

(** [s.replace(regex, tmpl)] with the global flag *)
Definition replaceAll (r : regex) (tmpl : list replItem) (s : jsstring)
  : jsstring :=
  flat_map (fun p =>
              match p with
              | Copy c => [c]
              | Hit m => expand tmpl m
              end) (pieces r 0 0 s).

(** [s.replace(regex, tmpl)] without the global flag: the first match
    only. *)
Definition replaceFirst (r : regex) (tmpl : list replItem) (s : jsstring)
  : jsstring :=
  match exec r s with
  | Some m =>
      take (m_index m) s ++ expand tmpl m
        ++ drop (m_index m + length (m_text m)) s
  | None => s
  end.

(** [s.replace(regex, fn)] with the global flag: every match is replaced
    by what the callback returns for it. *)
Definition replaceAllWith (r : regex) (fn : matchResult -> jsstring)
    (s : jsstring) : jsstring :=
  flat_map (fun p =>
              match p with
              | Copy c => [c]
              | Hit m => fn m
              end) (pieces r 0 0 s).

End Regex.
Export Regex.

(** ** The module *)

Module markdownUtils.

Arguments js _%_string.
Arguments ch _%_char.

Declare Scope regex_scope.
Delimit Scope regex_scope with re.
Bind Scope regex_scope with regex.
Infix "·" := Seq (at level 41, right associativity) : regex_scope.
Infix "<+>" := Alt (at level 51, right associativity) : regex_scope.
Local Open Scope regex_scope.

(** A literal character *)
Definition lit (a : ascii) : regex := Chr (Lit (ch a)).
Arguments lit _%_char.

(** The character classes of the list patterns: white space, digits, the
    three bullets, dot or closing parenthesis, and the check mark. *)
Definition space : regex := Chr (Class [CSpace]).
Definition digit : regex := Chr (Class [CDigit]).
Definition bullet : regex :=
  Chr (Class [CChar (ch "*"); CChar (ch "+"); CChar (ch "-")]).
Definition dotOrParen : regex := Chr (Class [CChar (ch "."); CChar (ch ")")]).
Definition checkMark : regex := Chr (Class [CChar (ch "x"); CChar (ch " ")]).

(** [/^(\s* )([*+-] \[[x ]\]\s|[*+-]\s|(\d+)([.)]\s))(\s* )/] (here
    and below a space is written between a star and the parenthesis that
    closes its group).  The pattern of a list item, from CodeMirror's
    continuelist addon:
    start of input, white space (group 1), the list token (group 2: a
    bullet with a check box and a white-space character, a bullet and a
    white-space character, or digits (group 3) with a dot or parenthesis
    and a white-space character (group 4)), white space (group 5). *)
Definition listRegex : regex :=
  Bol · Group 1 (Star true space)
  · Group 2 (bullet · lit " " · lit "[" · checkMark · lit "]" · space
             <+> bullet · space
             <+> Group 3 (Plus true digit) · Group 4 (dotOrParen · space))
  · Group 5 (Star true space).

(** [/^(\s* )([*+-] \[[x ]\]|[*+-]|(\d+)[.)])(\s+)$/].
    The pattern of a list item with nothing in it: start of input, white
    space (group 1), the token without its white-space character (group
    2, the digits in group 3), one or more white-space characters (group
    4), end of input. *)
Definition emptyListRegex : regex :=
  Bol · Group 1 (Star true space)
  · Group 2 (bullet · lit " " · lit "[" · checkMark · lit "]"
             <+> bullet
             <+> Group 3 (Plus true digit) · dotOrParen)
  · Group 4 (Plus true space) · Eol.

(** Titles of markdown links only need escaping for the two brackets. *)
Definition escapeTitleText (text : jsstring) : jsstring :=
  replaceAll (Group 1 (Alt (lit "[") (lit "]"))) [RText (js "\"); RGroup 1] text.

Definition escapeLinkUrl (url : jsstring) : jsstring :=
  let url := replaceAll (lit "(") [RText (js "%28")] url in
  let url := replaceAll (lit ")") [RText (js "%29")] url in
  let url := replaceAll (lit " ") [RText (js "%20")] url in
  url.

Definition escapeTableCell (text : jsstring) : jsstring :=
  let text := replaceAll (lit "<") [RText (js "&lt;")] text in
  let text := replaceAll (lit ">") [RText (js "&gt;")] text in
  let text := replaceAll (Chr (Lit LF)) [RText (js "<br/>")] text in
  let text := replaceAll (lit "|") [RText (js "\|")] text in
  text.

Definition escapeInlineCode (text : jsstring) : jsstring :=
  replaceAll (lit "`") [RText (js "``")] text.

Definition unescapeLinkUrl (url : jsstring) : jsstring :=
  let url := replaceAll (Str (js "%28")) [RText (js "(")] url in
  let url := replaceAll (Str (js "%29")) [RText (js ")")] url in
  let url := replaceAll (Str (js "%20")) [RText (js " ")] url in
  url.

(** [/(\]\()([^\s\)]+)(.*?\))/g].
    A closing bracket and an opening parenthesis (group 1), one or more
    characters other than white space and the closing parenthesis (group
    2, greedy), and the shortest text on the same line up to a closing
    parenthesis (group 3). *)
Definition linkUrlRegex : regex :=
  (Group 1 (lit "]" · lit "(")
   · Group 2 (Plus true (Chr (NotClass [CSpace; CChar (ch ")")])))
   · Group 3 (Star false (Chr Dot) · lit ")"))%re.

(** An argument of the callback, in a string concatenation: a group that
    took no part in the match is [undefined]. *)
Definition groupText (m : matchResult) (i : nat) : jsstring :=
  default (js "undefined") (group m i).

Section PrependBaseUrl.

(** [urlUtils.prependBaseUrl] is not among the sources; it is taken to
    return a string. *)
Variable urlUtils_prependBaseUrl : option jsstring -> jsstring -> jsstring.

Definition prependBaseUrl (md baseUrl : jsstring) : jsstring :=
  replaceAllWith linkUrlRegex
    (fun m =>
       let before := groupText m 1 in
       let url := group m 2 in
       let after := groupText m 3 in
       before ++ urlUtils_prependBaseUrl url baseUrl ++ after)
    md.

End PrependBaseUrl.

Definition olLineNumber (line : jsstring) : jsnumber :=
  match exec listRegex line with
  | Some m => Number (group m 3)
  | None => Num 0
  end.

Definition extractListToken (line : jsstring) : jsstring :=
  match exec listRegex line with
  | Some m => default [] (group m 2)
  | None => []
  end.

Definition isListItem (line : jsstring) : bool := test listRegex line.

Definition isEmptyListItem (line : jsstring) : bool := test emptyListRegex line.

(** [s[i]] for an index that may be negative: [undefined] out of range *)
Definition charAt (s : jsstring) (i : Z) : option N :=
  if (i <? 0)%Z then None else s !! Z.to_nat i.

Definition countTableColumns (line : option jsstring) : Z :=
  match line with
  | None | Some [] => 0%Z
  | Some line =>
      let trimmed := trim line in
      let pipes := Z.of_nat (length (default [] (matchAll (lit "|") line))) in
      let pipes :=
        if bool_decide (charAt trimmed 0 = Some (ch "|"))
        then (pipes - 1)%Z else pipes in
      let pipes :=
        if bool_decide
             (charAt trimmed (Z.of_nat (length trimmed) - 1) = Some (ch "|"))
        then (pipes - 1)%Z else pipes in
      (pipes + 1)%Z
  end.

(** [/[^\s\-:|]/g]: any character that is not white space, a dash, a
    colon or a pipe. *)
Definition invalidDividerChar : regex :=
  Chr (NotClass [CSpace; CChar (ch "-"); CChar (ch ":"); CChar (ch "|")]).

Definition matchingTableDivider (header divider : option jsstring) : bool :=
  if negb (truthy header) || negb (truthy divider) then false
  else
    match matchAll invalidDividerChar (default [] divider) with
    | Some _ => false
    | None =>
        let columns := countTableColumns header in
        let cols := countTableColumns divider in
        (0 <? cols)%Z && (columns <=? cols)%Z
    end.

(** [/!?\[([^\]]+?)\]\(.+?\)/g].
    An optional bang, a bracketed label of one or more characters other
    than the closing bracket (group 1, lazy), and a parenthesised target
    of one or more characters other than line terminators (lazy). *)
Definition mdLinkRegex : regex :=
  Opt (lit "!") · lit "[" · Group 1 (Plus false (Chr (NotClass [CChar (ch "]")])))
  · lit "]" · lit "(" · Plus false (Chr Dot) · lit ")".

(** [/!?\[\]\((.+?)\)/g].
    An optional bang, an empty pair of brackets, and a parenthesised
    target of one or more characters other than line terminators (group
    1, lazy). *)
Definition emptyMdLinkRegex : regex :=
  Opt (lit "!") · lit "[" · lit "]" · lit "(" · Group 1 (Plus false (Chr Dot)) · lit ")".

(** [/^[# \n\t*`-]*/].
    At the start of input, any run of the characters hash, space, line
    feed, tab, star, backtick and dash. *)
Definition filterRegex : regex :=
  Bol · Star true (Chr (Class [CChar (ch "#"); CChar (ch " "); CChar LF;
                               CChar TAB; CChar (ch "*"); CChar (ch "`");
                               CChar (ch "-")])).

Definition titleFromBody (body : option jsstring) : outcome jsstring :=
  match body with
  | None | Some [] => Return []
  | Some body =>
      let lines := split LF (trim body) in
      bind (invoke (lines !! 0%nat) trim) (fun title =>
      Return (substring0 80
                (replaceAll emptyMdLinkRegex [RGroup 1]
                   (replaceAll mdLinkRegex [RGroup 1]
                      (replaceFirst filterRegex [] title)))))
  end.

(** *** Tables *)

Inductive MarkdownTableJustify : Type := Left | Center | Right.

(** What reading a property of a row gives: [undefined], a string, or a
    member inherited from [Object.prototype], which is a function (the
    prototype itself for [__proto__]): true in a condition, no string,
    and without a [replace] method.  A [filter] is given such a value
    and is taken to return one. *)
Inductive rowValue : Type :=
| RUndefined
| RString (s : jsstring)
| RMember (name : jsstring).

Record MarkdownTableHeader : Type := {
  h_name : jsstring;
  h_label : jsstring;
  h_filter : option (rowValue -> rowValue);
  h_disableEscape : option bool;
  h_justify : option MarkdownTableJustify
}.

(** A row is a plain object; its own properties are strings, as its type
    says. *)
Abbreviation MarkdownTableRow := (gmap jsstring jsstring).

(** The members of [Object.prototype], which every plain object
    inherits *)
Definition objectPrototypeMembers : list jsstring :=
  [ js "constructor"; js "hasOwnProperty"; js "isPrototypeOf";
    js "propertyIsEnumerable"; js "toLocaleString"; js "toString";
    js "valueOf"; js "__proto__"; js "__defineGetter__";
    js "__defineSetter__"; js "__lookupGetter__"; js "__lookupSetter__" ].

(** [row[key]]: a property of the row's own, else a member of
    [Object.prototype], else [undefined] *)
Definition readRow (row : MarkdownTableRow) (key : jsstring) : rowValue :=
  match row !! key with
  | Some s => RString s
  | None =>
      if bool_decide (key ∈ objectPrototypeMembers) then RMember key
      else RUndefined
  end.

(** [v || ''] *)
Definition orEmpty (v : rowValue) : rowValue :=
  match v with
  | RUndefined | RString [] => RString []
  | _ => v
  end.

(** [markdownUtils.escapeTableCell(value)] on a value that may be no
    string: its first statement calls [text.replace]. *)
Definition escapeCellValue (v : rowValue) : outcome rowValue :=
  match v with
  | RString text => Return (RString (escapeTableCell text))
  | _ => Throw_TypeError
  end.

(** Modelled from the spec: the package [string-padding] is not among the
    sources; with [stringPadding.RIGHT] a cell is padded right with the
    given character to a minimum width. *)
Definition stringPaddingRight (s : jsstring) (width : nat) (c : N) : jsstring :=
  s ++ replicate (width - length s) c.

Section CreateMarkdownTable.

(** What [string-padding] makes of a value that is no string is said
    nowhere: it is a parameter. *)
Variable stringPaddingOther : rowValue -> outcome jsstring.

Definition stringPadding (v : rowValue) (width : nat) (c : N)
  : outcome jsstring :=
  match v with
  | RString s => Return (stringPaddingRight s width c)
  | _ => stringPaddingOther v
  end.

Definition createMarkdownTable
    (headers : list MarkdownTableHeader) (rows : list MarkdownTableRow)
  : outcome jsstring :=
  let output : list jsstring := [] in
  let minCellWidth := 5%nat in
  bind
    (forLoop (length headers) 0
       (fun i '(headersMd, lineMd) =>
          match headers !! i with
          | None => Throw_TypeError
          | Some h =>
              let headersMd :=
                headersMd
                  ++ [stringPaddingRight (h_label h) minCellWidth (ch " ")] in
              let justify := default Left (h_justify h) in
              let lineMd :=
                match justify with
                | Left => lineMd ++ [js "-----"]
                | Center => lineMd ++ [js ":---:"]
                | _ => lineMd ++ [js "----:"]
                end in
              Return (headersMd, lineMd)
          end)
       ([], []))
    (fun '(headersMd, lineMd) =>
       let output :=
         output ++ [js "| " ++ join (js " | ") headersMd ++ js " |"] in
       let output :=
         output ++ [js "| " ++ join (js " | ") lineMd ++ js " |"] in
       bind
         (forLoop (length rows) 0
            (fun i output =>
               match rows !! i with
               | None => Throw_TypeError
               | Some row =>
                   bind
                     (forLoop (length headers) 0
                        (fun j rowMd =>
                           match headers !! j with
                           | None => Throw_TypeError
                           | Some h =>
                               let v :=
                                 match h_filter h with
                                 | Some f => f (readRow row (h_name h))
                                 | None => readRow row (h_name h)
                                 end in
                               let value := orEmpty v in
                               bind
                                 (if default false (h_disableEscape h)
                                  then Return value
                                  else escapeCellValue value)
                                 (fun valueMd =>
                               bind
                                 (stringPadding valueMd minCellWidth (ch " "))
                                 (fun cell => Return (rowMd ++ [cell])))
                           end)
                        [])
                     (fun rowMd =>
                        Return
                          (output
                             ++ [js "| " ++ join (js " | ") rowMd ++ js " |"]))
               end)
            output)
         (fun output => Return (join [LF] output))).

End CreateMarkdownTable.

(** *** Extraction of URLs *)

Record ExtractFileUrlsOptions : Type := {
  includeImages : option bool;
  includeAnchors : option bool;
  detailedResults : option bool;
  html : option bool
}.

Inductive ExtractFileUrlsResultType : Type := Anchor | Image.

(** [url] is [undefined] when the second group of the pattern took no
    part in the match. *)
Record ExtractFileUrlsResult : Type := {
  url : option jsstring;
  type : ExtractFileUrlsResultType
}.

(** What the function returns: an array of strings or an array of
    records. *)
Inductive extracted : Type :=
| Urls (l : list (option jsstring))
| Detailed (l : list ExtractFileUrlsResult).

#[local] Set Warnings "-register-all".

(** A token of markdown-it, with the four fields the walk reads:
    [attrs] and [children] may be [null]. *)
Inductive token : Type :=
| Token (type : jsstring) (attrs : option (list (list jsstring)))
        (content : jsstring) (children : option (list token)).

(** The two pattern objects of [htmlUtils] are shared by all calls, and
    each carries its [lastIndex]. *)
Inductive htmlRegex : Type := ImageRegex | AnchorRegex.

Record regexState : Type := {
  imageLastIndex : nat;
  anchorLastIndex : nat
}.

Definition lastIndex (st : regexState) (r : htmlRegex) : nat :=
  match r with
  | ImageRegex => imageLastIndex st
  | AnchorRegex => anchorLastIndex st
  end.

Definition setLastIndex (st : regexState) (r : htmlRegex) (i : nat)
  : regexState :=
  match r with
  | ImageRegex => {| imageLastIndex := i; anchorLastIndex := anchorLastIndex st |}
  | AnchorRegex => {| imageLastIndex := imageLastIndex st; anchorLastIndex := i |}
  end.

Section ExtractFileUrls.

(** The parser of markdown-it, configured with its [html] option, and
    the two patterns imported from [htmlUtils] (both with the global
    flag) are not among the sources. *)
Variable parse : bool -> jsstring -> list token.
Variable imageRegex anchorRegex : regex.

Definition patternOf (r : htmlRegex) : regex :=
  match r with
  | ImageRegex => imageRegex
  | AnchorRegex => anchorRegex
  end.

(** [regex.exec(s)] on a global pattern: the search starts at
    [lastIndex], which a match moves to its end and a failure resets. *)
Definition execGlobal (r : htmlRegex) (s : jsstring) (st : regexState)
  : option matchResult * regexState :=
  let i := lastIndex st r in
  if (length s <? i)%nat then (None, setLastIndex st r 0)
  else
    match search (patternOf r) i (drop i s) with
    | Some m => (Some m, setLastIndex st r (m_index m + length (m_text m)))
    | None => (None, setLastIndex st r 0)
    end.

Definition walkState : Type := list ExtractFileUrlsResult * regexState.

(** [while ((result = regex.exec(content)) !== null) output.push(...)] *)
Fixpoint execLoop (fuel : nat) (r : htmlRegex) (content : jsstring)
    (w : walkState) : outcome walkState :=
  match fuel with
  | O => OutOfFuel
  | S fuel' =>
      let '(output, st) := w in
      match execGlobal r content st with
      | (Some result, st') =>
          execLoop fuel' r content
            (output
               ++ [{| url := group result 2;
                      type := match r with
                              | ImageRegex => Image
                              | AnchorRegex => Anchor
                              end |}],
             st')
      | (None, st') => Return (output, st')
      end
  end.

(** The body of the loop over [token.attrs] *)
Definition pushAttr (isImage : bool) (a : list jsstring)
    (output : list ExtractFileUrlsResult) : list ExtractFileUrlsResult :=
  if (bool_decide (a !! 0%nat = Some (js "src"))
      || bool_decide (a !! 0%nat = Some (js "href")))
     && (2 <=? length a)%nat && truthy (a !! 1%nat)
  then output ++ [{| url := a !! 1%nat;
                     type := if isImage then Image else Anchor |}]
  else output.

(** One token, without its children.  The boolean tells whether the loop
    body ran to its end ([false] after a [continue]). *)
Definition visit (fuel : nat) (includeImages includeAnchors : bool)
    (ty : jsstring) (attrs : option (list (list jsstring)))
    (content : jsstring) (w : walkState) : outcome (bool * walkState) :=
  let isImage := bool_decide (ty = js "image") in
  let isLinkOpen := bool_decide (ty = js "link_open") in
  if isImage || isLinkOpen then
    if isImage && negb includeImages then Return (false, w)
    else if isLinkOpen && negb includeAnchors then Return (false, w)
    else
      match attrs with
      | None => Throw_TypeError
      | Some attrs =>
          bind
            (forLoop (length attrs) 0
               (fun j output =>
                  match attrs !! j with
                  | None => Throw_TypeError
                  | Some a => Return (pushAttr isImage a output)
                  end)
               (fst w))
            (fun output => Return (true, (output, snd w)))
      end
  else if bool_decide (ty = js "html_block")
          || bool_decide (ty = js "html_inline") then
    bind
      (foldl
         (fun acc r =>
            bind acc (fun w =>
            match r with
            | ImageRegex =>
                if negb includeImages then Return w
                else execLoop fuel r content w
            | AnchorRegex =>
                if negb includeAnchors then Return w
                else execLoop fuel r content w
            end))
         (Return w) [ImageRegex; AnchorRegex])
      (fun w => Return (true, w))
  else Return (true, w).

(** [searchUrls]: the tokens in order, each before its children. *)
Fixpoint searchUrlsToken (fuel : nat) (includeImages includeAnchors : bool)
    (t : token) (w : walkState) : outcome walkState :=
  match t with
  | Token ty attrs content children =>
      bind (visit fuel includeImages includeAnchors ty attrs content w)
        (fun '(finished, w) =>
           if finished then
             match children with
             | Some ((_ :: _) as children) =>
                 (fix searchUrls (tokens : list token) (w : walkState)
                    : outcome walkState :=
                    match tokens with
                    | [] => Return w
                    | t :: tokens' =>
                        bind (searchUrlsToken fuel includeImages
                                includeAnchors t w)
                          (searchUrls tokens')
                    end) children w
             | _ => Return w
             end
           else Return w)
  end.

Fixpoint searchUrls (fuel : nat) (includeImages includeAnchors : bool)
    (tokens : list token) (w : walkState) : outcome walkState :=
  match tokens with
  | [] => Return w
  | t :: tokens' =>
      bind (searchUrlsToken fuel includeImages includeAnchors t w)
        (searchUrls fuel includeImages includeAnchors tokens')
  end.

(** The options after the defaults are merged in. *)
Definition withDefaults (options : option ExtractFileUrlsOptions)
  : bool * bool * bool * bool :=
  match options with
  | None => (true, true, false, false)
  | Some o =>
      (default true (includeAnchors o), default true (includeImages o),
       default false (detailedResults o), default false (html o))
  end.

(** The function, with the fuel of its [while] loops and the state of
    the shared patterns made explicit. *)
Definition extractFileUrls (fuel : nat) (md : jsstring)
    (options : option ExtractFileUrlsOptions) (st : regexState)
  : outcome (extracted * regexState) :=
  let '(includeAnchors, includeImages, detailedResults, html) :=
    withDefaults options in
  let tokens := parse html md in
  let output : list ExtractFileUrlsResult := [] in
  bind (searchUrls fuel includeImages includeAnchors tokens (output, st))
    (fun '(output, st) =>
       if detailedResults then Return (Detailed output, st)
       else Return (Urls (map url output), st)).

Definition extractImageUrls (fuel : nat) (md : jsstring) (st : regexState)
  : outcome (extracted * regexState) :=
  extractFileUrls fuel md
    (Some {| includeImages := Some true; includeAnchors := Some false;
             detailedResults := None; html := None |}) st.

End ExtractFileUrls.

(** *** Calls with an argument that may be [null]

    The functions are typed on strings, but the callers of the module are
    not checked for [null].  A function whose first statement calls a
    method of its argument raises on [null]; [RegExp.prototype.test]
    converts its argument to a string first. *)

Inductive jsvalue : Type :=
| VString (s : jsstring)
| VNumber (n : jsnumber)
| VBoolean (b : bool).

Inductive entry : Type :=
| EscapeTitleText | EscapeLinkUrl | EscapeTableCell | EscapeInlineCode
| UnescapeLinkUrl | OlLineNumber | ExtractListToken | IsListItem
| IsEmptyListItem | CountTableColumns | TitleFromBody.

Definition call (f : entry) (arg : option jsstring) : outcome jsvalue :=
  match f with
  | EscapeTitleText => bind (invoke arg escapeTitleText) (fun s => Return (VString s))
  | EscapeLinkUrl => bind (invoke arg escapeLinkUrl) (fun s => Return (VString s))
  | EscapeTableCell => bind (invoke arg escapeTableCell) (fun s => Return (VString s))
  | EscapeInlineCode => bind (invoke arg escapeInlineCode) (fun s => Return (VString s))
  | UnescapeLinkUrl => bind (invoke arg unescapeLinkUrl) (fun s => Return (VString s))
  | OlLineNumber => bind (invoke arg olLineNumber) (fun n => Return (VNumber n))
  | ExtractListToken => bind (invoke arg extractListToken) (fun s => Return (VString s))
  | IsListItem => Return (VBoolean (isListItem (default (js "null") arg)))
  | IsEmptyListItem => Return (VBoolean (isEmptyListItem (default (js "null") arg)))
  | CountTableColumns => Return (VNumber (Num (countTableColumns arg)))
  | TitleFromBody => bind (titleFromBody arg) (fun s => Return (VString s))
  end.

End markdownUtils.
Export markdownUtils.

(** * Direct descriptions

    What the functions compute, said without regular expressions: these
    are the definitions the theorems compare the module with. *)

(** ** Scanning *)

(** [s.startsWith(pat)] *)
Fixpoint startsWith (pat s : jsstring) : bool :=
  match pat, s with
  | [], _ => true
  | p :: pat', c :: s' => (c =? p) && startsWith pat' s'
  | _ :: _, [] => false
  end.

(** [s.includes(pat)] *)
Fixpoint includes (pat s : jsstring) : bool :=
  startsWith pat s
  || match s with
     | [] => false
     | _ :: s' => includes pat s'
     end.

(** Replace, from left to right, every occurrence that [find] recognises
    at the current position by the text it gives, and go on after it.
    [find] gives the replacement and the length of the occurrence; [skip]
    counts the characters of the last occurrence still to pass. *)
Fixpoint substitute (find : jsstring -> option (jsstring * nat))
    (skip : nat) (s : jsstring) : jsstring :=
  match skip with
  | S skip' =>
      match s with
      | [] => []
      | _ :: s' => substitute find skip' s'
      end
  | O =>
      match find s with
      | Some (txt, n) =>
          txt ++
          match s with
          | [] => []
          | c :: s' =>
              match n with
              | O => c :: substitute find 0 s'
              | S n' => substitute find n' s'
              end
          end
      | None =>
          match s with
          | [] => []
          | c :: s' => c :: substitute find 0 s'
          end
      end
  end.

(** An occurrence of a character of [cs], replaced by [txt] *)
Definition findChr (cs : charSet) (txt : jsstring) (s : jsstring)
  : option (jsstring * nat) :=
  match s with
  | c :: _ => if charSetMem cs c then Some (txt, 1%nat) else None
  | [] => None
  end.

(** An occurrence of the text [pat], replaced by [txt] *)
Definition findStr (pat txt : jsstring) (s : jsstring) : option (jsstring * nat) :=
  if startsWith pat s then Some (txt, length pat) else None.

(** ** Escaping *)

(** What [escapeLinkUrl] does to one character *)
Definition escapeLinkChar (c : N) : jsstring :=
  if c =? ch "(" then js "%28"
  else if c =? ch ")" then js "%29"
  else if c =? ch " " then js "%20"
  else [c].

(** [enc] with the character [x] no longer escaped *)
Definition decoded (x : N) (enc : N -> jsstring) (c : N) : jsstring :=
  if c =? x then [x] else enc c.

(** What [escapeTableCell] does to one character *)
Definition escapeCellChar (c : N) : jsstring :=
  if c =? ch "<" then js "&lt;"
  else if c =? ch ">" then js "&gt;"
  else if c =? LF then js "<br/>"
  else if c =? ch "|" then js "\|"
  else [c].

(** ** Table lines *)

(** The number of occurrences of a character *)
Definition countChar (c : N) (s : jsstring) : nat :=
  length (List.filter (fun x => x =? c) s).

(** The first, and the last, character is a pipe. *)
Definition startsWithPipe (s : jsstring) : bool :=
  bool_decide (head s = Some (ch "|")).

Definition endsWithPipe (s : jsstring) : bool :=
  bool_decide (last s = Some (ch "|")).

(** A character a divider line must not contain *)
Definition invalidInDivider (c : N) : bool :=
  negb (isWhiteSpace c || (c =? ch "-") || (c =? ch ":") || (c =? ch "|")).

(** ** List items *)

(** The characters of a list token *)
Definition isBulletChar (c : N) : bool :=
  (c =? ch "*") || (c =? ch "+") || (c =? ch "-").
Definition isCheckMark (c : N) : bool := (c =? ch "x") || (c =? ch " ").
Definition isDotOrParen (c : N) : bool := (c =? ch ".") || (c =? ch ")").

(** One or more white-space characters and nothing else *)
Definition blankTail (r : jsstring) : bool :=
  match r with
  | [] => false
  | _ :: _ => forallb isWhiteSpace r
  end.

(** A bullet token followed by a blank tail *)
Definition emptyItemAfter (s : jsstring) : bool :=
  match s with
  | [] => false
  | b :: r =>
      (isBulletChar b
       && match r with
          | sp :: lb :: x :: rb :: r' =>
              (sp =? ch " ") && (lb =? ch "[") && isCheckMark x
              && (rb =? ch "]") && blankTail r'
          | _ => false
          end)
      || (isBulletChar b && blankTail r)
      || (isDigit b
          && match dropWhile isDigit r with
             | p :: r' => isDotOrParen p && blankTail r'
             | [] => false
             end)
  end.

(** An empty list item: white space, a bullet token, a blank tail *)
Definition emptyListItemDirect (line : jsstring) : bool :=
  emptyItemAfter (dropWhile isWhiteSpace line).

(** The bullet tokens: a bullet, a bullet with a check box, or digits
    followed by a dot or a closing parenthesis. *)
Definition isBulletToken (t : jsstring) : bool :=
  match t with
  | [] => false
  | b :: r =>
      (isBulletChar b
       && match r with
          | [] => true
          | [sp; lb; x; rb] =>
              (sp =? ch " ") && (lb =? ch "[") && isCheckMark x && (rb =? ch "]")
          | _ => false
          end)
      || (isDigit b
          && match dropWhile isDigit r with
             | [p] => isDotOrParen p
             | _ => false
             end)
  end.

(** What the third group of [listRegex] holds for the text after the
    leading white space: nothing when there is no list token, the value
    [g] it had before for a bullet ([undefined] in a fresh match), the
    digits for an ordinal. *)
Definition ordinalFrom (g : option jsstring) (s : jsstring)
  : option (option jsstring) :=
  match s with
  | [] => None
  | b :: r =>
      if isBulletChar b then
        match r with
        | w :: _ => if isWhiteSpace w then Some g else None
        | [] => None
        end
      else if isDigit b then
        match dropWhile isDigit r with
        | p :: w :: _ =>
            if isDotOrParen p && isWhiteSpace w
            then Some (Some (b :: takeWhile isDigit r))
            else None
        | _ => None
        end
      else None
  end.

(** The ordinal of a list item: [None] when the line is no list item,
    [Some None] for an unordered item, the digits for an ordered one *)
Definition ordinalAfter (s : jsstring) : option (option jsstring) :=
  ordinalFrom None s.

Definition listItemOrdinal (line : jsstring) : option (option jsstring) :=
  ordinalAfter (dropWhile isWhiteSpace line).

(** ** Links and titles *)

(** The characters of a label and, after the first one, of a target *)
Definition notCloseBracket (c : N) : bool := negb (c =? ch "]").
Definition inTarget (c : N) : bool :=
  negb (isLineTerminator c) && negb (c =? ch ")").

(** The target of a link, read after the opening parenthesis: one
    character, then the shortest text up to a closing parenthesis, all on
    one line.  The result is the target and what follows the closing
    parenthesis. *)
Definition linkTarget (s : jsstring) : option (jsstring * jsstring) :=
  match s with
  | [] => None
  | c :: s' =>
      if isLineTerminator c then None
      else
        match dropWhile inTarget s' with
        | c' :: tail =>
            if c' =? ch ")" then Some (c :: takeWhile inTarget s', tail)
            else None
        | [] => None
        end
  end.

(** The label of a link, read after the opening bracket: the text up to
    the first closing bracket, which must not be empty.  The result is
    the label and what follows the closing bracket. *)
Definition bracketLabel (s : jsstring) : option (jsstring * jsstring) :=
  match takeWhile notCloseBracket s, dropWhile notCloseBracket s with
  | (_ :: _) as label, _ :: rest => Some (label, rest)
  | _, _ => None
  end.

(** [[label](target)] at the start of [s]: the label and the length of
    the link. *)
Definition labelledBody (s : jsstring) : option (jsstring * nat) :=
  match s with
  | lb :: s1 =>
      if lb =? ch "[" then
        match bracketLabel s1 with
        | Some (label, lp :: s2) =>
            if lp =? ch "(" then
              match linkTarget s2 with
              | Some (target, _) =>
                  Some (label, (1 + length label + 2 + length target + 1)%nat)
              | None => None
              end
            else None
        | _ => None
        end
      else None
  | [] => None
  end.

(** [[](target)] at the start of [s]: the target and the length of the
    link. *)
Definition emptyLabelBody (s : jsstring) : option (jsstring * nat) :=
  match s with
  | lb :: rb :: lp :: s2 =>
      if (lb =? ch "[") && (rb =? ch "]") && (lp =? ch "(") then
        match linkTarget s2 with
        | Some (target, _) => Some (target, (3 + length target + 1)%nat)
        | None => None
        end
      else None
  | _ => None
  end.

(** A link or, with a leading bang, an image link. *)
Definition withBang (body : jsstring -> option (jsstring * nat)) (s : jsstring)
  : option (jsstring * nat) :=
  match s with
  | c :: s' =>
      if c =? ch "!" then (fun '(t, n) => (t, S n)) <$> body s' else body s
  | [] => body s
  end.

(** The two kinds of link, each with what replaces it *)
Definition labelledLink : jsstring -> option (jsstring * nat) :=
  withBang labelledBody.
Definition emptyLabelLink : jsstring -> option (jsstring * nat) :=
  withBang emptyLabelBody.

(** The steps of the title, in the order of the specification *)
Definition firstLine (s : jsstring) : jsstring :=
  takeWhile (fun c => negb (c =? LF)) s.

Definition isMarker (c : N) : bool :=
  (c =? ch "#") || (c =? ch " ") || (c =? LF) || (c =? TAB) || (c =? ch "*")
  || (c =? ch "`") || (c =? ch "-").

Definition stripMarkers (s : jsstring) : jsstring := dropWhile isMarker s.
Definition collapseLinks (s : jsstring) : jsstring := substitute labelledLink 0 s.
Definition collapseEmptyLinks (s : jsstring) : jsstring :=
  substitute emptyLabelLink 0 s.

(** The title as the specification describes it *)
Definition titleSpec (body : jsstring) : jsstring :=
  take 80
    (collapseEmptyLinks
       (collapseLinks (stripMarkers (trim (firstLine (trim body)))))).

(** ** Tables *)

(** The cells of the three kinds of row *)
Definition headerCell (h : MarkdownTableHeader) : jsstring :=
  stringPaddingRight (h_label h) 5 (ch " ").

Definition dividerCell (h : MarkdownTableHeader) : jsstring :=
  match default Left (h_justify h) with
  | Left => js "-----"
  | Center => js ":---:"
  | Right => js "----:"
  end.

(** What a cell is made of: the row read by the header's name, and
    filtered *)
Definition cellRead (row : MarkdownTableRow) (h : MarkdownTableHeader)
  : rowValue :=
  let v := readRow row (h_name h) in
  match h_filter h with Some f => f v | None => v end.

(** The value of a cell: what is read when it is a string, and empty when
    it is [undefined] *)
Definition cellValue (row : MarkdownTableRow) (h : MarkdownTableHeader) : jsstring :=
  match cellRead row h with
  | RString text => text
  | _ => []
  end.

(** No cell of the table is made of a member inherited from
    [Object.prototype]. *)
Definition isMember (v : rowValue) : bool :=
  match v with
  | RMember _ => true
  | _ => false
  end.

Definition plainCells (headers : list MarkdownTableHeader)
    (rows : list MarkdownTableRow) : bool :=
  forallb (fun row => forallb (fun h => negb (isMember (cellRead row h))) headers)
    rows.

(** A data cell: the value, escaped unless the header says not to, and
    padded *)
Definition dataCell (row : MarkdownTableRow) (h : MarkdownTableHeader) : jsstring :=
  let value := cellValue row h in
  stringPaddingRight
    (if default false (h_disableEscape h) then value else escapeTableCell value)
    5 (ch " ").

(** A line of the table, and the cells of all its lines *)
Definition tableLine (cells : list jsstring) : jsstring :=
  js "| " ++ join (js " | ") cells ++ js " |".

Definition tableCells (headers : list MarkdownTableHeader)
    (rows : list MarkdownTableRow) : list (list jsstring) :=
  map headerCell headers
  :: map dividerCell headers
  :: map (fun row => map (dataCell row) headers) rows.

(** ** Extraction of URLs *)

(** Every record replaced by its url *)
Definition urlsOf (r : extracted) : extracted :=
  match r with
  | Detailed l => Urls (map url l)
  | Urls l => Urls l
  end.

(** The options [o] with [detailedResults] set to [b] *)
Definition withDetailed (b : bool) (o : option ExtractFileUrlsOptions)
  : option ExtractFileUrlsOptions :=
  Some {| includeImages := o ≫= includeImages;
          includeAnchors := o ≫= includeAnchors;
          detailedResults := Some b;
          html := o ≫= html |}.

(** Both patterns ready for a new search *)
Definition zeroState : regexState :=
  {| imageLastIndex := 0; anchorLastIndex := 0 |}.

(** ** Empty and [null] arguments *)

(** The neutral result of a function: the empty string, 0 or [false] *)
Definition neutral (f : entry) : jsvalue :=
  match f with
  | OlLineNumber | CountTableColumns => VNumber (Num 0)
  | IsListItem | IsEmptyListItem => VBoolean false
  | _ => VString []
  end.

(** The functions whose first statement is [arg.replace(...)] or
    [arg.match(...)] *)
Definition callsMethodOnArgument (f : entry) : bool :=
  match f with
  | EscapeTitleText | EscapeLinkUrl | EscapeTableCell | EscapeInlineCode
  | UnescapeLinkUrl | OlLineNumber | ExtractListToken => true
  | _ => false
  end.

(** Every function returns its neutral result on an empty or [null]
    argument. *)
Definition neutralOnEmptyOrNull : Prop :=
  forall f arg, arg = None \/ arg = Some [] -> call f arg = Return (neutral f).

(** ** Sample inputs *)

(** The header and the row of the table [{name:'a', label:'A'}],
    [{a:'x'}]. *)
Definition sampleHeader : MarkdownTableHeader :=
  {| h_name := js "a"; h_label := js "A"; h_filter := None;
     h_disableEscape := None; h_justify := None |}.

Definition sampleRow : MarkdownTableRow := {[ js "a" := js "x" ]}.

(** A header whose name no row needs to own: every plain object inherits
    [constructor]. *)
Definition memberHeader : MarkdownTableHeader :=
  {| h_name := js "constructor"; h_label := js "C"; h_filter := None;
     h_disableEscape := None; h_justify := None |}.

(** The tokens markdown-it gives for an image in a paragraph, and an HTML
    block with two images around an anchor. *)
Definition imageTokens : list token :=
  [ Token (js "paragraph_open") None [] None;
    Token (js "inline") None (js "![alt](image.png)")
      (Some [ Token (js "image")
                (Some [[js "src"; js "image.png"]; [js "alt"; []]])
                (js "alt") (Some [Token (js "text") None (js "alt") None]) ]);
    Token (js "paragraph_close") None [] None ].

Definition htmlTokens : list token :=
  [ Token (js "html_block") None
      (js "<img src='a.png'><a href='x'>y</a><img src='b.png'>") None ].

(** Stand-ins for the two patterns of [htmlUtils]: a tag, any text, the
    attribute in single quotes (group 2), any text, the end of the tag. *)
Definition anyChar : regex := Chr (NotClass []).

Definition tagWithAttribute (tag attribute : jsstring) : regex :=
  (Str tag · Group 1 (Star false anyChar) · Str attribute
   · Group 2 (Star false anyChar) · lit "'" · Group 3 (Star false anyChar)
   · lit ">")%re.

Definition sampleImageRegex : regex := tagWithAttribute (js "<img") (js "src='").
Definition sampleAnchorRegex : regex := tagWithAttribute (js "<a") (js "href='").

(** * The matcher, unfolded

    Auxiliary definitions of the proofs: the matcher on one-character
    patterns, the parts of the module's patterns, and projections of the
    matcher state. *)

(** The matcher on a one-character pattern *)
Definition chrStep (cs : charSet) (k : mstate -> option mstate) (st : mstate) :=
  match ms_rest st with
  | c :: rest =>
      if charSetMem cs c
      then k (MState (S (ms_pos st)) rest (ms_caps st))
      else None
  | [] => None
  end.

(** The matcher on the star of a one-character pattern, by recursion on
    the input instead of fuel *)
Fixpoint starSet (greedy : bool) (cs : charSet) (k : mstate -> option mstate)
    (pos : nat) (rest : jsstring) (caps : gmap nat jsstring) : option mstate :=
  let here := k (MState pos rest caps) in
  match rest with
  | c :: rest' =>
      if charSetMem cs c
      then if greedy
           then orElse (starSet greedy cs k (S pos) rest' caps) here
           else orElse here (starSet greedy cs k (S pos) rest' caps)
      else here
  | [] => here
  end.

(** What a piece of a global replacement contributes *)
Definition render (tmpl : list replItem) (p : piece) : jsstring :=
  match p with
  | Copy c => [c]
  | Hit m => expand tmpl m
  end.

(** Projections of a result of the matcher: whether there is one, where
    the input ends, the position and captures, the third capture *)
Definition someb {A} (o : option A) : bool :=
  match o with Some _ => true | None => false end.

Definition extent (st : mstate) : nat := (ms_pos st + length (ms_rest st))%nat.

Definition summary (st : mstate) : nat * gmap nat jsstring :=
  (ms_pos st, ms_caps st).

Definition group3 (st : mstate) : option jsstring := ms_caps st !! 3%nat.

(** The parts of [emptyListRegex] and [listRegex] after the leading white
    space *)
Definition blankTailRe : regex := Seq (Group 4 (Plus true space)) Eol.

Definition emptyItemRe : regex :=
  (Group 2 (bullet · lit " " · lit "[" · checkMark · lit "]"
            <+> bullet
            <+> Group 3 (Plus true digit) · dotOrParen)
   · blankTailRe)%re.

Definition trailingSpaceRe : regex := Group 5 (Star true space).

Definition listItemRe : regex :=
  (Group 2 (bullet · lit " " · lit "[" · checkMark · lit "]" · space
            <+> bullet · space
            <+> Group 3 (Plus true digit) · Group 4 (dotOrParen · space))
   · trailingSpaceRe)%re.

(** The continuation of the token: group 2 is recorded, then the trailing
    white space is taken. *)
Definition afterToken (start : nat) (s : jsstring) (st : mstate) : option mstate :=
  rmatch trailingSpaceRe Some
    (MState (ms_pos st) (ms_rest st)
       (<[2%nat := take (ms_pos st - start) s]> (ms_caps st))).

(** The parts of [mdLinkRegex] and [emptyMdLinkRegex] after the bang *)
Definition labelledBodyRe : regex :=
  (lit "[" · Group 1 (Plus false (Chr (NotClass [CChar (ch "]")])))
   · lit "]" · lit "(" · Plus false (Chr Dot) · lit ")")%re.

Definition emptyLabelBodyRe : regex :=
  (lit "[" · lit "]" · lit "(" · Group 1 (Plus false (Chr Dot)) · lit ")")%re.

(** * Further direct descriptions

    The definitions the further properties are stated with. *)

(** The characters [escapeLinkUrl] replaces *)
Definition needsLinkEscape (c : N) : bool :=
  (c =? ch "(") || (c =? ch ")") || (c =? ch " ").

(** The characters [escapeTitleText] escapes, and what it makes of one
    character *)
Definition isBracket (c : N) : bool := (c =? ch "[") || (c =? ch "]").

Definition escapeTitleChar (c : N) : jsstring :=
  if isBracket c then [ch "\"; c] else [c].

(** What [escapeInlineCode] makes of one character *)
Definition escapeCodeChar (c : N) : jsstring :=
  if c =? ch "`" then [c; c] else [c].

(** A pipe that has no backslash right before it; [escaped] tells whether
    the character before the text is a backslash. *)
Fixpoint barePipe (escaped : bool) (s : jsstring) : bool :=
  match s with
  | [] => false
  | c :: r => ((c =? ch "|") && negb escaped) || barePipe (c =? ch "\") r
  end.

(** One escape of [escapeLinkUrl]: the character [x] becomes the text
    [code]. *)
Definition escapeOne (x : N) (code : jsstring) (c : N) : jsstring :=
  if c =? x then code else [c].

(** A bracket at the start of [s], replaced by a backslash and itself *)
Definition findBracket (s : jsstring) : option (jsstring * nat) :=
  match s with
  | c :: _ => if isBracket c then Some ([ch "\"; c], 1%nat) else None
  | [] => None
  end.

(** Take away the backslash that stands directly before a bracket. *)
Fixpoint unescapeTitleText (s : jsstring) : jsstring :=
  match s with
  | [] => []
  | c :: r =>
      match r with
      | d :: r' =>
          if (c =? ch "\") && isBracket d then d :: unescapeTitleText r'
          else c :: unescapeTitleText r
      | [] => [c]
      end
  end.

(** The list token of [listRegex], read from the text after the leading
    white space: a bullet with a check box and one white-space character,
    else a bullet and one white-space character, else digits, a dot or a
    parenthesis and one white-space character. *)
Definition listTokenAfter (s : jsstring) : option jsstring :=
  match s with
  | [] => None
  | b :: r =>
      if isBulletChar b then
        match r with
        | sp :: lb :: x :: rb :: w :: _ =>
            if (sp =? ch " ") && (lb =? ch "[") && isCheckMark x
               && (rb =? ch "]") && isWhiteSpace w
            then Some [b; sp; lb; x; rb; w]
            else if isWhiteSpace sp then Some [b; sp] else None
        | sp :: _ => if isWhiteSpace sp then Some [b; sp] else None
        | [] => None
        end
      else if isDigit b then
        match dropWhile isDigit r with
        | p :: w :: _ =>
            if isDotOrParen p && isWhiteSpace w
            then Some (b :: takeWhile isDigit r ++ [p; w])
            else None
        | _ => None
        end
      else None
  end.

(** The list token of a line, empty when the line is no list item *)
Definition listTokenDirect (line : jsstring) : jsstring :=
  default [] (listTokenAfter (dropWhile isWhiteSpace line)).

(** The second capture of a result of the matcher *)
Definition group2 (st : mstate) : option jsstring := ms_caps st !! 2%nat.

(** The separator of the cells of a table line *)
Definition isPipe (c : N) : bool := c =? ch "|".

(** The kind of a record is one the options ask for. *)
Definition kindAllowed (includeImages includeAnchors : bool)
    (r : ExtractFileUrlsResult) : bool :=
  match type r with
  | Image => includeImages
  | Anchor => includeAnchors
  end.

(** The pattern [r] has no empty match in [content], from any position a
    search can start at. *)
Definition neverEmptyIn (r : regex) (content : jsstring) : bool :=
  forallb (fun i => match search r i (drop i content) with
                    | Some m => (0 <? length (m_text m))%nat
                    | None => true
                    end)
    (seq 0 (S (length content))).

(** Whether the options, after the defaults, ask for images and for
    anchors *)
Definition wantsImages (o : option ExtractFileUrlsOptions) : bool :=
  default true (o ≫= includeImages).
Definition wantsAnchors (o : option ExtractFileUrlsOptions) : bool :=
  default true (o ≫= includeAnchors).

(** The line feed, at which [titleFromBody] splits the body *)
Definition isLF (c : N) : bool := c =? LF.

(** The characters of the url of a link *)
Definition isUrlChar (c : N) : bool := negb (isWhiteSpace c || (c =? ch ")")).

(** The text after the url, up to the first closing parenthesis, which
    must come on the same line: the text with the parenthesis. *)
Definition closingText (s : jsstring) : option jsstring :=
  match dropWhile inTarget s with
  | c :: _ => if c =? ch ")" then Some (takeWhile inTarget s ++ [c]) else None
  | [] => None
  end.

(** The target of a link at the start of [s]: after [](] the longest run
    of url characters, which must not be empty, and the closing text. *)
Definition linkUrl (s : jsstring) : option (jsstring * jsstring) :=
  match s with
  | rb :: lp :: s1 =>
      if (rb =? ch "]") && (lp =? ch "(") then
        match takeWhile isUrlChar s1 with
        | [] => None
        | (_ :: _) as target =>
            match closingText (dropWhile isUrlChar s1) with
            | Some after => Some (target, after)
            | None => None
            end
        end
      else None
  | _ => None
  end.

(** A link at the start of [s], with its url rewritten by [f] *)
Definition rewrittenLink (f : option jsstring -> jsstring -> jsstring)
    (baseUrl : jsstring) (s : jsstring) : option (jsstring * nat) :=
  match linkUrl s with
  | Some (target, after) =>
      Some (js "](" ++ f (Some target) baseUrl ++ after,
            (2 + length target + length after)%nat)
  | None => None
  end.

(** A token the walk gets through with the given fuel, whatever the
    options: an image or a link has its [attrs]; in the content of an
    HTML token neither pattern has an empty match, and the fuel is above
    its length plus one; and so for the tokens below it. *)
Fixpoint walkable (imageRegex anchorRegex : regex) (fuel : nat) (t : token)
  : bool :=
  match t with
  | Token ty attrs content children =>
      (if bool_decide (ty = js "image") || bool_decide (ty = js "link_open")
       then bool_decide (is_Some attrs)
       else if bool_decide (ty = js "html_block")
               || bool_decide (ty = js "html_inline")
       then neverEmptyIn imageRegex content && neverEmptyIn anchorRegex content
            && (length content + 1 <? fuel)%nat
       else true)
      && match children with
         | Some l => forallb (walkable imageRegex anchorRegex fuel) l
         | None => true
         end
  end.

(** * Theorems *)

(** ** The matcher at work

    What JavaScript answers on the same inputs: a global replacement
    also replaces the empty matches, here before [a] and at the end; a
    lazy star takes nothing when nothing forces it to; the captures
    inside a star are those of its last iteration. *)

Example matcher_examples :
  replaceAll (Star true (lit "b")) [RText (js "X")] (js "ab") = js "XaXX"
  /\ m_text <$> exec (Star false (lit "a")) (js "aaa") = Some []
  /\ (fun m => (m_text m, group m 1))
       <$> exec (Star true (Alt (Group 1 (lit "a")) (lit "b"))) (js "ab")
     = Some (js "ab", None)
  /\ (fun m => (m_text m, group m 1))
       <$> exec (Star true (Alt (Group 1 (lit "a")) (lit "b"))) (js "ba")
     = Some (js "ba", Some (js "a"))
  /\ (fun m => (m_index m, m_text m))
       <$> exec (Seq (Plus true digit) Eol) (js "a12b345")
     = Some (4%nat, js "345")
  /\ escapeTitleText (js "[a]") = js "\[a\]"
  /\ escapeInlineCode (js "a`b") = js "a``b".
Proof. repeat split; reflexivity. Qed.

(** ** The matcher on one-character patterns *)

Arguments orElse : simpl never.

Lemma orElse_None_r {A} (a : option A) : orElse a None = a.
Proof. by destruct a. Qed.

Lemma chrStep_cons cs k pos c rest caps :
  chrStep cs k (MState pos (c :: rest) caps)
  = if charSetMem cs c then k (MState (S pos) rest caps) else None.
Proof. reflexivity. Qed.

Lemma starLoop_chr greedy cs k rest :
  forall fuel pos caps, (length rest < fuel)%nat ->
    starLoop (chrStep cs) [] greedy k fuel (MState pos rest caps)
    = starSet greedy cs k pos rest caps.
Proof.
  induction rest as [|c rest IH]; intros fuel pos caps Hfuel;
    (destruct fuel as [|fuel]; [simpl in Hfuel; lia|]).
  - cbn. destruct greedy; cbn; by rewrite ?orElse_None_r.
  - simpl in Hfuel. cbn [starLoop starSet]. unfold clearCaps.
    cbn [ms_rest ms_pos ms_caps foldr]. rewrite chrStep_cons.
    destruct (charSetMem cs c).
    + cbn [ms_rest].
      replace (length rest <? length (c :: rest))%nat with true
        by (symmetry; apply Nat.ltb_lt; simpl; lia).
      rewrite IH by lia. done.
    + destruct greedy; cbn; by rewrite ?orElse_None_r.
Qed.

Lemma rmatch_star_chr greedy cs k st :
  rmatch (Star greedy (Chr cs)) k st
  = starSet greedy cs k (ms_pos st) (ms_rest st) (ms_caps st).
Proof.
  destruct st as [pos rest caps].
  change (rmatch (Star greedy (Chr cs)) k (MState pos rest caps))
    with (starLoop (chrStep cs) [] greedy k (S (length rest)) (MState pos rest caps)).
  apply starLoop_chr. cbn. lia.
Qed.

(** Unfolding equations of the matcher *)
Lemma rmatch_chr cs k st : rmatch (Chr cs) k st = chrStep cs k st.
Proof. reflexivity. Qed.

Lemma rmatch_seq r1 r2 k st : rmatch (Seq r1 r2) k st = rmatch r1 (rmatch r2 k) st.
Proof. reflexivity. Qed.

Lemma rmatch_alt r1 r2 k st :
  rmatch (Alt r1 r2) k st = orElse (rmatch r1 k st) (rmatch r2 k st).
Proof. reflexivity. Qed.

Lemma rmatch_group i r k st :
  rmatch (Group i r) k st
  = rmatch r (fun st' =>
                k (MState (ms_pos st') (ms_rest st')
                     (<[i := take (ms_pos st' - ms_pos st) (ms_rest st)]>
                        (ms_caps st')))) st.
Proof. reflexivity. Qed.

Lemma rmatch_bol k st :
  rmatch Bol k st = if (ms_pos st =? 0)%nat then k st else None.
Proof. reflexivity. Qed.

Lemma rmatch_eol k st :
  rmatch Eol k st = match ms_rest st with [] => k st | _ :: _ => None end.
Proof. reflexivity. Qed.

Lemma rmatch_plus_chr greedy cs k st :
  rmatch (Plus greedy (Chr cs)) k st
  = chrStep cs (fun st' => starSet greedy cs k (ms_pos st') (ms_rest st') (ms_caps st')) st.
Proof.
  unfold Plus. rewrite rmatch_seq, rmatch_chr. unfold chrStep.
  destruct (ms_rest st) as [|c rest]; [done|].
  destruct (charSetMem cs c); [|done]. apply rmatch_star_chr.
Qed.

(** Runs of characters *)
Lemma takeWhile_dropWhile p s : takeWhile p s ++ dropWhile p s = s.
Proof. induction s as [|c s IH]; simpl; [done|]. destruct (p c); simpl; by rewrite ?IH. Qed.

Lemma drop_length_takeWhile p s : drop (length (takeWhile p s)) s = dropWhile p s.
Proof. induction s as [|c s IH]; simpl; [done|]. destruct (p c); simpl; by rewrite ?IH. Qed.

Lemma take_length_takeWhile p s : take (length (takeWhile p s)) s = takeWhile p s.
Proof. induction s as [|c s IH]; simpl; [done|]. destruct (p c); simpl; by rewrite ?IH. Qed.

(** A star whose continuation cannot start with a character of the set
    takes the whole run, greedy or lazy. *)
Lemma starSet_run greedy cs k :
  (forall pos c r caps, charSetMem cs c = true -> k (MState pos (c :: r) caps) = None) ->
  forall rest pos caps,
    starSet greedy cs k pos rest caps
    = k (MState (pos + length (takeWhile (charSetMem cs) rest))
           (dropWhile (charSetMem cs) rest) caps).
Proof.
  intros Hk. induction rest as [|c rest IH]; intros pos caps; cbn [starSet takeWhile dropWhile].
  - by rewrite Nat.add_0_r.
  - destruct (charSetMem cs c) eqn:Hc.
    + rewrite IH, (Hk _ _ _ _ Hc). cbn [length].
      replace (S pos + length (takeWhile (charSetMem cs) rest))%nat
        with (pos + S (length (takeWhile (charSetMem cs) rest)))%nat by lia.
      destruct greedy; [apply orElse_None_r|done].
    + cbn [length]. by rewrite Nat.add_0_r.
Qed.

(** A greedy star whose continuation always succeeds takes the whole run. *)
Lemma starSet_greedy_total cs k :
  (forall st, is_Some (k st)) ->
  forall rest pos caps,
    starSet true cs k pos rest caps
    = k (MState (pos + length (takeWhile (charSetMem cs) rest))
           (dropWhile (charSetMem cs) rest) caps).
Proof.
  intros Hk. induction rest as [|c rest IH]; intros pos caps; cbn [starSet takeWhile dropWhile].
  - by rewrite Nat.add_0_r.
  - destruct (charSetMem cs c) eqn:Hc.
    + rewrite IH. cbn [length].
      replace (S pos + length (takeWhile (charSetMem cs) rest))%nat
        with (pos + S (length (takeWhile (charSetMem cs) rest)))%nat by lia.
      destruct (Hk (MState (pos + S (length (takeWhile (charSetMem cs) rest)))
                      (dropWhile (charSetMem cs) rest) caps)) as [x ->].
      done.
    + cbn [length]. by rewrite Nat.add_0_r.
Qed.

(** A lazy star skips the characters on which its continuation fails. *)
Lemma starSet_lazy_skip cs k (q : N -> bool) :
  (forall c, q c = true -> charSetMem cs c = true) ->
  (forall pos c r caps, q c = true -> k (MState pos (c :: r) caps) = None) ->
  forall rest pos caps,
    starSet false cs k pos rest caps
    = starSet false cs k (pos + length (takeWhile q rest)) (dropWhile q rest) caps.
Proof.
  intros Hq Hk. induction rest as [|c rest IH]; intros pos caps.
  - cbn [takeWhile dropWhile length]. by rewrite Nat.add_0_r.
  - cbn [takeWhile dropWhile]. destruct (q c) eqn:Hc.
    + cbn [starSet length]. rewrite (Hq _ Hc), (Hk _ _ _ _ Hc), IH.
      replace (S pos + length (takeWhile q rest))%nat
        with (pos + S (length (takeWhile q rest)))%nat by lia.
      done.
    + cbn [length]. by rewrite Nat.add_0_r.
Qed.

(** Patterns anchored at the start can only match at index 0. *)
Lemma search_bol r : forall rest pos, (0 < pos)%nat -> search (Seq Bol r) pos rest = None.
Proof.
  induction rest as [|c rest IH]; intros pos Hpos; cbn [search];
    unfold matchAt; rewrite rmatch_seq, rmatch_bol; cbn [ms_pos];
    (destruct pos; [lia|]); cbn [Nat.eqb]; [done|].
  apply IH. lia.
Qed.

Lemma exec_bol r s : exec (Seq Bol r) s = matchAt (Seq Bol r) 0 s.
Proof.
  unfold exec. destruct s as [|c s]; cbn [search];
    destruct (matchAt (Seq Bol r) 0 _); try done.
  apply search_bol. lia.
Qed.

(** ** Global replacement as a left-to-right scan *)

Lemma replaceAll_eq r tmpl s :
  replaceAll r tmpl s = flat_map (render tmpl) (pieces r 0 0 s).
Proof. reflexivity. Qed.

Lemma pieces_substitute r tmpl find :
  (forall pos rest,
      (fun m => (expand tmpl m, length (m_text m))) <$> matchAt r pos rest
      = find rest) ->
  forall s skip pos,
    flat_map (render tmpl) (pieces r skip pos s) = substitute find skip s.
Proof.
  intros Hfind. induction s as [|c s IH]; intros skip pos.
  - destruct skip; cbn [pieces substitute]; [|done].
    rewrite <- (Hfind pos []). destruct (matchAt r pos []) as [m|]; cbn; [|done].
    by rewrite !app_nil_r.
  - destruct skip; cbn [pieces substitute]; [|apply IH].
    rewrite <- (Hfind pos (c :: s)).
    destruct (matchAt r pos (c :: s)) as [m|]; cbn [fmap option_fmap option_map flat_map render].
    + f_equal. destruct (length (m_text m)); cbn [flat_map render]; by rewrite IH.
    + by rewrite IH.
Qed.

Lemma replaceAll_substitute r tmpl find s :
  (forall pos rest,
      (fun m => (expand tmpl m, length (m_text m))) <$> matchAt r pos rest
      = find rest) ->
  replaceAll r tmpl s = substitute find 0 s.
Proof. intros H. rewrite replaceAll_eq. by apply pieces_substitute. Qed.

Lemma matchAt_chr cs pos rest :
  matchAt (Chr cs) pos rest
  = match rest with
    | c :: _ => if charSetMem cs c then Some (MatchResult pos [c] ∅) else None
    | [] => None
    end.
Proof.
  unfold matchAt. rewrite rmatch_chr. unfold chrStep. cbn [ms_rest ms_pos ms_caps].
  destruct rest as [|c rest]; [done|]. destruct (charSetMem cs c); [|done].
  cbn [ms_pos ms_caps]. replace (S pos - pos)%nat with 1%nat by lia. reflexivity.
Qed.

Lemma substitute_findChr cs txt s :
  substitute (findChr cs txt) 0 s
  = flat_map (fun c => if charSetMem cs c then txt else [c]) s.
Proof.
  induction s as [|c s IH]; cbn [substitute findChr flat_map]; [done|].
  destruct (charSetMem cs c); by rewrite IH.
Qed.

Lemma replaceAll_chr cs txt s :
  replaceAll (Chr cs) [RText txt] s
  = flat_map (fun c => if charSetMem cs c then txt else [c]) s.
Proof.
  rewrite (replaceAll_substitute _ _ (findChr cs txt)); [apply substitute_findChr|].
  intros pos rest. rewrite matchAt_chr. unfold findChr.
  destruct rest as [|c rest]; [done|]. destruct (charSetMem cs c); [|done].
  cbn. by rewrite app_nil_r.
Qed.

Lemma startsWith_take pat : forall s, startsWith pat s = true -> take (length pat) s = pat.
Proof.
  induction pat as [|p pat IH]; intros [|c s] H; cbn in *; try done.
  apply andb_true_iff in H as [Hc H]. apply N.eqb_eq in Hc as ->. by rewrite IH.
Qed.

Lemma rmatch_str pat k : forall pos rest caps,
  rmatch (Str pat) k (MState pos rest caps)
  = if startsWith pat rest
    then k (MState (pos + length pat) (drop (length pat) rest) caps)
    else None.
Proof.
  induction pat as [|p pat IH]; intros pos rest caps.
  - cbn. by rewrite Nat.add_0_r, drop_0.
  - assert (Hstep : rmatch (Str (p :: pat)) k (MState pos rest caps)
                    = chrStep (Lit p) (rmatch (Str pat) k) (MState pos rest caps)).
    { destruct pat; reflexivity. }
    rewrite Hstep. unfold chrStep. cbn [ms_rest ms_pos ms_caps startsWith charSetMem].
    destruct rest as [|c rest]; [done|]. destruct (c =? p); cbn [andb]; [|done].
    rewrite IH. cbn [length drop].
    replace (S pos + length pat)%nat with (pos + S (length pat))%nat by lia. done.
Qed.

Lemma matchAt_str pat pos rest :
  matchAt (Str pat) pos rest
  = if startsWith pat rest then Some (MatchResult pos pat ∅) else None.
Proof.
  unfold matchAt. rewrite rmatch_str. destruct (startsWith pat rest) eqn:H; [|done].
  cbn [ms_pos ms_caps]. replace (pos + length pat - pos)%nat with (length pat) by lia.
  by rewrite startsWith_take.
Qed.

Lemma replaceAll_str pat txt s :
  replaceAll (Str pat) [RText txt] s = substitute (findStr pat txt) 0 s.
Proof.
  apply replaceAll_substitute. intros pos rest. rewrite matchAt_str. unfold findStr.
  destruct (startsWith pat rest); [|done]. cbn. by rewrite app_nil_r.
Qed.

(** ** Percent-decoding one escape sequence *)

Section Decode.
Variables (a b x : N) (enc : N -> jsstring).
Let pct : N := ch "%".

Hypothesis Ha : a <> pct.
Hypothesis Hb : b <> pct.
Hypothesis Hx : enc x = [pct; a; b].
Hypothesis Henc : forall c, c <> x ->
  enc c = [c]
  \/ exists d1 d2, enc c = [pct; d1; d2] /\ d1 <> pct /\ d2 <> pct
                   /\ (d1 <> a \/ d2 <> b).

Lemma enc_head c : enc c = [c] \/ exists t, enc c = pct :: t.
Proof.
  destruct (N.eq_dec c x) as [->|Hc]; [right; rewrite Hx; eauto|].
  destruct (Henc c Hc) as [H|(d1 & d2 & H & _)]; [by left|right; rewrite H; eauto].
Qed.

Lemma startsWith_enc r :
  startsWith [a; b] (flat_map enc r) = true -> startsWith [a; b] r = true.
Proof.
  destruct r as [|c1 r]; [done|]. cbn [flat_map].
  destruct (enc_head c1) as [->|[t ->]]; cbn [app startsWith].
  - destruct (N.eqb_spec c1 a) as [->|]; [|done]. cbn [andb].
    destruct r as [|c2 r]; [done|]. cbn [flat_map].
    destruct (enc_head c2) as [->|[t ->]]; cbn [app startsWith]; [done|].
    destruct (N.eqb_spec pct b) as [E|]; [by symmetry in E|done].
  - destruct (N.eqb_spec pct a) as [E|]; [by symmetry in E|done].
Qed.

Lemma decode_enc s :
  includes [pct; a; b] s = false ->
  substitute (findStr [pct; a; b] [x]) 0 (flat_map enc s) = flat_map (decoded x enc) s.
Proof.
  induction s as [|c s IH]; intros Hs; [done|].
  cbn [includes] in Hs. apply orb_false_iff in Hs as [Hhere Hs].
  specialize (IH Hs). cbn [flat_map]. unfold decoded at 1.
  destruct (N.eqb_spec c x) as [->|Hc].
  - rewrite Hx. cbn [app substitute]. unfold findStr at 1. cbn [startsWith].
    rewrite !N.eqb_refl. cbn [andb length app]. by rewrite IH.
  - destruct (Henc c Hc) as [->|(d1 & d2 & -> & Hd1 & Hd2 & Hd)].
    + cbn [app substitute]. unfold findStr at 1.
      destruct (startsWith [pct; a; b] (c :: flat_map enc s)) eqn:Hm.
      * exfalso. cbn [startsWith] in Hm, Hhere.
        destruct (c =? pct); [|done]. cbn [andb] in Hm, Hhere.
        apply startsWith_enc in Hm. cbn [startsWith] in Hm. congruence.
      * cbn [app]. by rewrite IH.
    + cbn [app substitute]. unfold findStr at 1. cbn [startsWith].
      rewrite N.eqb_refl. cbn [andb].
      assert ((d1 =? a) && ((d2 =? b) && true) = false) as ->.
      { destruct Hd as [Hd|Hd]; [apply N.eqb_neq in Hd|apply N.eqb_neq in Hd];
          rewrite Hd; cbn; by rewrite ?andb_false_r. }
      cbn [substitute]. unfold findStr at 1. cbn [startsWith].
      apply N.eqb_neq in Hd1. rewrite Hd1. cbn [andb substitute].
      unfold findStr at 1. cbn [startsWith].
      apply N.eqb_neq in Hd2. rewrite Hd2. cbn [andb app]. by rewrite IH.
Qed.
End Decode.

Lemma flat_map_flat_map {A B C} (f : A -> list B) (g : B -> list C) (l : list A) :
  flat_map g (flat_map f l) = flat_map (fun x => flat_map g (f x)) l.
Proof.
  induction l as [|x l IH]; cbn [flat_map]; [done|]. by rewrite flat_map_app, IH.
Qed.

Lemma flat_map_singleton {A} (f : A -> list A) (l : list A) :
  (forall x, f x = [x]) -> flat_map f l = l.
Proof. intros H. induction l as [|x l IH]; cbn [flat_map]; [done|]. by rewrite H, IH. Qed.

Lemma escapeLinkUrl_flat_map url : escapeLinkUrl url = flat_map escapeLinkChar url.
Proof.
  unfold escapeLinkUrl, lit. rewrite !replaceAll_chr, !flat_map_flat_map.
  apply flat_map_ext. intros c. unfold escapeLinkChar. cbn [charSetMem].
  destruct (N.eqb_spec c (ch "(")) as [->|]; [reflexivity|].
  cbn [flat_map app]. destruct (N.eqb_spec c (ch ")")) as [->|]; [reflexivity|].
  cbn [flat_map app]. destruct (N.eqb_spec c (ch " ")) as [->|]; reflexivity.
Qed.

Ltac eqb_cases :=
  repeat match goal with
         | |- context [N.eqb ?u ?v] =>
             destruct (N.eqb_spec u v); try subst; try done
         end.

Ltac decode_side :=
  intros ? ?; unfold decoded, escapeLinkChar; eqb_cases;
  first [ by left
        | right; eexists _, _; (split; [reflexivity|]);
          (split; [done|]); (split; [done|]); ((by left) || (by right)) ].

(** Claim C1: for every url that contains none of the literal sequences
    %28, %29 and %20, unescaping the escaped url gives the url back. *)
Theorem escapeLinkUrl_roundtrip (url : jsstring) :
  includes (js "%28") url = false ->
  includes (js "%29") url = false ->
  includes (js "%20") url = false ->
  unescapeLinkUrl (escapeLinkUrl url) = url.
Proof.
  intros H28 H29 H20. rewrite escapeLinkUrl_flat_map. unfold unescapeLinkUrl.
  rewrite !replaceAll_str.
  rewrite (decode_enc (ch "2") (ch "8") (ch "(") escapeLinkChar);
    [|done|done|reflexivity|decode_side|exact H28].
  rewrite (decode_enc (ch "2") (ch "9") (ch ")") (decoded (ch "(") escapeLinkChar));
    [|done|done|reflexivity|decode_side|exact H29].
  rewrite (decode_enc (ch "2") (ch "0") (ch " ")
             (decoded (ch ")") (decoded (ch "(") escapeLinkChar)));
    [|done|done|reflexivity|decode_side|exact H20].
  apply flat_map_singleton. intros c. unfold decoded, escapeLinkChar.
  destruct (N.eqb_spec c (ch " ")) as [->|]; [reflexivity|].
  destruct (N.eqb_spec c (ch ")")) as [->|]; [reflexivity|].
  destruct (N.eqb_spec c (ch "(")) as [->|]; reflexivity.
Qed.

(** The claim at the url [my file (1).png]. *)
Lemma escapeLinkUrl_roundtrip_witness :
  unescapeLinkUrl (escapeLinkUrl (js "my file (1).png")) = js "my file (1).png".
Proof. apply escapeLinkUrl_roundtrip; reflexivity. Defined.

(** ** One-character patterns with the global flag *)

Lemma pieces_chr_texts cs : forall s pos,
  omap (fun p => match p with Hit m => Some (m_text m) | Copy _ => None end)
       (pieces (Chr cs) 0 pos s)
  = map (fun c => [c]) (List.filter (charSetMem cs) s).
Proof.
  induction s as [|c s IH]; intros pos; cbn [pieces]; rewrite matchAt_chr; [done|].
  cbn [List.filter]. destruct (charSetMem cs c); cbn; by rewrite IH.
Qed.

Lemma matchAll_chr cs s :
  matchAll (Chr cs) s
  = match List.filter (charSetMem cs) s with
    | [] => None
    | l => Some (map (fun c => [c]) l)
    end.
Proof.
  unfold matchAll. rewrite pieces_chr_texts.
  by destruct (List.filter (charSetMem cs) s).
Qed.

Lemma matchAll_chr_length cs s :
  length (default [] (matchAll (Chr cs) s)) = length (List.filter (charSetMem cs) s).
Proof.
  rewrite matchAll_chr. destruct (List.filter (charSetMem cs) s) eqn:E; [done|].
  cbn [default]. apply List.length_map.
Qed.

Lemma matchAll_chr_null cs (p : N -> bool) s :
  (forall c, charSetMem cs c = p c) ->
  matchAll (Chr cs) s = None <-> existsb p s = false.
Proof.
  intros Hp. rewrite matchAll_chr.
  induction s as [|c s IH]; cbn [List.filter existsb]; [done|].
  rewrite <- Hp. destruct (charSetMem cs c); cbn [orb]; [done|]. exact IH.
Qed.

(** ** Table lines *)

Lemma charAt_first s : charAt s 0 = head s.
Proof. unfold charAt. cbn. by destruct s. Qed.

Lemma charAt_last s : charAt s (Z.of_nat (length s) - 1) = last s.
Proof.
  unfold charAt. rewrite last_lookup.
  destruct s as [|c s]; [done|]. cbn [length].
  destruct (Z.ltb_spec (Z.of_nat (S (length s)) - 1) 0) as [H|H]; [lia|].
  f_equal. lia.
Qed.

(** Claim C6: [countTableColumns] is 0 for an empty or [null] line, and
    otherwise the number of pipes in the line, less one if the trimmed
    line starts with a pipe, less one if it ends with a pipe, plus one;
    the line [| a | b |] has 2 columns. *)
Theorem countTableColumns_spec (line : option jsstring) :
  countTableColumns line
  = match line with
    | None | Some [] => 0%Z
    | Some l =>
        (Z.of_nat (countChar (ch "|") l)
         - (if startsWithPipe (trim l) then 1 else 0)
         - (if endsWithPipe (trim l) then 1 else 0) + 1)%Z
    end
  /\ countTableColumns (Some (js "| a | b |")) = 2%Z.
Proof.
  split; [|reflexivity].
  destruct line as [[|c l]|]; [done| |done].
  unfold countTableColumns, lit. rewrite matchAll_chr_length, charAt_first, charAt_last.
  unfold countChar, startsWithPipe, endsWithPipe.
  change (charSetMem (Lit (ch "|"))) with (fun x => x =? ch "|").
  repeat case_bool_decide; lia.
Qed.

Lemma invalidDividerChar_mem c :
  charSetMem (NotClass [CSpace; CChar (ch "-"); CChar (ch ":"); CChar (ch "|")]) c
  = invalidInDivider c.
Proof.
  unfold invalidInDivider. cbn [charSetMem existsb itemMem].
  by rewrite orb_false_r, !orb_assoc.
Qed.

(** Claim C5: [matchingTableDivider] is false when either line is empty
    (or [null]) or the divider line has a character other than white
    space, dash, colon and pipe; otherwise it is true exactly when the
    divider has more than 0 columns and at least as many as the header. *)
Theorem matchingTableDivider_spec (headerLine dividerLine : option jsstring) :
  matchingTableDivider headerLine dividerLine
  = if negb (truthy headerLine) || negb (truthy dividerLine)
       || existsb invalidInDivider (default [] dividerLine)
    then false
    else (0 <? countTableColumns dividerLine)%Z
         && (countTableColumns headerLine <=? countTableColumns dividerLine)%Z.
Proof.
  unfold matchingTableDivider.
  destruct (negb (truthy headerLine) || negb (truthy dividerLine)); [done|].
  cbn [orb]. unfold invalidDividerChar.
  destruct (matchAll _ _) eqn:E.
  - destruct (existsb invalidInDivider (default [] dividerLine)) eqn:E'; [done|].
    apply (matchAll_chr_null _ _ _ invalidDividerChar_mem) in E'. congruence.
  - apply (matchAll_chr_null _ _ _ invalidDividerChar_mem) in E. by rewrite E.
Qed.

(** ** Facts about character classes *)

Ltac bool_hyps :=
  repeat match goal with
         | H : _ && _ = true |- _ => apply andb_true_iff in H as [? ?]
         | H : _ || _ = true |- _ => apply orb_true_iff in H as [?|?]
         | H : _ || _ = false |- _ => apply orb_false_iff in H as [? ?]
         | H : negb _ = true |- _ => apply negb_true_iff in H
         | H : negb _ = false |- _ => apply negb_false_iff in H
         | H : (_ =? _) = true |- _ => apply N.eqb_eq in H
         | H : (_ =? _) = false |- _ => apply N.eqb_neq in H
         | H : (_ <=? _) = true |- _ => apply N.leb_le in H
         | H : (_ <=? _) = false |- _ => apply N.leb_gt in H
         end.

Ltac bool_goal :=
  repeat match goal with
         | |- (?a <=? ?b) && _ = false =>
             destruct (N.leb_spec a b); [cbn [andb]|reflexivity]
         | |- (_ <=? _) = false => apply N.leb_gt
         | |- _ || _ = false => apply orb_false_iff; split
         | |- negb _ = true => apply negb_true_iff
         | |- negb _ = false => apply negb_false_iff
         | |- (_ =? _) = false => apply N.eqb_neq
         | |- (_ =? _) = true => apply N.eqb_eq
         | |- (_ <=? _) = true => apply N.leb_le
         end.

Lemma someb_orElse {A} (a b : option A) : someb (orElse a b) = someb a || someb b.
Proof. by destruct a. Qed.

Lemma someb_if {A} (c : bool) (o : option A) :
  someb (if c then o else None) = c && someb o.
Proof. by destruct c. Qed.

Lemma someb_None {A} (o : option A) : someb o = false -> o = None.
Proof. by destruct o. Qed.

Lemma test_someb r s : test r s = someb (exec r s).
Proof. unfold test. destruct (exec r s); by cbn. Qed.

Lemma takeWhile_ext p q s : (forall c, p c = q c) -> takeWhile p s = takeWhile q s.
Proof. intros H. induction s as [|c s IH]; cbn; [done|]. by rewrite H, IH. Qed.

Lemma dropWhile_ext p q s : (forall c, p c = q c) -> dropWhile p s = dropWhile q s.
Proof. intros H. induction s as [|c s IH]; cbn; [done|]. by rewrite H, IH. Qed.

Lemma dropWhile_head p s c r : dropWhile p s = c :: r -> p c = false.
Proof.
  induction s as [|x s IH]; cbn; [done|]. destruct (p x) eqn:E; [done|].
  intros [= <- _]. done.
Qed.

Lemma dropWhile_nil p s : dropWhile p s = [] <-> forallb p s = true.
Proof.
  induction s as [|x s IH]; cbn; [done|]. destruct (p x); cbn; [done|].
  split; done.
Qed.

Lemma starSet_run_p greedy cs (p : N -> bool) k :
  (forall c, charSetMem cs c = p c) ->
  (forall pos c r caps, p c = true -> k (MState pos (c :: r) caps) = None) ->
  forall rest pos caps,
    starSet greedy cs k pos rest caps
    = k (MState (pos + length (takeWhile p rest)) (dropWhile p rest) caps).
Proof.
  intros Hp Hk rest pos caps. rewrite starSet_run.
  - by rewrite (takeWhile_ext _ p), (dropWhile_ext _ p).
  - intros ? c ? ? Hc. apply Hk. by rewrite <- Hp.
Qed.

Lemma mem_space c : charSetMem (Class [CSpace]) c = isWhiteSpace c.
Proof. cbn. apply orb_false_r. Qed.

Lemma mem_digit c : charSetMem (Class [CDigit]) c = isDigit c.
Proof. cbn. apply orb_false_r. Qed.

Lemma mem_bullet c :
  charSetMem (Class [CChar (ch "*"); CChar (ch "+"); CChar (ch "-")]) c = isBulletChar c.
Proof. cbn. unfold isBulletChar. by rewrite orb_false_r, orb_assoc. Qed.

Lemma mem_checkMark c :
  charSetMem (Class [CChar (ch "x"); CChar (ch " ")]) c = isCheckMark c.
Proof. cbn. unfold isCheckMark. by rewrite orb_false_r. Qed.

Lemma mem_dotOrParen c :
  charSetMem (Class [CChar (ch "."); CChar (ch ")")]) c = isDotOrParen c.
Proof. cbn. unfold isDotOrParen. by rewrite orb_false_r. Qed.

Lemma mem_lit a c : charSetMem (Lit a) c = (c =? a).
Proof. reflexivity. Qed.

Ltac class_disjoint :=
  unfold isWhiteSpace, isDigit, isBulletChar, isDotOrParen, isCheckMark,
    isLineTerminator in *;
  cbn [ch N_of_ascii N_of_digits] in *;
  repeat match goal with
         | |- context [N_of_ascii ?a] =>
             let v := eval vm_compute in (N_of_ascii a) in
             change (N_of_ascii a) with v
         | H : context [N_of_ascii ?a] |- _ =>
             let v := eval vm_compute in (N_of_ascii a) in
             change (N_of_ascii a) with v in H
         end;
  bool_hyps; subst; try reflexivity; bool_goal; try lia; try done.

Lemma space_not_bulletChar c : isWhiteSpace c = true -> isBulletChar c = false.
Proof. intros H. class_disjoint. Qed.

Lemma space_not_digit c : isWhiteSpace c = true -> isDigit c = false.
Proof. intros H. class_disjoint. Qed.

Lemma digit_not_dotOrParen c : isDigit c = true -> isDotOrParen c = false.
Proof. intros H. class_disjoint. Qed.

Lemma digit_not_space c : isDigit c = true -> isWhiteSpace c = false.
Proof. intros H. class_disjoint. Qed.

(** ** Empty list items *)

Lemma blankTail_someb pos rest caps :
  someb (rmatch blankTailRe Some (MState pos rest caps)) = blankTail rest.
Proof.
  unfold blankTailRe, space. rewrite rmatch_seq, rmatch_group, rmatch_plus_chr.
  unfold chrStep. cbn [ms_rest ms_pos ms_caps].
  destruct rest as [|c rest]; [done|]. rewrite mem_space. cbn [blankTail forallb].
  destruct (isWhiteSpace c); [|done]. cbn [andb].
  rewrite (starSet_run_p _ _ isWhiteSpace); [|apply mem_space|].
  - rewrite rmatch_eol. cbn [ms_rest].
    destruct (dropWhile isWhiteSpace rest) eqn:E.
    + apply dropWhile_nil in E. by rewrite E.
    + destruct (forallb isWhiteSpace rest) eqn:E'; [|done].
      apply dropWhile_nil in E'. congruence.
  - intros ? ? ? ? _. by rewrite rmatch_eol.
Qed.

Ltac step_chr :=
  repeat (rewrite ?rmatch_seq, ?rmatch_chr; unfold chrStep;
          cbn [ms_rest ms_pos ms_caps];
          rewrite ?someb_if, ?mem_bullet, ?mem_checkMark, ?mem_dotOrParen,
            ?mem_space, ?mem_digit, ?mem_lit).

Lemma checkToken_someb (k : mstate -> option mstate) n s caps :
  (forall st, someb (k st) = blankTail (ms_rest st)) ->
  someb (rmatch (bullet · lit " " · lit "[" · checkMark · lit "]")%re k
           (MState n s caps))
  = match s with
    | b :: sp :: lb :: x :: rb :: r' =>
        isBulletChar b && ((sp =? ch " ") && ((lb =? ch "[") && (isCheckMark x
        && ((rb =? ch "]") && blankTail r'))))
    | _ => false
    end.
Proof.
  intros Hk. unfold bullet, lit, checkMark.
  destruct s as [|b [|sp [|lb [|x [|rb r']]]]]; step_chr;
    rewrite ?Hk; cbn [ms_rest]; rewrite ?andb_false_r; done.
Qed.

Lemma plainToken_someb (k : mstate -> option mstate) n s caps :
  (forall st, someb (k st) = blankTail (ms_rest st)) ->
  someb (rmatch bullet k (MState n s caps))
  = match s with
    | b :: r => isBulletChar b && blankTail r
    | [] => false
    end.
Proof.
  intros Hk. unfold bullet. destruct s as [|b r]; step_chr; rewrite ?Hk; done.
Qed.

Lemma ordinalToken_someb (k : mstate -> option mstate) n s caps :
  (forall st, someb (k st) = blankTail (ms_rest st)) ->
  someb (rmatch (Group 3 (Plus true digit) · dotOrParen)%re k (MState n s caps))
  = match s with
    | b :: r =>
        isDigit b
        && match dropWhile isDigit r with
           | p :: r' => isDotOrParen p && blankTail r'
           | [] => false
           end
    | [] => false
    end.
Proof.
  intros Hk. unfold digit, dotOrParen.
  rewrite rmatch_seq, rmatch_group, rmatch_plus_chr. unfold chrStep.
  cbn [ms_rest ms_pos ms_caps]. destruct s as [|b r]; [done|].
  rewrite mem_digit, someb_if. f_equal.
  rewrite (starSet_run_p _ _ isDigit); [|apply mem_digit|].
  - destruct (dropWhile isDigit r) as [|p r']; step_chr; rewrite ?Hk; done.
  - intros ? c ? ? Hc. step_chr. by rewrite (digit_not_dotOrParen c Hc).
Qed.

Lemma emptyListRegex_eq :
  emptyListRegex = Seq Bol (Seq (Group 1 (Star true (Chr (Class [CSpace])))) emptyItemRe).
Proof. reflexivity. Qed.

Lemma emptyItem_someb n s caps :
  someb (rmatch emptyItemRe Some (MState n s caps)) = emptyItemAfter s.
Proof.
  unfold emptyItemRe.
  rewrite rmatch_seq, rmatch_group, !rmatch_alt, !someb_orElse.
  rewrite checkToken_someb, plainToken_someb, ordinalToken_someb
    by (intros; apply blankTail_someb).
  unfold emptyItemAfter. destruct s as [|b r]; [done|].
  rewrite orb_assoc. do 2 f_equal.
  destruct r as [|sp [|lb [|x [|rb r']]]];
    rewrite ?andb_assoc, ?andb_false_r; done.
Qed.

(** [isEmptyListItem] without the regular expression: white space, a
    bullet token, one or more white-space characters, the end. *)
Lemma isEmptyListItem_direct (line : jsstring) :
  isEmptyListItem line = emptyListItemDirect line.
Proof.
  unfold isEmptyListItem, emptyListItemDirect.
  rewrite test_someb, emptyListRegex_eq, exec_bol. unfold matchAt.
  rewrite rmatch_seq, rmatch_bol. cbn [ms_pos Nat.eqb].
  rewrite rmatch_seq, rmatch_group, rmatch_star_chr. cbn [ms_pos ms_rest ms_caps].
  rewrite (starSet_run_p _ _ isWhiteSpace); [|apply mem_space|].
  - rewrite <- (emptyItem_someb (0 + length (takeWhile isWhiteSpace line))
                  (dropWhile isWhiteSpace line)
                  (<[1%nat := take (0 + length (takeWhile isWhiteSpace line) - 0) line]> ∅)).
    cbn [ms_pos ms_rest ms_caps].
    by destruct (rmatch emptyItemRe Some _).
  - intros ? c ? ? Hc. cbn [ms_pos ms_rest ms_caps]. apply someb_None.
    rewrite emptyItem_someb. unfold emptyItemAfter.
    by rewrite (space_not_bulletChar c Hc), (space_not_digit c Hc).
Qed.

Lemma bullet_not_space c : isBulletChar c = true -> isWhiteSpace c = false.
Proof. intros H. class_disjoint. Qed.

Lemma bullet_not_digit c : isBulletChar c = true -> isDigit c = false.
Proof. intros H. class_disjoint. Qed.

Lemma digit_not_bullet c : isDigit c = true -> isBulletChar c = false.
Proof. intros H. class_disjoint. Qed.

Lemma dropWhile_app p r ws x r' :
  dropWhile p r = x :: r' -> dropWhile p (r ++ ws) = x :: r' ++ ws.
Proof.
  induction r as [|c r IH]; cbn; [done|]. destruct (p c); [exact IH|].
  by intros [= -> ->].
Qed.

(** Claim C10: a line that is exactly a bullet token is not an empty list
    item, and the token followed by one or more white-space characters
    and nothing else is one. *)
Theorem isEmptyListItem_needs_space (t ws : jsstring) :
  isBulletToken t = true ->
  blankTail ws = true ->
  isEmptyListItem t = false /\ isEmptyListItem (t ++ ws) = true.
Proof.
  intros Ht Hws. rewrite !isEmptyListItem_direct. unfold emptyListItemDirect.
  destruct t as [|b r]; [done|]. cbn [isBulletToken] in Ht.
  apply orb_true_iff in Ht as [Ht|Ht]; apply andb_true_iff in Ht as [Hb Hr].
  - cbn [app dropWhile]. rewrite (bullet_not_space b Hb). cbn [emptyItemAfter].
    rewrite Hb, (bullet_not_digit b Hb). cbn [andb]. rewrite !orb_false_r.
    destruct r as [|sp [|lb [|x [|rb [|? ?]]]]]; try done.
    + cbn [app]. rewrite Hws. split; [done|]. apply orb_true_r.
    + apply andb_true_iff in Hr as [Hr Hrb]. apply andb_true_iff in Hr as [Hr Hx].
      apply andb_true_iff in Hr as [Hsp Hlb].
      cbn [app]. rewrite Hsp, Hlb, Hx, Hrb, Hws. cbn [andb orb]. split; [|done].
      apply N.eqb_eq in Hlb as ->. cbn [blankTail forallb].
      by rewrite andb_false_r.
  - cbn [app dropWhile]. rewrite (digit_not_space b Hb). cbn [emptyItemAfter].
    rewrite Hb, (digit_not_bullet b Hb). cbn [andb orb].
    destruct (dropWhile isDigit r) as [|p [|? ?]] eqn:E; try done.
    rewrite (dropWhile_app _ _ ws _ _ E). cbn [app]. by rewrite Hr, Hws.
Qed.

(** The claim at the token [1.] and one space. *)
Lemma isEmptyListItem_needs_space_witness :
  isEmptyListItem (js "1.") = false /\ isEmptyListItem (js "1. ") = true.
Proof.
  exact (isEmptyListItem_needs_space (js "1.") (js " ") eq_refl eq_refl).
Defined.

(** ** The matcher stays within the input *)

Lemma starLoop_extent (step : (mstate -> option mstate) -> mstate -> option mstate)
    gs greedy k res :
  (forall k' st, step k' st = Some res ->
     exists st', extent st' = extent st /\ k' st' = Some res) ->
  forall fuel st, starLoop step gs greedy k fuel st = Some res ->
    exists st', extent st' = extent st /\ k st' = Some res.
Proof.
  intros Hstep. induction fuel as [|fuel IH]; intros st H; [done|].
  cbn [starLoop] in H.
  assert (Hcases :
    step (fun st' => if (length (ms_rest st') <? length (ms_rest st))%nat
                     then starLoop step gs greedy k fuel st' else None)
         (clearCaps gs st) = Some res
    \/ k st = Some res).
  { destruct greedy; unfold orElse in H;
      repeat match type of H with
             | match ?o with Some _ => _ | None => _ end = _ =>
                 destruct o eqn:?; simplify_eq
             end; eauto. }
  destruct Hcases as [Hagain|Hhere]; [|eauto].
  apply Hstep in Hagain as (st' & Hext & Hk).
  destruct (length (ms_rest st') <? length (ms_rest st))%nat; [|done].
  apply IH in Hk as (st'' & Hext' & Hk). exists st''. split; [|done].
  rewrite Hext', Hext. done.
Qed.

Lemma rmatch_extent r : forall k st res,
  rmatch r k st = Some res ->
  exists st', extent st' = extent st /\ k st' = Some res.
Proof.
  induction r as [|cs|r1 IH1 r2 IH2|r1 IH1 r2 IH2|greedy r IH|i r IH| |];
    intros k st res H.
  - eauto.
  - rewrite rmatch_chr in H. unfold chrStep in H.
    destruct st as [pos [|c rest] caps]; cbn [ms_rest ms_pos ms_caps] in H; [done|].
    destruct (charSetMem cs c); [|done]. eexists. split; [|exact H].
    unfold extent. cbn. lia.
  - rewrite rmatch_seq in H. apply IH1 in H as (st1 & H1 & H).
    apply IH2 in H as (st2 & H2 & H). exists st2. split; [congruence|done].
  - rewrite rmatch_alt in H. unfold orElse in H.
    destruct (rmatch r1 k st) eqn:E; [simplify_eq; by apply IH1|by apply IH2].
  - eapply starLoop_extent; [|exact H]. intros k' st0 H0. by apply IH.
  - rewrite rmatch_group in H. apply IH in H as (st' & H1 & H).
    eexists. split; [|exact H]. exact H1.
  - rewrite rmatch_bol in H. destruct (ms_pos st =? 0)%nat; [eauto|done].
  - rewrite rmatch_eol in H. destruct (ms_rest st) eqn:E; [eauto|done].
Qed.

Lemma rmatch_end r pos rest caps st :
  rmatch r Some (MState pos rest caps) = Some st ->
  (ms_pos st <= pos + length rest)%nat.
Proof.
  intros H. apply rmatch_extent in H as (st' & Hext & [= ->]).
  unfold extent in Hext. cbn in Hext. lia.
Qed.

Lemma matchAt_text_length r pos rest st :
  rmatch r Some (MState pos rest ∅) = Some st ->
  length (take (ms_pos st - pos) rest) = (ms_pos st - pos)%nat.
Proof.
  intros H. apply rmatch_end in H. rewrite length_take. lia.
Qed.

(** ** Markdown links *)

Lemma plus_lazy_target (kU : mstate -> option mstate)
    (kf : nat -> jsstring -> gmap nat jsstring -> option mstate) :
  (forall p c r cp,
      kU (MState p (c :: r) cp) = if c =? ch ")" then kf p r cp else None) ->
  (forall p cp, kU (MState p [] cp) = None) ->
  (forall p r cp, is_Some (kf p r cp)) ->
  forall pos s caps,
    rmatch (Plus false (Chr Dot)) kU (MState pos s caps)
    = match linkTarget s with
      | Some (target, tail) => kf (pos + length target)%nat tail caps
      | None => None
      end.
Proof.
  intros HkU Hnil Hkf pos s caps. rewrite rmatch_plus_chr. unfold chrStep.
  cbn [ms_rest ms_pos ms_caps]. destruct s as [|c s]; [done|].
  cbn [linkTarget charSetMem]. destruct (isLineTerminator c); [done|]. cbn [negb].
  rewrite (starSet_lazy_skip Dot kU inTarget).
  - destruct (dropWhile inTarget s) as [|c' tail] eqn:E; cbn [starSet].
    + by rewrite Hnil.
    + rewrite HkU. pose proof (dropWhile_head _ _ _ _ E) as Hc'.
      destruct (N.eqb_spec c' (ch ")")) as [->|Hne].
      * cbn [charSetMem]. cbn [length].
        replace (pos + S (length (takeWhile inTarget s)))%nat
          with (S pos + length (takeWhile inTarget s))%nat by lia.
        destruct (Hkf (S pos + length (takeWhile inTarget s))%nat tail caps)
          as [x ->]. done.
      * unfold inTarget in Hc'. apply andb_false_iff in Hc' as [Hc'|Hc'].
        -- cbn [charSetMem]. by rewrite Hc'.
        -- apply negb_false_iff, N.eqb_eq in Hc'. done.
  - intros c0 Hc0. unfold inTarget in Hc0. by apply andb_true_iff in Hc0 as [? _].
  - intros p c0 r cp Hc0. rewrite HkU. unfold inTarget in Hc0.
    apply andb_true_iff in Hc0 as [_ Hc0]. apply negb_true_iff in Hc0.
    by rewrite Hc0.
Qed.

Lemma mem_notCloseBracket c :
  charSetMem (NotClass [CChar (ch "]")]) c = notCloseBracket c.
Proof. cbn. unfold notCloseBracket. by rewrite orb_false_r. Qed.

Lemma lazy_label (K K' : mstate -> option mstate) :
  (forall p c r cp,
      K (MState p (c :: r) cp) = if c =? ch "]" then K' (MState (S p) r cp) else None) ->
  (forall p cp, K (MState p [] cp) = None) ->
  forall pos s caps,
    rmatch (Group 1 (Plus false (Chr (NotClass [CChar (ch "]")])))) K
      (MState pos s caps)
    = match bracketLabel s with
      | Some (label, rest) =>
          K' (MState (pos + length label + 1) rest (<[1%nat := label]> caps))
      | None => None
      end.
Proof.
  intros HK Hnil pos s caps. rewrite rmatch_group, rmatch_plus_chr. unfold chrStep.
  cbn [ms_rest ms_pos ms_caps]. destruct s as [|c1 s]; [done|].
  rewrite mem_notCloseBracket. unfold bracketLabel. cbn [takeWhile dropWhile].
  destruct (notCloseBracket c1) eqn:Hc1; [|done].
  rewrite (starSet_run_p _ _ notCloseBracket); [|apply mem_notCloseBracket|].
  - cbn [ms_pos ms_rest ms_caps].
    destruct (dropWhile notCloseBracket s) as [|rb rest] eqn:E; [by rewrite Hnil|].
    rewrite HK. pose proof (dropWhile_head _ _ _ _ E) as Hrb.
    unfold notCloseBracket in Hrb. apply negb_false_iff in Hrb. rewrite Hrb.
    cbn [length].
    replace (S pos + length (takeWhile notCloseBracket s) - pos)%nat
      with (S (length (takeWhile notCloseBracket s))) by lia.
    cbn [take]. rewrite take_length_takeWhile.
    replace (S (S pos + length (takeWhile notCloseBracket s)))
      with (pos + S (length (takeWhile notCloseBracket s)) + 1)%nat by lia.
    done.
  - intros p c r cp Hc. cbn [ms_pos ms_rest ms_caps]. rewrite HK.
    unfold notCloseBracket in Hc. apply negb_true_iff in Hc. by rewrite Hc.
Qed.

Lemma mdLinkRegex_eq : mdLinkRegex = Seq (Opt (lit "!")) labelledBodyRe.
Proof. reflexivity. Qed.

Lemma emptyMdLinkRegex_eq : emptyMdLinkRegex = Seq (Opt (lit "!")) emptyLabelBodyRe.
Proof. reflexivity. Qed.

Lemma labelledBody_summary pos s caps :
  summary <$> rmatch labelledBodyRe Some (MState pos s caps)
  = (fun '(label, n) => ((pos + n)%nat, <[1%nat := label]> caps)) <$> labelledBody s.
Proof.
  unfold labelledBodyRe, lit. rewrite rmatch_seq, rmatch_chr. unfold chrStep.
  cbn [ms_rest ms_pos ms_caps]. destruct s as [|lb s1]; [done|].
  cbn [labelledBody]. rewrite mem_lit. destruct (lb =? ch "["); [|done].
  rewrite rmatch_seq.
  rewrite (lazy_label _
             (rmatch (Chr (Lit (ch "(")) · Plus false (Chr Dot) · Chr (Lit (ch ")")))%re Some));
    [|reflexivity|reflexivity].
  destruct (bracketLabel s1) as [[label s2]|]; [|done].
  rewrite rmatch_seq, rmatch_chr. unfold chrStep. cbn [ms_rest ms_pos ms_caps].
  destruct s2 as [|lp s2]; [done|].
  rewrite mem_lit. destruct (lp =? ch "("); [|done].
  rewrite rmatch_seq.
  rewrite (plus_lazy_target _ (fun p r cp => Some (MState (S p) r cp)));
    [|reflexivity|reflexivity|by eauto].
  destruct (linkTarget s2) as [[target tail]|]; [|done].
  cbn. unfold summary. cbn. do 2 f_equal. lia.
Qed.

Lemma linkTarget_take s target tail :
  linkTarget s = Some (target, tail) -> take (length target) s = target.
Proof.
  destruct s as [|c s]; [done|]. cbn [linkTarget].
  destruct (isLineTerminator c); [done|].
  destruct (dropWhile inTarget s) as [|c' t]; [done|].
  destruct (c' =? ch ")"); [|done]. intros [= <- _].
  cbn [length take]. by rewrite take_length_takeWhile.
Qed.

Lemma emptyLabelBody_summary pos s caps :
  summary <$> rmatch emptyLabelBodyRe Some (MState pos s caps)
  = (fun '(target, n) => ((pos + n)%nat, <[1%nat := target]> caps))
      <$> emptyLabelBody s.
Proof.
  unfold emptyLabelBodyRe, lit.
  destruct s as [|lb [|rb [|lp s2]]]; cbn [emptyLabelBody]; step_chr.
  - done.
  - by destruct (lb =? ch "[").
  - by destruct (lb =? ch "["), (rb =? ch "]").
  - destruct (lb =? ch "["); [|done]. destruct (rb =? ch "]"); [|done].
    destruct (lp =? ch "("); [|done]. cbn [andb].
    rewrite rmatch_group.
    rewrite (plus_lazy_target _
               (fun p r cp =>
                  Some (MState (S p) r
                          (<[1%nat := take (p - S (S (S pos))) s2]> cp))));
      [|reflexivity|reflexivity|by eauto].
    destruct (linkTarget s2) as [[target tail]|] eqn:E; [|done].
    cbn. unfold summary. cbn.
    replace (pos + length target - pos)%nat with (length target) by lia.
    rewrite (linkTarget_take _ _ _ E). do 2 f_equal. lia.
Qed.

Lemma optBang_summary body (parse : jsstring -> option (jsstring * nat)) :
  (forall pos s caps,
      summary <$> rmatch body Some (MState pos s caps)
      = (fun '(t, n) => ((pos + n)%nat, <[1%nat := t]> caps)) <$> parse s) ->
  (forall s, parse (ch "!" :: s) = None) ->
  forall pos s caps,
    summary <$> rmatch (Seq (Opt (lit "!")) body) Some (MState pos s caps)
    = (fun '(t, n) => ((pos + n)%nat, <[1%nat := t]> caps)) <$> withBang parse s.
Proof.
  intros Hbody Hbang pos s caps. unfold Opt, lit.
  rewrite rmatch_seq, rmatch_alt, rmatch_chr. unfold chrStep.
  cbn [ms_rest ms_pos ms_caps rmatch]. unfold withBang.
  destruct s as [|c s]; [apply Hbody|]. rewrite mem_lit.
  destruct (N.eqb_spec c (ch "!")) as [->|].
  - assert (rmatch body Some (MState pos (ch "!" :: s) caps) = None) as ->.
    { specialize (Hbody pos (ch "!" :: s) caps). rewrite Hbang in Hbody.
      by destruct (rmatch body Some _). }
    rewrite orElse_None_r, Hbody. destruct (parse s) as [[t n]|]; [|done].
    cbn. do 2 f_equal. lia.
  - apply Hbody.
Qed.

Lemma matchAt_link r (parse : jsstring -> option (jsstring * nat)) :
  (forall pos s caps,
      summary <$> rmatch r Some (MState pos s caps)
      = (fun '(t, n) => ((pos + n)%nat, <[1%nat := t]> caps)) <$> parse s) ->
  forall pos rest,
    (fun m => (expand [RGroup 1] m, length (m_text m))) <$> matchAt r pos rest
    = parse rest.
Proof.
  intros Hr pos rest. unfold matchAt. specialize (Hr pos rest ∅).
  destruct (rmatch r Some (MState pos rest ∅)) as [st|] eqn:E;
    destruct (parse rest) as [[t n]|]; try done.
  cbn in Hr. injection Hr as Hpos Hcaps. cbn [fmap option_fmap option_map].
  f_equal. unfold expand. cbn [flat_map group m_caps m_text].
  rewrite (matchAt_text_length _ _ _ _ E), Hcaps, Hpos, lookup_insert_eq.
  cbn. rewrite app_nil_r. f_equal. lia.
Qed.

(** The two global replacements of [titleFromBody] collapse the links
    from left to right. *)
Lemma replaceAll_mdLinkRegex s :
  replaceAll mdLinkRegex [RGroup 1] s = substitute labelledLink 0 s.
Proof.
  apply replaceAll_substitute, matchAt_link. rewrite mdLinkRegex_eq.
  apply optBang_summary; [apply labelledBody_summary|reflexivity].
Qed.

Lemma replaceAll_emptyMdLinkRegex s :
  replaceAll emptyMdLinkRegex [RGroup 1] s = substitute emptyLabelLink 0 s.
Proof.
  apply replaceAll_substitute, matchAt_link. rewrite emptyMdLinkRegex_eq.
  apply optBang_summary; [apply emptyLabelBody_summary|by intros [|? [|? ?]]].
Qed.

(** ** Titles *)

Lemma split_first sep s :
  split sep s !! 0%nat = Some (takeWhile (fun c => negb (c =? sep)) s).
Proof.
  induction s as [|c s IH]; cbn [split takeWhile]; [done|].
  destruct (c =? sep); cbn [negb]; [done|].
  destruct (split sep s) as [|l ls]; [done|]. cbn in IH. injection IH as ->. done.
Qed.

Lemma starSet_greedy_total_p cs (p : N -> bool) k :
  (forall c, charSetMem cs c = p c) ->
  (forall st, is_Some (k st)) ->
  forall rest pos caps,
    starSet true cs k pos rest caps
    = k (MState (pos + length (takeWhile p rest)) (dropWhile p rest) caps).
Proof.
  intros Hp Hk rest pos caps. rewrite starSet_greedy_total by done.
  by rewrite (takeWhile_ext _ p), (dropWhile_ext _ p).
Qed.

Lemma mem_marker c :
  charSetMem (Class [CChar (ch "#"); CChar (ch " "); CChar LF; CChar TAB;
                     CChar (ch "*"); CChar (ch "`"); CChar (ch "-")]) c
  = isMarker c.
Proof. cbn. unfold isMarker. by rewrite orb_false_r, !orb_assoc. Qed.

(** The first replacement of [titleFromBody] strips the leading markers. *)
Lemma replaceFirst_filterRegex s :
  replaceFirst filterRegex [] s = stripMarkers s.
Proof.
  unfold replaceFirst, filterRegex. rewrite exec_bol. unfold matchAt.
  rewrite rmatch_seq, rmatch_bol. cbn [ms_pos Nat.eqb].
  rewrite rmatch_star_chr. cbn [ms_pos ms_rest ms_caps].
  rewrite (starSet_greedy_total_p _ isMarker); [|apply mem_marker|by eauto].
  cbn [ms_pos m_index m_text take app expand flat_map].
  rewrite Nat.sub_0_r, !Nat.add_0_l, take_length_takeWhile.
  apply drop_length_takeWhile.
Qed.

(** Claim C3: for a body that is not empty, [titleFromBody] trims the
    body, takes its first line, trims it, strips the leading markers,
    replaces every link with a label by its label, then every link with
    an empty label by its target, and keeps at most 80 characters; the
    body [# Hello [world](http://x)] followed by a second line gives
    [Hello world]. *)
Theorem titleFromBody_spec (c : N) (body : jsstring) :
  titleFromBody (Some (c :: body)) = Return (titleSpec (c :: body))
  /\ (length (titleSpec (c :: body)) <= 80)%nat
  /\ titleFromBody (Some (js "# Hello [world](http://x)" ++ [LF] ++ js "more text"))
     = Return (js "Hello world").
Proof.
  split; [|split; [|reflexivity]].
  - unfold titleFromBody. rewrite split_first. cbn [invoke bind].
    rewrite replaceFirst_filterRegex, replaceAll_mdLinkRegex,
      replaceAll_emptyMdLinkRegex. reflexivity.
  - unfold titleSpec. rewrite length_take. lia.
Qed.

(** ** Tables *)

Lemma forLoop_lookup {A St} (l : list A) (step : St -> A -> St)
    (body : nat -> St -> outcome St) :
  (forall j x s, l !! j = Some x -> body j s = Return (step s x)) ->
  forall n i s, (i + n = length l)%nat ->
    forLoop n i body s = Return (foldl step s (drop i l)).
Proof.
  intros Hbody. induction n as [|n IH]; intros i s Hn; cbn [forLoop].
  - by rewrite drop_ge by lia.
  - destruct (l !! i) as [x|] eqn:E.
    + rewrite (Hbody _ _ _ E). cbn [bind]. rewrite IH by lia.
      by rewrite (drop_S _ _ _ E).
    + apply lookup_ge_None in E. lia.
Qed.

Lemma forLoop_all {A St} (l : list A) (step : St -> A -> St)
    (body : nat -> St -> outcome St) s :
  (forall j x s, l !! j = Some x -> body j s = Return (step s x)) ->
  forLoop (length l) 0 body s = Return (foldl step s l).
Proof. intros H. by rewrite (forLoop_lookup l step). Qed.

Lemma foldl_push {A B} (f : A -> B) (l : list A) : forall acc,
  foldl (fun acc x => acc ++ [f x]) acc l = acc ++ map f l.
Proof.
  induction l as [|x l IH]; intros acc; cbn [foldl map].
  - by rewrite app_nil_r.
  - by rewrite IH, <- app_assoc.
Qed.

Lemma foldl_push2 {A B C} (f : A -> B) (g : A -> C) (l : list A) : forall a b,
  foldl (fun '(a, b) x => (a ++ [f x], b ++ [g x])) (a, b) l
  = (a ++ map f l, b ++ map g l).
Proof.
  induction l as [|x l IH]; intros a b; cbn [foldl map].
  - by rewrite !app_nil_r.
  - by rewrite IH, <- !app_assoc.
Qed.


(** A row read by a name it does not own gives a member of
    [Object.prototype] when there is one of that name. *)
Example readRow_examples :
  readRow sampleRow (js "a") = RString (js "x")
  /\ readRow sampleRow (js "b") = RUndefined
  /\ readRow sampleRow (js "constructor") = RMember (js "constructor")
  /\ readRow {[ js "constructor" := js "y" ]} (js "constructor") = RString (js "y").
Proof. repeat split; reflexivity. Qed.

Section CreateMarkdownTableFacts.
Variable stringPaddingOther : rowValue -> outcome jsstring.

(** The cell of an inherited member: escaping raises, and without
    escaping the cell is what [string-padding] makes of the member. *)
Example createMarkdownTable_member :
  createMarkdownTable stringPaddingOther [memberHeader] [∅] = Throw_TypeError
  /\ createMarkdownTable stringPaddingOther
       [ {| h_name := js "constructor"; h_label := js "C"; h_filter := None;
            h_disableEscape := Some true; h_justify := None |} ] [∅]
     = bind (stringPaddingOther (RMember (js "constructor")))
         (fun cell =>
            Return (js "| C     |" ++ [LF] ++ js "| ----- |" ++ [LF]
                    ++ js "| " ++ cell ++ js " |")).
Proof.
  split; [reflexivity|]. vm_compute.
  by destruct (stringPaddingOther _).
Qed.


End CreateMarkdownTableFacts.



(** ** Extraction of URLs *)

Section ExtractFileUrlsFacts.
Variable parse : bool -> jsstring -> list token.
Variable imageRegex anchorRegex : regex.

Lemma extractFileUrls_withDetailed (fuel : nat) (md : jsstring)
    (o : option ExtractFileUrlsOptions) (st : regexState) :
  extractFileUrls parse imageRegex anchorRegex fuel md (withDetailed false o) st
  = bind (extractFileUrls parse imageRegex anchorRegex fuel md
            (withDetailed true o) st)
      (fun '(r, st') => Return (urlsOf r, st')).
Proof.
  unfold extractFileUrls, withDetailed, withDefaults.
  cbn [includeImages includeAnchors detailedResults html default].
  destruct (searchUrls _ _ _ _ _ _ _) as [[output st']| |]; reflexivity.
Qed.

(** Claim C7: whatever the source and the other options, the result
    without [detailedResults] is the result with it, every record
    replaced by its url, in the same order and with the same duplicates
    (and the call raises or runs out of fuel exactly when the other
    does). *)
Theorem extractFileUrls_urls (fuel : nat) (md : jsstring)
    (o : option ExtractFileUrlsOptions) (st : regexState) :
  extractFileUrls parse imageRegex anchorRegex fuel md (withDetailed false o) st
  = bind (extractFileUrls parse imageRegex anchorRegex fuel md
            (withDetailed true o) st)
      (fun '(r, st') => Return (urlsOf r, st')).
Proof.
  unfold extractFileUrls, withDetailed, withDefaults.
  cbn [includeImages includeAnchors detailedResults html default].
  set (walk := searchUrls _ _ _ _ _ _ _).
  destruct walk as [[output st']| |]; cbn [bind].
  - reflexivity.
  - reflexivity.
  - reflexivity.
Qed.

(** A search finds its match at or after the position it starts from,
    and within the input. *)
Lemma search_bounds r : forall rest pos m,
  search r pos rest = Some m ->
  (pos <= m_index m /\ m_index m + length (m_text m) <= pos + length rest)%nat.
Proof.
  induction rest as [|c rest IH]; intros pos m; cbn [search]; unfold matchAt;
    destruct (rmatch r Some _) as [st|] eqn:E.
  - intros [= <-]. cbn [m_index m_text]. rewrite length_take. cbn [length]. lia.
  - done.
  - intros [= <-]. cbn [m_index m_text]. rewrite length_take. cbn [length]. lia.
  - intros H. apply IH in H. cbn [length]. lia.
Qed.

(** With a pattern that never matches the empty string the [while] loop
    ends: a fuel above the number of characters left is enough. *)
Lemma execLoop_returns r content :
  (forall i m, search (patternOf imageRegex anchorRegex r) i (drop i content) = Some m ->
               (0 < length (m_text m))%nat) ->
  forall fuel out st,
    (length content + 1 - lastIndex st r < fuel)%nat ->
    exists out',
      execLoop imageRegex anchorRegex fuel r content (out, st)
      = Return (out', setLastIndex st r 0).
Proof.
  intros Hr. induction fuel as [|fuel IH]; intros out st Hfuel; [lia|].
  cbn [execLoop]. unfold execGlobal.
  destruct (Nat.ltb_spec (length content) (lastIndex st r)) as [Hi|Hi]; [eauto|].
  destruct (search _ _ _) as [m|] eqn:E; [|eauto].
  pose proof (Hr _ _ E) as Hm. apply search_bounds in E. rewrite length_drop in E.
  edestruct (IH (out ++ [{| url := group m 2;
                           type := match r with
                                   | ImageRegex => Image
                                   | AnchorRegex => Anchor
                                   end |}])
               (setLastIndex st r (m_index m + length (m_text m))))
    as [out' Hout].
  - destruct r, st; cbn in *; lia.
  - exists out'. rewrite Hout. by destruct r, st.
Qed.

(** A [while] loop that ends leaves its pattern with [lastIndex] 0 and
    the other pattern as it was. *)
Lemma execLoop_lastIndex r content : forall fuel out st out' st',
  execLoop imageRegex anchorRegex fuel r content (out, st) = Return (out', st') ->
  st' = setLastIndex st r 0.
Proof.
  induction fuel as [|fuel IH]; intros out st out' st' H; [done|].
  cbn [execLoop] in H. unfold execGlobal in H.
  destruct (length content <? lastIndex st r)%nat.
  - by injection H as _ <-.
  - destruct (search _ _ _) as [m|].
    + apply IH in H. rewrite H. by destruct r, st.
    + by injection H as _ <-.
Qed.

Lemma visit_zero fuel ii ia ty attrs content out finished out' st' :
  visit imageRegex anchorRegex fuel ii ia ty attrs content (out, zeroState)
  = Return (finished, (out', st')) ->
  st' = zeroState.
Proof.
  unfold visit. cbn [fst snd].
  destruct (bool_decide (ty = js "image") || bool_decide (ty = js "link_open")).
  - destruct (_ && negb ii); [by intros [= _ _ <-]|].
    destruct (_ && negb ia); [by intros [= _ _ <-]|].
    destruct attrs as [attrs|]; [|done].
    destruct (forLoop _ _ _ _); cbn [bind]; [|done|done].
    by intros [= _ _ <-].
  - destruct (bool_decide (ty = js "html_block")
              || bool_decide (ty = js "html_inline")); [|by intros [= _ _ <-]].
    cbn [foldl bind].
    destruct (negb ii).
    + destruct (negb ia); cbn [bind]; [by intros [= _ _ <-]|].
      destruct (execLoop _ _ _ _ _ _) as [[o1 s1]| |] eqn:E1; cbn [bind]; [|done|done].
      intros [= _ _ <-]. by apply execLoop_lastIndex in E1.
    + destruct (execLoop _ _ _ _ _ _) as [[o1 s1]| |] eqn:E1; cbn [bind]; [|done|done].
      apply execLoop_lastIndex in E1. cbn in E1. subst s1.
      destruct (negb ia); cbn [bind]; [by intros [= _ _ <-]|].
      destruct (execLoop _ _ _ _ _ _) as [[o2 s2]| |] eqn:E2; cbn [bind]; [|done|done].
      intros [= _ _ <-]. by apply execLoop_lastIndex in E2.
Qed.

(** Induction on a token and the tokens below it *)
Lemma token_induction (P : token -> Prop) :
  (forall ty attrs content children,
      match children with Some l => Forall P l | None => True end ->
      P (Token ty attrs content children)) ->
  forall t, P t.
Proof.
  intros HToken. fix IH 1. intros [ty attrs content children]. apply HToken.
  destruct children as [l|]; [|exact I].
  induction l as [|t l IHl]; constructor; [apply IH|apply IHl].
Qed.

Lemma searchUrls_zero_list fuel ii ia (tokens : list token) :
  Forall (fun t => forall out out' st',
            searchUrlsToken imageRegex anchorRegex fuel ii ia t (out, zeroState)
            = Return (out', st') -> st' = zeroState) tokens ->
  forall out out' st',
    searchUrls imageRegex anchorRegex fuel ii ia tokens (out, zeroState)
    = Return (out', st') -> st' = zeroState.
Proof.
  induction 1 as [|t tokens Ht _ IH]; intros out out' st' H; cbn [searchUrls] in H.
  - by injection H as _ <-.
  - destruct (searchUrlsToken _ _ _ _ _ _ _) as [[o1 s1]| |] eqn:E;
      cbn [bind] in H; [|done|done].
    apply Ht in E. subst s1. by apply IH in H.
Qed.

Lemma searchUrlsToken_unfold fuel ii ia ty attrs content children w :
  searchUrlsToken imageRegex anchorRegex fuel ii ia
    (Token ty attrs content children) w
  = bind (visit imageRegex anchorRegex fuel ii ia ty attrs content w)
      (fun '(finished, w) =>
         if finished then
           match children with
           | Some ((_ :: _) as children) =>
               searchUrls imageRegex anchorRegex fuel ii ia children w
           | _ => Return w
           end
         else Return w).
Proof.
  cbn [searchUrlsToken]. destruct (visit _ _ _ _ _ _ _ _ _) as [[finished w']| |];
    cbn [bind]; [|done|done].
  destruct finished; [|done]. destruct children as [[|t l]|]; [done| |done].
  cbn [searchUrls].
  destruct (searchUrlsToken _ _ _ _ _ t w') as [w1| |]; cbn [bind]; [|done|done].
  revert w1. induction l as [|t0 l IH]; intros w1; cbn [searchUrls]; [done|].
  destruct (searchUrlsToken _ _ _ _ _ t0 w1); cbn [bind]; [apply IH|done|done].
Qed.

Lemma searchUrlsToken_zero fuel ii ia (t : token) : forall out out' st',
  searchUrlsToken imageRegex anchorRegex fuel ii ia t (out, zeroState)
  = Return (out', st') -> st' = zeroState.
Proof.
  induction t as [ty attrs content children IH] using token_induction.
  intros out out' st'. rewrite searchUrlsToken_unfold.
  destruct (visit _ _ _ _ _ _ _ _ _) as [[finished [o1 s1]]| |] eqn:E;
    cbn [bind]; [|done|done].
  apply visit_zero in E. subst s1.
  destruct finished; [|by intros [= _ <-]].
  destruct children as [[|t l]|]; [by intros [= _ <-]| |by intros [= _ <-]].
  by apply searchUrls_zero_list.
Qed.

(** A call that returns leaves both patterns ready for the next call. *)
Lemma extractFileUrls_zero fuel md o r st' :
  extractFileUrls parse imageRegex anchorRegex fuel md o zeroState
  = Return (r, st') -> st' = zeroState.
Proof.
  unfold extractFileUrls. destruct (withDefaults o) as [[[ia ii] detailed] h].
  destruct (searchUrls _ _ _ _ _ _ _) as [[output s1]| |] eqn:E;
    cbn [bind]; [|done|done].
  apply searchUrls_zero_list in E.
  - subst s1. by destruct detailed; intros [= _ <-].
  - apply Forall_forall. intros t _. apply searchUrlsToken_zero.
Qed.

(** Two calls in a row, as a caller makes them: the second starts where
    the first left the patterns. *)
Lemma extractFileUrls_twice fuel md o r st' :
  extractFileUrls parse imageRegex anchorRegex fuel md (withDetailed true o)
    zeroState = Return (r, st') ->
  extractFileUrls parse imageRegex anchorRegex fuel md (withDetailed false o) st'
  = Return (urlsOf r, zeroState).
Proof.
  intros H. pose proof (extractFileUrls_zero _ _ _ _ _ H) as ->.
  by rewrite extractFileUrls_withDetailed, H.
Qed.
End ExtractFileUrlsFacts.

(** The walk on the sample tokens: the image of a paragraph, found among
    the children of the inline token; and an HTML block, scanned for
    images first and anchors next, which takes three turns of the first
    loop. *)
Example extractFileUrls_image :
  extractFileUrls (fun _ _ => imageTokens) sampleImageRegex sampleAnchorRegex 1
    (js "![alt](image.png)")
    (Some {| includeImages := None; includeAnchors := Some false;
             detailedResults := None; html := None |}) zeroState
  = Return (Urls [Some (js "image.png")], zeroState)
  /\ extractFileUrls (fun _ _ => imageTokens) sampleImageRegex sampleAnchorRegex 1
       (js "![alt](image.png)")
       (Some {| includeImages := Some false; includeAnchors := None;
                detailedResults := None; html := None |}) zeroState
     = Return (Urls [], zeroState).
Proof. split; reflexivity. Qed.

Example extractFileUrls_html :
  extractFileUrls (fun _ _ => htmlTokens) sampleImageRegex sampleAnchorRegex 3 []
    (withDetailed true None) zeroState
  = Return (Detailed [ {| url := Some (js "a.png"); type := Image |};
                       {| url := Some (js "b.png"); type := Image |};
                       {| url := Some (js "x"); type := Anchor |} ], zeroState)
  /\ extractFileUrls (fun _ _ => htmlTokens) sampleImageRegex sampleAnchorRegex 2 []
       (withDetailed true None) zeroState
     = OutOfFuel.
Proof. split; reflexivity. Qed.

(** ** List items and their ordinal *)

Lemma listRegex_eq :
  listRegex = Seq Bol (Seq (Group 1 (Star true (Chr (Class [CSpace])))) listItemRe).
Proof. reflexivity. Qed.

Lemma fmap_orElse {A B} (f : A -> B) (a b : option A) :
  f <$> orElse a b = orElse (f <$> a) (f <$> b).
Proof. by destruct a. Qed.

Lemma fmap_if_None {A B} (f : A -> B) (c : bool) (o : option A) :
  f <$> (if c then o else None) = if c then f <$> o else None.
Proof. by destruct c. Qed.

Lemma trailingSpace_group3 pos rest caps :
  group3 <$> rmatch trailingSpaceRe Some (MState pos rest caps) = Some (caps !! 3%nat).
Proof.
  unfold trailingSpaceRe, space. rewrite rmatch_group, rmatch_star_chr.
  cbn [ms_pos ms_rest ms_caps].
  rewrite (starSet_greedy_total_p _ isWhiteSpace); [|apply mem_space|by eauto].
  cbn. unfold group3. cbn. by rewrite lookup_insert_ne.
Qed.

Lemma afterToken_group3 start s st :
  group3 <$> afterToken start s st = Some (ms_caps st !! 3%nat).
Proof.
  unfold afterToken. rewrite trailingSpace_group3. by rewrite lookup_insert_ne.
Qed.

Ltac step_g3 :=
  repeat (rewrite ?rmatch_seq, ?rmatch_chr; unfold chrStep;
          cbn [ms_rest ms_pos ms_caps];
          rewrite ?fmap_if_None, ?mem_bullet, ?mem_checkMark, ?mem_dotOrParen,
            ?mem_space, ?mem_digit, ?mem_lit).

Lemma checkItem_group3 start s0 n s caps :
  group3 <$> rmatch (bullet · lit " " · lit "[" · checkMark · lit "]" · space)%re
               (afterToken start s0) (MState n s caps)
  = match s with
    | b :: sp :: lb :: x :: rb :: w :: _ =>
        if isBulletChar b && ((sp =? ch " ") && ((lb =? ch "[") && (isCheckMark x
           && ((rb =? ch "]") && isWhiteSpace w))))
        then Some (caps !! 3%nat) else None
    | _ => None
    end.
Proof.
  unfold bullet, lit, checkMark, space.
  destruct s as [|b [|sp [|lb [|x [|rb [|w r']]]]]]; step_g3;
    rewrite ?afterToken_group3; cbn [ms_caps];
    repeat match goal with
           | |- context [if ?c then _ else _] => destruct c; cbn [andb]
           end; done.
Qed.

Lemma bulletItem_group3 start s0 n s caps :
  group3 <$> rmatch (bullet · space)%re (afterToken start s0) (MState n s caps)
  = match s with
    | b :: w :: _ =>
        if isBulletChar b && isWhiteSpace w then Some (caps !! 3%nat) else None
    | _ => None
    end.
Proof.
  unfold bullet, space.
  destruct s as [|b [|w r']]; step_g3;
    rewrite ?afterToken_group3; cbn [ms_caps];
    repeat match goal with
           | |- context [if ?c then _ else _] => destruct c; cbn [andb]
           end; done.
Qed.

Lemma ordinalItem_group3 start s0 n s caps :
  group3 <$> rmatch (Group 3 (Plus true digit) · Group 4 (dotOrParen · space))%re
               (afterToken start s0) (MState n s caps)
  = match s with
    | b :: r =>
        if isDigit b then
          match dropWhile isDigit r with
          | p :: w :: _ =>
              if isDotOrParen p && isWhiteSpace w
              then Some (Some (b :: takeWhile isDigit r))
              else None
          | _ => None
          end
        else None
    | [] => None
    end.
Proof.
  unfold digit, dotOrParen, space.
  rewrite rmatch_seq, rmatch_group, rmatch_plus_chr. unfold chrStep.
  cbn [ms_rest ms_pos ms_caps]. destruct s as [|b r]; [done|].
  rewrite mem_digit. destruct (isDigit b); [|done].
  rewrite (starSet_run_p _ _ isDigit); [|apply mem_digit|].
  - cbn [ms_rest ms_pos ms_caps]. rewrite rmatch_group.
    replace (S n + length (takeWhile isDigit r) - n)%nat
      with (S (length (takeWhile isDigit r))) by lia.
    cbn [take]. rewrite take_length_takeWhile.
    destruct (dropWhile isDigit r) as [|p [|w r']]; step_g3; try done.
    + by destruct (isDotOrParen p).
    + rewrite afterToken_group3. cbn [ms_caps].
      rewrite lookup_insert_ne, lookup_insert_eq by done.
      by destruct (isDotOrParen p), (isWhiteSpace w).
  - intros pos c r0 cp Hc. cbn [ms_rest ms_pos ms_caps].
    rewrite rmatch_group. step_g3. by rewrite (digit_not_dotOrParen c Hc).
Qed.

Lemma listItem_group3 n s caps :
  group3 <$> rmatch listItemRe Some (MState n s caps)
  = ordinalFrom (caps !! 3%nat) s.
Proof.
  unfold listItemRe.
  rewrite rmatch_seq, rmatch_group, !rmatch_alt, !fmap_orElse.
  change (fun st' : mstate =>
            rmatch trailingSpaceRe Some
              (MState (ms_pos st') (ms_rest st')
                 (<[2%nat := take (ms_pos st' - ms_pos (MState n s caps))
                               (ms_rest (MState n s caps))]> (ms_caps st'))))
    with (afterToken n s).
  rewrite checkItem_group3, bulletItem_group3, ordinalItem_group3.
  unfold ordinalFrom. destruct s as [|b r]; [done|].
  destruct (isBulletChar b) eqn:Hb.
  - rewrite (bullet_not_digit b Hb). cbn [andb].
    destruct r as [|w r]; [done|]. destruct (isWhiteSpace w) eqn:Hw.
    + rewrite orElse_None_r.
      by destruct r as [|lb [|x [|rb [|w2 r]]]];
        repeat match goal with
               | |- context [if ?c then _ else _] => destruct c
               end.
    + rewrite orElse_None_r.
      destruct r as [|lb [|x [|rb [|w2 r]]]]; try done.
      destruct (N.eqb_spec w (ch " ")) as [->|]; [done|]. done.
  - cbn [andb]. by destruct r as [|sp [|lb [|x [|rb [|w2 r]]]]].
Qed.

Lemma listItem_space_head n c r caps :
  isWhiteSpace c = true -> rmatch listItemRe Some (MState n (c :: r) caps) = None.
Proof.
  intros Hc. pose proof (listItem_group3 n (c :: r) caps) as H.
  cbn [ordinalFrom] in H.
  rewrite (space_not_bulletChar c Hc), (space_not_digit c Hc) in H.
  by destruct (rmatch listItemRe Some _).
Qed.

(** [olLineNumber] without the regular expression *)
Lemma olLineNumber_direct (line : jsstring) :
  olLineNumber line
  = match listItemOrdinal line with
    | Some digits => Number digits
    | None => Num 0
    end.
Proof.
  unfold olLineNumber, listItemOrdinal, ordinalAfter.
  rewrite listRegex_eq, exec_bol.
  unfold matchAt. rewrite rmatch_seq, rmatch_bol. cbn [ms_pos Nat.eqb].
  rewrite rmatch_seq, rmatch_group, rmatch_star_chr. cbn [ms_pos ms_rest ms_caps].
  rewrite (starSet_run_p _ _ isWhiteSpace); [|apply mem_space|].
  - cbn [ms_pos ms_rest ms_caps].
    pose proof (listItem_group3 (0 + length (takeWhile isWhiteSpace line))
                  (dropWhile isWhiteSpace line)
                  (<[1%nat := take (0 + length (takeWhile isWhiteSpace line) - 0) line]> ∅))
      as H.
    rewrite lookup_insert_ne in H by done. rewrite lookup_empty in H.
    rewrite <- H. by destruct (rmatch listItemRe Some _).
  - intros pos c r cp Hc. cbn [ms_pos ms_rest ms_caps].
    by apply listItem_space_head.
Qed.

Lemma isListItem_direct (line : jsstring) :
  isListItem line = someb (listItemOrdinal line).
Proof.
  unfold isListItem, listItemOrdinal, ordinalAfter.
  rewrite test_someb, listRegex_eq, exec_bol.
  unfold matchAt. rewrite rmatch_seq, rmatch_bol. cbn [ms_pos Nat.eqb].
  rewrite rmatch_seq, rmatch_group, rmatch_star_chr. cbn [ms_pos ms_rest ms_caps].
  rewrite (starSet_run_p _ _ isWhiteSpace); [|apply mem_space|].
  - cbn [ms_pos ms_rest ms_caps].
    pose proof (listItem_group3 (0 + length (takeWhile isWhiteSpace line))
                  (dropWhile isWhiteSpace line)
                  (<[1%nat := take (0 + length (takeWhile isWhiteSpace line) - 0) line]> ∅))
      as H.
    rewrite lookup_insert_ne in H by done. rewrite lookup_empty in H.
    rewrite <- H. by destruct (rmatch listItemRe Some _).
  - intros pos c r cp Hc. cbn [ms_pos ms_rest ms_caps].
    by apply listItem_space_head.
Qed.

(** Claim C2, where the code departs from it: a line that starts with a
    dash and a space is a list item, and [olLineNumber] returns [NaN] for
    it instead of 0, because the match has no third group and
    [Number(undefined)] is [NaN]. *)
Theorem olLineNumber_bullet_NaN (text : jsstring) :
  isListItem (js "- " ++ text) = true
  /\ olLineNumber (js "- " ++ text) = NaN
  /\ olLineNumber (js "- item") = NaN.
Proof.
  rewrite isListItem_direct, olLineNumber_direct. repeat split; reflexivity.
Qed.

Lemma takeWhile_all p s t :
  forallb p s = true -> takeWhile p (s ++ t) = s ++ takeWhile p t.
Proof.
  induction s as [|c s IH]; cbn; [done|]. destruct (p c); [|done].
  cbn. intros H. by rewrite IH.
Qed.

Lemma dropWhile_all p s t :
  forallb p s = true -> dropWhile p (s ++ t) = dropWhile p t.
Proof.
  induction s as [|c s IH]; cbn; [done|]. destruct (p c); [|done].
  cbn. exact IH.
Qed.

Lemma trim_digits d : forallb isDigit d = true -> trim d = d.
Proof.
  intros Hd. unfold trim, trimStart, trimEnd.
  assert (Hstart : dropWhile isWhiteSpace d = d).
  { destruct d as [|c d]; [done|]. cbn in Hd |- *.
    apply andb_true_iff in Hd as [Hc _]. by rewrite (digit_not_space c Hc). }
  rewrite Hstart.
  destruct (reverse d) as [|c r] eqn:E.
  - cbn. apply (f_equal reverse) in E. by rewrite reverse_involutive in E.
  - assert (Hc : isDigit c = true).
    { apply forallb_forall with (x := c) in Hd; [done|].
      apply list_elem_of_In, elem_of_reverse. rewrite E. left. }
    cbn [dropWhile]. rewrite (digit_not_space c Hc), <- E.
    apply reverse_involutive.
Qed.

(** [Number] of a run of digits is the double nearest to its value. *)
Lemma Number_digits c d :
  forallb isDigit (c :: d) = true ->
  Number (Some (c :: d)) = roundToDouble (decimalValue (c :: d)).
Proof.
  intros Hd. unfold Number. rewrite (trim_digits _ Hd). by rewrite Hd.
Qed.

Lemma roundToDouble_exact n : n < 2 ^ 53 -> roundToDouble n = Num (Z.of_N n).
Proof.
  intros H. unfold roundToDouble. by destruct (N.ltb_spec n (2 ^ 53)); [|lia].
Qed.

(** An ordered item: digits, a dot or a parenthesis, white space. *)
Lemma olLineNumber_ordered (c : N) (d : jsstring) (p w : N) (text : jsstring) :
  forallb isDigit (c :: d) = true ->
  isDotOrParen p = true ->
  isWhiteSpace w = true ->
  olLineNumber (c :: d ++ p :: w :: text) = roundToDouble (decimalValue (c :: d)).
Proof.
  intros Hd Hp Hw. rewrite olLineNumber_direct, <- (Number_digits c d Hd).
  unfold listItemOrdinal, ordinalAfter. cbn in Hd.
  apply andb_true_iff in Hd as [Hc Hd].
  cbn [dropWhile]. rewrite (digit_not_space c Hc). cbn [ordinalFrom].
  rewrite (digit_not_bullet c Hc), Hc, (dropWhile_all _ _ _ Hd), (takeWhile_all _ _ _ Hd).
  assert (Hpd : isDigit p = false).
  { destruct (isDigit p) eqn:E; [|done].
    by rewrite (digit_not_dotOrParen p E) in Hp. }
  cbn [dropWhile takeWhile]. rewrite Hpd, Hp, Hw. cbn [andb]. by rewrite app_nil_r.
Qed.

(** The examples of the specification *)
Example listItem_examples :
  isListItem (js "- item") = true
  /\ isListItem (js "1. item") = true
  /\ olLineNumber (js "1. item") = Num 1
  /\ isListItem (js "item") = false
  /\ olLineNumber (js "item") = Num 0
  /\ isEmptyListItem (js "- ") = true
  /\ isEmptyListItem (js "- x") = false
  /\ extractListToken (js "* [x] task") = js "* [x] ".
Proof. repeat split; reflexivity. Qed.

(** Beyond 2^53 the ordinal is rounded. *)
Example olLineNumber_rounds :
  olLineNumber (js "9007199254740993. x") = Num 9007199254740992.
Proof. reflexivity. Qed.

(** ** Table cells *)

Lemma escapeTableCell_flat_map text :
  escapeTableCell text = flat_map escapeCellChar text.
Proof.
  unfold escapeTableCell, lit. rewrite !replaceAll_chr, !flat_map_flat_map.
  apply flat_map_ext. intros c. unfold escapeCellChar. cbn [charSetMem].
  destruct (N.eqb_spec c (ch "<")) as [->|]; [reflexivity|].
  cbn [flat_map app]. destruct (N.eqb_spec c (ch ">")) as [->|]; [reflexivity|].
  cbn [flat_map app]. destruct (N.eqb_spec c LF) as [->|]; [reflexivity|].
  cbn [flat_map app]. destruct (N.eqb_spec c (ch "|")) as [->|]; reflexivity.
Qed.

(** Claim C8: [escapeTableCell] puts a backslash before every pipe, so it
    is not idempotent: the two characters backslash and pipe become
    backslash, backslash, pipe, and a second application changes them
    again. *)
Theorem escapeTableCell_not_idempotent :
  (forall text, escapeTableCell text = flat_map escapeCellChar text)
  /\ escapeCellChar (ch "|") = js "\|"
  /\ escapeTableCell (js "\|") = js "\\|"
  /\ escapeTableCell (escapeTableCell (js "\|")) = js "\\\|"
  /\ escapeTableCell (escapeTableCell (js "\|")) <> escapeTableCell (js "\|").
Proof.
  split; [apply escapeTableCell_flat_map|]. repeat split; done.
Qed.

Lemma escapeCellChar_length c : (1 <= length (escapeCellChar c))%nat.
Proof.
  unfold escapeCellChar.
  repeat match goal with
         | |- context [if ?b then _ else _] => destruct b
         end; cbn; lia.
Qed.

Lemma escapeCells_length text :
  (length text <= length (flat_map escapeCellChar text))%nat.
Proof.
  induction text as [|c text IH]; [done|]. cbn [flat_map length].
  rewrite length_app. pose proof (escapeCellChar_length c). lia.
Qed.

(** Every further application makes a text with a pipe longer. *)
Lemma escapeTableCell_grows text :
  In (ch "|") text ->
  (length text < length (escapeTableCell text))%nat
  /\ In (ch "|") (escapeTableCell text).
Proof.
  rewrite escapeTableCell_flat_map.
  induction text as [|c text IH]; [done|]. cbn [flat_map length].
  rewrite length_app. intros [->|Hin].
  - change (escapeCellChar (ch "|")) with (js "\|").
    split; [|by right; left].
    pose proof (escapeCells_length text). cbn [js length]. lia.
  - destruct (IH Hin) as [Hlen Hpipe]. split.
    + pose proof (escapeCellChar_length c). lia.
    + apply in_or_app. by right.
Qed.

(** Property X6: no text with a pipe is a fixed point of [escapeTableCell]:
    escaping it once more changes it again. *)
Lemma escapeTableCell_pipe_not_fixed text :
  In (ch "|") text -> escapeTableCell (escapeTableCell text) <> escapeTableCell text.
Proof.
  intros Hin. destruct (escapeTableCell_grows text Hin) as [_ Hin'].
  destruct (escapeTableCell_grows _ Hin') as [Hlen _]. intros E.
  rewrite E in Hlen. lia.
Qed.

(** Claim C9 as it is stated fails: [escapeLinkUrl(null)] raises. *)
Lemma null_input_raises : ~ neutralOnEmptyOrNull.
Proof.
  intros H. specialize (H EscapeLinkUrl None (or_introl eq_refl)). discriminate H.
Qed.

(** Claim C9, amended: on the empty string every function returns its
    neutral result; on [null] the functions that call a method of their
    argument raise a [TypeError] and the others return their neutral
    result, among them [titleFromBody] (the empty string) and
    [countTableColumns] (0); [matchingTableDivider] is false as soon as
    one of its arguments is empty or [null]. *)
Theorem empty_or_null_input :
  (forall f, call f (Some []) = Return (neutral f))
  /\ (forall f, call f None
                = if callsMethodOnArgument f then Throw_TypeError
                  else Return (neutral f))
  /\ titleFromBody None = Return []
  /\ countTableColumns None = 0%Z
  /\ (forall x, matchingTableDivider None x = false
                /\ matchingTableDivider (Some []) x = false
                /\ matchingTableDivider x None = false
                /\ matchingTableDivider x (Some []) = false).
Proof.
  repeat split; try (by intros []); try reflexivity.
  - by destruct x as [[|? ?]|].
  - by destruct x as [[|? ?]|].
Qed.

(** * Further properties of the module *)

(** ** Escaped urls *)

Lemma existsb_flat_map (p : N -> bool) (f : N -> jsstring) (s : jsstring) :
  (forall c, existsb p (f c) = false) -> existsb p (flat_map f s) = false.
Proof.
  intros Hf. induction s as [|c s IH]; [done|]. cbn [flat_map].
  by rewrite existsb_app, Hf, IH.
Qed.

Lemma flat_map_fixed (p : N -> bool) (f : N -> jsstring) (s : jsstring) :
  (forall c, p c = false -> f c = [c]) -> existsb p s = false -> flat_map f s = s.
Proof.
  intros Hf. induction s as [|c s IH]; [done|]. cbn [existsb flat_map].
  intros [Hc Hs]%orb_false_iff. by rewrite (Hf c Hc), IH.
Qed.

Lemma escapeLinkChar_clean c : existsb needsLinkEscape (escapeLinkChar c) = false.
Proof.
  unfold escapeLinkChar.
  destruct (N.eqb_spec c (ch "(")); [reflexivity|].
  destruct (N.eqb_spec c (ch ")")); [reflexivity|].
  destruct (N.eqb_spec c (ch " ")); [reflexivity|].
  cbn [existsb]. unfold needsLinkEscape.
  rewrite orb_false_r. repeat (apply orb_false_iff; split); by apply N.eqb_neq.
Qed.

Lemma escapeLinkChar_other c : needsLinkEscape c = false -> escapeLinkChar c = [c].
Proof.
  unfold needsLinkEscape, escapeLinkChar.
  intros [[H1 H2]%orb_false_iff H3]%orb_false_iff. by rewrite H1, H2, H3.
Qed.

(** Property X3: the escaped url has no parenthesis and no space left. *)
Theorem escapeLinkUrl_clean (url : jsstring) :
  existsb needsLinkEscape (escapeLinkUrl url) = false.
Proof.
  rewrite escapeLinkUrl_flat_map. apply existsb_flat_map, escapeLinkChar_clean.
Qed.

(** Property X4: escaping an escaped url changes nothing. *)
Theorem escapeLinkUrl_idempotent (url : jsstring) :
  escapeLinkUrl (escapeLinkUrl url) = escapeLinkUrl url.
Proof.
  rewrite (escapeLinkUrl_flat_map (escapeLinkUrl url)).
  apply (flat_map_fixed needsLinkEscape); [apply escapeLinkChar_other|].
  rewrite escapeLinkUrl_flat_map. apply existsb_flat_map, escapeLinkChar_clean.
Qed.

Lemma startsWith_split pat : forall s,
  startsWith pat s = true -> s = pat ++ drop (length pat) s.
Proof.
  induction pat as [|p pat IH]; intros [|c s] H; cbn in *; try done.
  apply andb_true_iff in H as [Hc H]. apply N.eqb_eq in Hc as ->.
  f_equal. by apply IH.
Qed.

(** Encoding the character a decoding pass produced gives the text back,
    when the text had no such character of its own. *)
Lemma escapeOne_substitute (x p a b : N) : forall s skip,
  existsb (fun c => c =? x) s = false ->
  flat_map (escapeOne x [p; a; b]) (substitute (findStr [p; a; b] [x]) skip s)
  = drop skip s.
Proof.
  induction s as [|c s IH]; intros skip Hs.
  - by destruct skip.
  - cbn [existsb] in Hs. apply orb_false_iff in Hs as [Hc Hs].
    destruct skip as [|skip]; cbn [substitute drop]; [|by apply IH].
    unfold findStr at 1. destruct (startsWith [p; a; b] (c :: s)) eqn:Hm.
    + cbn [length app flat_map]. unfold escapeOne at 1. rewrite N.eqb_refl.
      rewrite IH by done. apply startsWith_split in Hm. cbn [length drop] in Hm.
      symmetry. exact Hm.
    + cbn [flat_map]. unfold escapeOne at 1. rewrite Hc. cbn [app].
      rewrite IH by done. reflexivity.
Qed.

(** A decoding pass brings in no character but the decoded one. *)
Lemma substitute_findStr_chars (q : N -> bool) pat x : forall s skip,
  q x = false -> existsb q s = false ->
  existsb q (substitute (findStr pat [x]) skip s) = false.
Proof.
  intros s skip Hx. revert skip.
  induction s as [|c s IH]; intros skip Hs.
  - destruct skip; cbn [substitute]; [|done]. unfold findStr.
    destruct (startsWith pat []); cbn; by rewrite ?Hx.
  - cbn [existsb] in Hs. apply orb_false_iff in Hs as [Hc Hs].
    destruct skip as [|skip]; cbn [substitute]; [|by apply IH].
    unfold findStr at 1. destruct (startsWith pat (c :: s)).
    + cbn [app existsb]. rewrite Hx. cbn [orb].
      destruct (length pat); [cbn [existsb]; rewrite Hc|]; by rewrite IH.
    + cbn [existsb]. by rewrite Hc, IH.
Qed.

Lemma escapeLinkUrl_passes t :
  escapeLinkUrl t
  = flat_map (escapeOne (ch "(") (js "%28"))
      (flat_map (escapeOne (ch ")") (js "%29"))
         (flat_map (escapeOne (ch " ") (js "%20")) t)).
Proof.
  rewrite escapeLinkUrl_flat_map, !flat_map_flat_map. apply flat_map_ext.
  intros c. unfold escapeLinkChar, escapeOne at 3.
  destruct (N.eqb_spec c (ch " ")) as [->|Hs]; [reflexivity|].
  cbn [flat_map app]. unfold escapeOne at 2.
  destruct (N.eqb_spec c (ch ")")) as [->|Hr]; [reflexivity|].
  cbn [flat_map app]. unfold escapeOne.
  destruct (N.eqb_spec c (ch "(")) as [->|Hl]; reflexivity.
Qed.

(** Property X8: for a url without parentheses and spaces, escaping the unescaped
    url gives the url back. *)
Theorem unescapeLinkUrl_then_escape (url : jsstring) :
  existsb needsLinkEscape url = false ->
  escapeLinkUrl (unescapeLinkUrl url) = url.
Proof.
  intros Hurl.
  assert (Hl : existsb (fun c => c =? ch "(") url = false
               /\ existsb (fun c => c =? ch ")") url = false
               /\ existsb (fun c => c =? ch " ") url = false).
  { clear -Hurl. induction url as [|c url IH]; [done|]. cbn [existsb] in *.
    apply orb_false_iff in Hurl as [Hc Hurl]. destruct (IH Hurl) as (H1 & H2 & H3).
    unfold needsLinkEscape in Hc.
    apply orb_false_iff in Hc as [[Hc1 Hc2]%orb_false_iff Hc3].
    by rewrite Hc1, Hc2, Hc3, H1, H2, H3. }
  destruct Hl as (Hlp & Hrp & Hsp).
  rewrite escapeLinkUrl_passes. unfold unescapeLinkUrl. rewrite !replaceAll_str.
  change (js "%28") with [ch "%"; ch "2"; ch "8"].
  change (js "%29") with [ch "%"; ch "2"; ch "9"].
  change (js "%20") with [ch "%"; ch "2"; ch "0"].
  change (js "(") with [ch "("]. change (js ")") with [ch ")"].
  change (js " ") with [ch " "].
  rewrite (escapeOne_substitute (ch " ")), drop_0.
  2:{ apply (substitute_findStr_chars (fun c => c =? ch " ")); [done|].
      by apply (substitute_findStr_chars (fun c => c =? ch " ")). }
  rewrite (escapeOne_substitute (ch ")")), drop_0.
  2:{ by apply (substitute_findStr_chars (fun c => c =? ch ")")). }
  by rewrite (escapeOne_substitute (ch "(")), drop_0.
Qed.

Lemma unescapeLinkUrl_then_escape_witness :
  escapeLinkUrl (unescapeLinkUrl (js "my%20file%20%281%29.png"))
  = js "my%20file%20%281%29.png".
Proof. apply unescapeLinkUrl_then_escape. reflexivity. Defined.

(** ** Escaped titles, code and cells *)

Lemma matchAt_bracket pos rest :
  (fun m => (expand [RText (js "\"); RGroup 1] m, length (m_text m)))
    <$> matchAt (Group 1 (Alt (lit "[") (lit "]"))) pos rest
  = findBracket rest.
Proof.
  unfold matchAt. rewrite rmatch_group, rmatch_alt. unfold lit.
  rewrite !rmatch_chr. unfold chrStep, findBracket, isBracket.
  cbn [ms_rest ms_pos ms_caps charSetMem].
  destruct rest as [|c rest]; [done|].
  destruct (N.eqb_spec c (ch "[")) as [->|Hl].
  - unfold orElse. cbn [fmap option_fmap option_map ms_pos ms_caps m_text].
    replace (S pos - pos)%nat with 1%nat by lia. reflexivity.
  - destruct (N.eqb_spec c (ch "]")) as [->|Hr]; [|done].
    unfold orElse. cbn [fmap option_fmap option_map ms_pos ms_caps m_text].
    replace (S pos - pos)%nat with 1%nat by lia. reflexivity.
Qed.

Lemma substitute_findBracket s :
  substitute findBracket 0 s = flat_map escapeTitleChar s.
Proof.
  induction s as [|c s IH]; cbn [substitute findBracket flat_map]; [done|].
  unfold escapeTitleChar. destruct (isBracket c); by rewrite IH.
Qed.

(** Property X1: [escapeTitleText] puts a backslash before every square bracket and
    changes nothing else. *)
Theorem escapeTitleText_brackets (text : jsstring) :
  escapeTitleText text = flat_map escapeTitleChar text.
Proof.
  unfold escapeTitleText.
  rewrite (replaceAll_substitute _ _ findBracket); [apply substitute_findBracket|].
  apply matchAt_bracket.
Qed.

Lemma escapeTitleChars_head t :
  match flat_map escapeTitleChar t with
  | d :: _ => isBracket d = false
  | [] => t = []
  end.
Proof.
  destruct t as [|c t]; [done|]. cbn [flat_map]. unfold escapeTitleChar.
  destruct (isBracket c) eqn:Hc; cbn [app]; [reflexivity | exact Hc].
Qed.

Lemma unescapeTitleText_escaped t :
  unescapeTitleText (flat_map escapeTitleChar t) = t.
Proof.
  induction t as [|c t IH]; [done|]. cbn [flat_map]. unfold escapeTitleChar at 1.
  destruct (isBracket c) eqn:Hc.
  - cbn [app unescapeTitleText]. rewrite N.eqb_refl, Hc. cbn [andb]. by rewrite IH.
  - cbn [app unescapeTitleText]. pose proof (escapeTitleChars_head t) as Hh.
    destruct (flat_map escapeTitleChar t) as [|d r] eqn:Hf.
    + by rewrite Hh.
    + rewrite Hh, andb_false_r. by rewrite IH.
Qed.

(** Property X2: [escapeTitleText] loses nothing: two texts with the same escaped
    form are the same text. *)
Theorem escapeTitleText_injective (a b : jsstring) :
  escapeTitleText a = escapeTitleText b -> a = b.
Proof.
  unfold escapeTitleText.
  rewrite !(replaceAll_substitute _ _ findBracket), !substitute_findBracket
    by apply matchAt_bracket.
  intros H. rewrite <- (unescapeTitleText_escaped a), H.
  apply unescapeTitleText_escaped.
Qed.

Lemma escapeTitleText_injective_witness :
  js "a [draft] \[x" = js "a [draft] \[x".
Proof. apply escapeTitleText_injective. reflexivity. Defined.

(** Property X7: [escapeInlineCode] writes every backtick twice and changes
    nothing else. *)
Theorem escapeInlineCode_doubles (text : jsstring) :
  escapeInlineCode text = flat_map escapeCodeChar text.
Proof.
  unfold escapeInlineCode, lit. rewrite replaceAll_chr. apply flat_map_ext.
  intros c. unfold escapeCodeChar. cbn [charSetMem].
  destruct (N.eqb_spec c (ch "`")) as [->|]; reflexivity.
Qed.

Lemma barePipe_escaped s : barePipe false s = false -> barePipe true s = false.
Proof.
  destruct s as [|c s]; [done|]. cbn [barePipe negb]. rewrite andb_false_r, andb_true_r.
  by intros [_ H]%orb_false_iff.
Qed.

Lemma escapeCells_no_bare_pipe text :
  barePipe false (flat_map escapeCellChar text) = false.
Proof.
  induction text as [|c text IH]; [done|]. cbn [flat_map]. unfold escapeCellChar.
  destruct (N.eqb_spec c (ch "<")) as [->|]; [exact IH|].
  destruct (N.eqb_spec c (ch ">")) as [->|]; [exact IH|].
  destruct (N.eqb_spec c LF) as [->|]; [exact IH|].
  destruct (N.eqb_spec c (ch "|")) as [->|Hp]; [exact IH|].
  cbn [app barePipe]. apply N.eqb_neq in Hp. rewrite Hp. cbn [andb orb].
  destruct (c =? ch "\"); [by apply barePipe_escaped | exact IH].
Qed.

Lemma escapeCellChar_no_LF c : existsb (fun d => d =? LF) (escapeCellChar c) = false.
Proof.
  unfold escapeCellChar.
  destruct (N.eqb_spec c (ch "<")); [reflexivity|].
  destruct (N.eqb_spec c (ch ">")); [reflexivity|].
  destruct (N.eqb_spec c LF) as [|Hn]; [reflexivity|].
  destruct (N.eqb_spec c (ch "|")); [reflexivity|].
  cbn [existsb]. apply N.eqb_neq in Hn. by rewrite Hn.
Qed.

(** Property X5: an escaped cell stays inside its cell: it has no line feed, and
    every pipe in it stands directly after a backslash. *)
Theorem escapeTableCell_one_cell (text : jsstring) :
  existsb (fun c => c =? LF) (escapeTableCell text) = false
  /\ barePipe false (escapeTableCell text) = false.
Proof.
  rewrite escapeTableCell_flat_map. split.
  - apply existsb_flat_map, escapeCellChar_no_LF.
  - apply escapeCells_no_bare_pipe.
Qed.

(** ** List tokens *)

(** Property X23: an empty list item is a list item. *)
Theorem isEmptyListItem_isListItem (line : jsstring) :
  isEmptyListItem line = true -> isListItem line = true.
Proof.
  rewrite isEmptyListItem_direct, isListItem_direct.
  unfold emptyListItemDirect, listItemOrdinal, ordinalAfter.
  destruct (dropWhile isWhiteSpace line) as [|b r]; [done|].
  cbn [emptyItemAfter ordinalFrom].
  destruct (isBulletChar b) eqn:Hb.
  - rewrite (bullet_not_digit b Hb). cbn [andb]. rewrite orb_false_r.
    destruct r as [|w r]; [done|]. intros H.
    assert (Hw : isWhiteSpace w = true).
    { apply orb_true_iff in H as [H|H].
      - destruct r as [|lb [|x [|rb r']]]; try done.
        apply andb_true_iff in H as [H _]. apply andb_true_iff in H as [H _].
        apply andb_true_iff in H as [H _]. apply andb_true_iff in H as [H _].
        apply N.eqb_eq in H as ->. reflexivity.
      - cbn in H. by apply andb_true_iff in H as [H _]. }
    by rewrite Hw.
  - cbn [andb orb]. destruct (isDigit b); [|done]. cbn [andb].
    destruct (dropWhile isDigit r) as [|p [|w r']]; try done.
    + by rewrite andb_false_r.
    + intros [Hp Hw]%andb_true_iff. cbn in Hw.
      apply andb_true_iff in Hw as [Hw _]. by rewrite Hp, Hw.
Qed.

Lemma isEmptyListItem_isListItem_witness : isListItem (js "  3) ") = true.
Proof. apply isEmptyListItem_isListItem. reflexivity. Defined.

Lemma trailingSpace_group2 pos rest caps :
  group2 <$> rmatch trailingSpaceRe Some (MState pos rest caps) = Some (caps !! 2%nat).
Proof.
  unfold trailingSpaceRe, space. rewrite rmatch_group, rmatch_star_chr.
  cbn [ms_pos ms_rest ms_caps].
  rewrite (starSet_greedy_total_p _ isWhiteSpace); [|apply mem_space|by eauto].
  cbn. unfold group2. cbn. by rewrite lookup_insert_ne.
Qed.

Lemma afterToken_group2 start s st :
  group2 <$> afterToken start s st = Some (Some (take (ms_pos st - start) s)).
Proof.
  unfold afterToken. rewrite trailingSpace_group2. by rewrite lookup_insert_eq.
Qed.

Lemma checkItem_group2 n s caps :
  group2 <$> rmatch (bullet · lit " " · lit "[" · checkMark · lit "]" · space)%re
               (afterToken n s) (MState n s caps)
  = match s with
    | b :: sp :: lb :: x :: rb :: w :: _ =>
        if isBulletChar b && ((sp =? ch " ") && ((lb =? ch "[") && (isCheckMark x
           && ((rb =? ch "]") && isWhiteSpace w))))
        then Some (Some [b; sp; lb; x; rb; w]) else None
    | _ => None
    end.
Proof.
  unfold bullet, lit, checkMark, space.
  destruct s as [|b [|sp [|lb [|x [|rb [|w r']]]]]]; step_g3;
    rewrite ?afterToken_group2; cbn [ms_pos];
    replace (S (S (S (S (S (S n))))) - n)%nat with 6%nat by lia;
    repeat match goal with
           | |- context [if ?c then _ else _] => destruct c; cbn [andb]
           end; done.
Qed.

Lemma bulletItem_group2 n s caps :
  group2 <$> rmatch (bullet · space)%re (afterToken n s) (MState n s caps)
  = match s with
    | b :: w :: _ =>
        if isBulletChar b && isWhiteSpace w then Some (Some [b; w]) else None
    | _ => None
    end.
Proof.
  unfold bullet, space.
  destruct s as [|b [|w r']]; step_g3;
    rewrite ?afterToken_group2; cbn [ms_pos];
    replace (S (S n) - n)%nat with 2%nat by lia;
    repeat match goal with
           | |- context [if ?c then _ else _] => destruct c; cbn [andb]
           end; done.
Qed.

Lemma ordinalItem_group2 n s caps :
  group2 <$> rmatch (Group 3 (Plus true digit) · Group 4 (dotOrParen · space))%re
               (afterToken n s) (MState n s caps)
  = match s with
    | b :: r =>
        if isDigit b then
          match dropWhile isDigit r with
          | p :: w :: _ =>
              if isDotOrParen p && isWhiteSpace w
              then Some (Some (b :: takeWhile isDigit r ++ [p; w]))
              else None
          | _ => None
          end
        else None
    | [] => None
    end.
Proof.
  unfold digit, dotOrParen, space.
  rewrite rmatch_seq, rmatch_group, rmatch_plus_chr. unfold chrStep.
  cbn [ms_rest ms_pos ms_caps]. destruct s as [|b r]; [done|].
  rewrite mem_digit. destruct (isDigit b); [|done].
  rewrite (starSet_run_p _ _ isDigit); [|apply mem_digit|].
  - cbn [ms_rest ms_pos ms_caps]. rewrite rmatch_group.
    pose proof (takeWhile_dropWhile isDigit r) as Hr.
    destruct (dropWhile isDigit r) as [|p [|w r']]; step_g3; try done.
    + by destruct (isDotOrParen p).
    + rewrite afterToken_group2. cbn [ms_pos].
      replace (S (S (S n + length (takeWhile isDigit r))) - n)%nat
        with (S (length (takeWhile isDigit r) + 2)) by lia.
      cbn [take]. rewrite <- Hr at 2.
      rewrite take_app_add'  by done. cbn [take].
      by destruct (isDotOrParen p), (isWhiteSpace w).
  - intros pos c r0 cp Hc. cbn [ms_rest ms_pos ms_caps].
    rewrite rmatch_group. step_g3. by rewrite (digit_not_dotOrParen c Hc).
Qed.

Lemma listItem_group2 n s caps :
  group2 <$> rmatch listItemRe Some (MState n s caps)
  = Some <$> listTokenAfter s.
Proof.
  unfold listItemRe.
  rewrite rmatch_seq, rmatch_group, !rmatch_alt, !fmap_orElse.
  change (fun st' : mstate =>
            rmatch trailingSpaceRe Some
              (MState (ms_pos st') (ms_rest st')
                 (<[2%nat := take (ms_pos st' - ms_pos (MState n s caps))
                               (ms_rest (MState n s caps))]> (ms_caps st'))))
    with (afterToken n s).
  rewrite checkItem_group2, bulletItem_group2, ordinalItem_group2.
  unfold listTokenAfter. destruct s as [|b r]; [done|].
  destruct (isBulletChar b) eqn:Hb.
  - rewrite (bullet_not_digit b Hb). cbn [andb]. rewrite orElse_None_r.
    destruct r as [|sp [|lb [|x [|rb [|w r]]]]]; try done;
      try (by destruct (isWhiteSpace sp)).
    rewrite <- !andb_assoc.
    destruct ((sp =? ch " ") && ((lb =? ch "[") && (isCheckMark x
                && ((rb =? ch "]") && isWhiteSpace w)))); [done|].
    by destruct (isWhiteSpace sp).
  - cbn [andb]. destruct r as [|sp [|lb [|x [|rb [|w2 r]]]]]; try done;
      (destruct (isDigit b); [|done]); unfold orElse;
      (destruct (dropWhile isDigit _) as [|p [|w ?]]; try done);
      by destruct (isDotOrParen p && isWhiteSpace w).
Qed.

(** The second group of a match of [listRegex] *)
Lemma listRegex_group2 (line : jsstring) :
  (fun m => group m 2) <$> exec listRegex line
  = Some <$> listTokenAfter (dropWhile isWhiteSpace line).
Proof.
  rewrite listRegex_eq, exec_bol.
  unfold matchAt. rewrite rmatch_seq, rmatch_bol. cbn [ms_pos Nat.eqb].
  rewrite rmatch_seq, rmatch_group, rmatch_star_chr. cbn [ms_pos ms_rest ms_caps].
  rewrite (starSet_run_p _ _ isWhiteSpace); [|apply mem_space|].
  - cbn [ms_pos ms_rest ms_caps].
    rewrite <- (listItem_group2 (0 + length (takeWhile isWhiteSpace line))
                  (dropWhile isWhiteSpace line)
                  (<[1%nat := take (0 + length (takeWhile isWhiteSpace line) - 0) line]> ∅)).
    by destruct (rmatch listItemRe Some _).
  - intros pos c r cp Hc. cbn [ms_pos ms_rest ms_caps].
    by apply listItem_space_head.
Qed.

Lemma listTokenAfter_prefix s t :
  listTokenAfter s = Some t -> t <> [] /\ exists rest, s = t ++ rest.
Proof.
  unfold listTokenAfter. destruct s as [|b r]; [done|].
  destruct (isBulletChar b).
  - destruct r as [|sp r]; [done|].
    assert (Hplain : (if isWhiteSpace sp then Some [b; sp] else None) = Some t ->
                     t <> [] /\ exists rest, b :: sp :: r = t ++ rest).
    { destruct (isWhiteSpace sp); [|done]. intros [= <-]. split; [done|]. by exists r. }
    destruct r as [|lb [|x [|rb [|w r]]]]; try exact Hplain.
    destruct ((sp =? ch " ") && (lb =? ch "[") && isCheckMark x
              && (rb =? ch "]") && isWhiteSpace w); [|exact Hplain].
    intros [= <-]. split; [done|]. by exists r.
  - destruct (isDigit b); [|done].
    pose proof (takeWhile_dropWhile isDigit r) as Hr.
    destruct (dropWhile isDigit r) as [|p [|w r']]; try done.
    destruct (isDotOrParen p && isWhiteSpace w); [|done].
    intros [= <-]. split; [done|]. exists r'. cbn [app]. f_equal.
    by rewrite <- app_assoc.
Qed.

Lemma listTokenAfter_ordinal s :
  someb (listTokenAfter s) = someb (ordinalAfter s).
Proof.
  unfold listTokenAfter, ordinalAfter, ordinalFrom. destruct s as [|b r]; [done|].
  destruct (isBulletChar b).
  - destruct r as [|sp r]; [done|].
    destruct r as [|lb [|x [|rb [|w r]]]]; try (by destruct (isWhiteSpace sp)).
    destruct ((sp =? ch " ") && (lb =? ch "[") && isCheckMark x
              && (rb =? ch "]") && isWhiteSpace w) eqn:E;
      [|by destruct (isWhiteSpace sp)].
    apply andb_true_iff in E as [E _]. apply andb_true_iff in E as [E _].
    apply andb_true_iff in E as [E _]. apply andb_true_iff in E as [E _].
    apply N.eqb_eq in E as ->. reflexivity.
  - destruct (isDigit b); [|done].
    destruct (dropWhile isDigit r) as [|p [|w r']]; try done.
    by destruct (isDotOrParen p && isWhiteSpace w).
Qed.

(** Property X21: [extractListToken] without the regular expression: the token is
    read after the leading white space and ends with the one white-space
    character that follows the bullet, the check box or the ordinal; a
    line that is no list item has the empty token. *)
Theorem extractListToken_direct (line : jsstring) :
  extractListToken line = listTokenDirect line.
Proof.
  unfold extractListToken, listTokenDirect. pose proof (listRegex_group2 line) as H.
  destruct (exec listRegex line) as [m|];
    destruct (listTokenAfter (dropWhile isWhiteSpace line)) as [t|]; try done.
  cbn in H. injection H as H. cbn [group]. by rewrite H.
Qed.

(** Property X22: the list token stands in the line directly after the leading
    white space, and it is empty exactly when the line is no list item. *)
Theorem extractListToken_prefix (line : jsstring) :
  (exists rest, dropWhile isWhiteSpace line = extractListToken line ++ rest)
  /\ isListItem line = negb (bool_decide (extractListToken line = [])).
Proof.
  rewrite isListItem_direct. unfold listItemOrdinal, extractListToken.
  rewrite <- listTokenAfter_ordinal. pose proof (listRegex_group2 line) as H.
  destruct (listTokenAfter (dropWhile isWhiteSpace line)) as [t|] eqn:E;
    destruct (exec listRegex line) as [m|]; try done; cbn [someb].
  - cbn in H. injection H as H. cbn [group]. rewrite H. cbn [default].
    destruct (listTokenAfter_prefix _ _ E) as [Hne Hrest]. split; [exact Hrest|].
    by rewrite bool_decide_eq_false_2.
  - split; [by eexists|]. by rewrite bool_decide_eq_true_2.
Qed.

(** Property X18: for a line that is no list item [olLineNumber] is 0. *)
Theorem olLineNumber_not_item (line : jsstring) :
  isListItem line = false -> olLineNumber line = Num 0.
Proof.
  rewrite isListItem_direct, olLineNumber_direct.
  by destruct (listItemOrdinal line).
Qed.

Lemma olLineNumber_not_item_witness : olLineNumber (js "12.x") = Num 0.
Proof. apply olLineNumber_not_item. reflexivity. Defined.

Lemma listItemOrdinal_indent ws s :
  forallb isWhiteSpace ws = true -> listItemOrdinal (ws ++ s) = listItemOrdinal s.
Proof.
  intros Hws. unfold listItemOrdinal. by rewrite dropWhile_all.
Qed.

(** Property X19: the ordinal of an ordered item, whatever its indentation: digits
    with a value below 2^53, a dot or a closing parenthesis and a
    white-space character give exactly that value. *)
Theorem olLineNumber_ordinal (ws : jsstring) (c : N) (d : jsstring) (p w : N)
    (text : jsstring) :
  forallb isWhiteSpace ws = true ->
  forallb isDigit (c :: d) = true ->
  isDotOrParen p = true ->
  isWhiteSpace w = true ->
  decimalValue (c :: d) < 2 ^ 53 ->
  olLineNumber (ws ++ c :: d ++ p :: w :: text) = Num (Z.of_N (decimalValue (c :: d))).
Proof.
  intros Hws Hd Hp Hw Hv.
  rewrite olLineNumber_direct, (listItemOrdinal_indent _ _ Hws),
    <- (roundToDouble_exact _ Hv), <- (Number_digits c d Hd).
  unfold listItemOrdinal, ordinalAfter. cbn in Hd.
  apply andb_true_iff in Hd as [Hc Hd].
  cbn [dropWhile]. rewrite (digit_not_space c Hc). cbn [ordinalFrom].
  rewrite (digit_not_bullet c Hc), Hc, (dropWhile_all _ _ _ Hd), (takeWhile_all _ _ _ Hd).
  assert (Hpd : isDigit p = false).
  { destruct (isDigit p) eqn:E; [|done].
    by rewrite (digit_not_dotOrParen p E) in Hp. }
  cbn [dropWhile takeWhile]. rewrite Hpd, Hp, Hw. cbn [andb]. by rewrite app_nil_r.
Qed.

Lemma olLineNumber_ordinal_witness :
  olLineNumber (js "    42) answer") = Num 42.
Proof.
  apply (olLineNumber_ordinal (js "    ") (ch "4") (js "2") (ch ")") (ch " ")
           (js "answer")); try reflexivity.
Defined.

(** Property X20: for an unordered item, whatever its bullet and indentation,
    [olLineNumber] is [NaN]. *)
Theorem olLineNumber_unordered (ws : jsstring) (b w : N) (text : jsstring) :
  forallb isWhiteSpace ws = true ->
  isBulletChar b = true ->
  isWhiteSpace w = true ->
  isListItem (ws ++ b :: w :: text) = true
  /\ olLineNumber (ws ++ b :: w :: text) = NaN.
Proof.
  intros Hws Hb Hw.
  rewrite isListItem_direct, olLineNumber_direct, (listItemOrdinal_indent _ _ Hws).
  unfold listItemOrdinal, ordinalAfter. cbn [dropWhile].
  rewrite (bullet_not_space b Hb). cbn [ordinalFrom]. by rewrite Hb, Hw.
Qed.

Lemma olLineNumber_unordered_witness :
  isListItem (js "  * [x] done") = true /\ olLineNumber (js "  * [x] done") = NaN.
Proof.
  apply (olLineNumber_unordered (js "  ") (ch "*") (ch " ") (js "[x] done"));
    reflexivity.
Defined.

(** ** Generated tables *)

Lemma countTableColumns_count (c : N) (l : jsstring) :
  countTableColumns (Some (c :: l))
  = (Z.of_nat (countChar (ch "|") (c :: l))
     - (if startsWithPipe (trim (c :: l)) then 1 else 0)
     - (if endsWithPipe (trim (c :: l)) then 1 else 0) + 1)%Z.
Proof.
  unfold countTableColumns, lit. rewrite matchAll_chr_length, charAt_first, charAt_last.
  unfold countChar, startsWithPipe, endsWithPipe.
  change (charSetMem (Lit (ch "|"))) with (fun x => x =? ch "|").
  repeat case_bool_decide; lia.
Qed.

Lemma In_dropWhile (p : N -> bool) x s : In x (dropWhile p s) -> In x s.
Proof.
  induction s as [|c s IH]; cbn; [done|]. destruct (p c); [by right; apply IH|done].
Qed.

Lemma In_trim x s : In x (trim s) -> In x s.
Proof.
  unfold trim, trimEnd, trimStart. intros H.
  apply list_elem_of_In, elem_of_reverse, list_elem_of_In, In_dropWhile in H.
  apply list_elem_of_In, elem_of_reverse, list_elem_of_In, In_dropWhile in H.
  exact H.
Qed.

Lemma countChar_In c s : In c s -> (1 <= countChar c s)%nat.
Proof.
  unfold countChar. induction s as [|d s IH]; cbn [In List.filter]; [done|].
  intros [->|H].
  - rewrite N.eqb_refl. cbn. lia.
  - destruct (d =? c); cbn; [lia|by apply IH].
Qed.

(** Property X25: the number of columns is never negative. *)
Theorem countTableColumns_nonneg (line : option jsstring) :
  (0 <= countTableColumns line)%Z.
Proof.
  destruct line as [[|c l]|]; [done| |done].
  rewrite countTableColumns_count.
  unfold startsWithPipe, endsWithPipe.
  destruct (bool_decide (head (trim (c :: l)) = Some (ch "|"))) eqn:Hh.
  - apply bool_decide_eq_true_1 in Hh.
    assert (1 <= countChar (ch "|") (c :: l))%nat as Hn.
    { apply countChar_In, In_trim. destruct (trim (c :: l)); [done|].
      injection Hh as ->. by left. }
    case_bool_decide; cbv iota. all: lia.
  - destruct (bool_decide (last (trim (c :: l)) = Some (ch "|"))) eqn:Hl; [|lia].
    apply bool_decide_eq_true_1 in Hl.
    assert (1 <= countChar (ch "|") (c :: l))%nat as Hn; [|lia].
    apply countChar_In, In_trim, list_elem_of_In.
    rewrite last_Some in Hl. destruct Hl as [l' ->]. set_solver.
Qed.

Lemma countChar_app c a b : countChar c (a ++ b) = (countChar c a + countChar c b)%nat.
Proof. unfold countChar. by rewrite List.filter_app, length_app. Qed.

Lemma countChar_absent c s :
  existsb (fun x => x =? c) s = false -> countChar c s = 0%nat.
Proof.
  unfold countChar. induction s as [|d s IH]; cbn [existsb List.filter]; [done|].
  intros [Hd Hs]%orb_false_iff. rewrite Hd. by apply IH.
Qed.

Lemma countChar_join cells :
  Forall (fun cell => existsb isPipe cell = false) cells ->
  countChar (ch "|") (join (js " | ") cells) = (length cells - 1)%nat.
Proof.
  induction 1 as [|cell cells Hcell Hcells IH]; [done|].
  destruct cells as [|cell' cells'].
  - cbn [join length]. by apply countChar_absent.
  - change (join (js " | ") (cell :: cell' :: cells'))
      with (cell ++ js " | " ++ join (js " | ") (cell' :: cells')).
    rewrite !countChar_app, IH, (countChar_absent _ _ Hcell). cbn [length].
    change (countChar (ch "|") (js " | ")) with 1%nat. lia.
Qed.

Lemma trim_fixed s c d :
  head s = Some c -> isWhiteSpace c = false ->
  last s = Some d -> isWhiteSpace d = false ->
  trim s = s.
Proof.
  intros Hc Hcw Hd Hdw. unfold trim, trimEnd, trimStart.
  assert (Hs : dropWhile isWhiteSpace s = s).
  { destruct s as [|x s]; [done|]. injection Hc as ->. cbn. by rewrite Hcw. }
  rewrite Hs. apply last_Some in Hd as [l' ->].
  rewrite reverse_app. change (reverse [d]) with [d]. cbn [app dropWhile].
  rewrite Hdw. by rewrite reverse_cons, reverse_involutive.
Qed.

Lemma trim_tableLine cells : trim (tableLine cells) = tableLine cells.
Proof.
  apply (trim_fixed _ (ch "|") (ch "|")); try done.
  unfold tableLine. by rewrite !app_assoc, last_app.
Qed.

(** A line of cells without pipes has as many columns as cells. *)
Lemma countTableColumns_tableLine cells :
  cells <> [] ->
  Forall (fun cell => existsb isPipe cell = false) cells ->
  countTableColumns (Some (tableLine cells)) = Z.of_nat (length cells).
Proof.
  intros Hne Hcells.
  change (tableLine cells) with (ch "|" :: ch " " :: join (js " | ") cells ++ js " |").
  rewrite countTableColumns_count.
  change (ch "|" :: ch " " :: join (js " | ") cells ++ js " |") with (tableLine cells).
  rewrite trim_tableLine. unfold tableLine.
  rewrite !countChar_app, (countChar_join _ Hcells).
  change (countChar (ch "|") (js "| ")) with 1%nat.
  change (countChar (ch "|") (js " |")) with 1%nat.
  unfold startsWithPipe, endsWithPipe.
  assert (Hl : last (js "| " ++ join (js " | ") cells ++ js " |") = Some (ch "|"))
    by (by rewrite app_assoc, last_app).
  rewrite Hl, !bool_decide_eq_true_2 by done.
  destruct cells; [done|]. cbn [length]. lia.
Qed.

Lemma headerCell_no_pipe h :
  existsb isPipe (h_label h) = false -> existsb isPipe (headerCell h) = false.
Proof.
  intros H. unfold headerCell, stringPaddingRight. rewrite existsb_app, H.
  cbn [orb]. induction (5 - length (h_label h))%nat; [done|]. cbn. exact IHn.
Qed.

Lemma dividerCell_chars h :
  existsb isPipe (dividerCell h) = false
  /\ existsb invalidInDivider (dividerCell h) = false.
Proof. unfold dividerCell. by destruct (default Left (h_justify h)). Qed.

Lemma existsb_join (p : N -> bool) sep cells :
  existsb p sep = false ->
  Forall (fun cell => existsb p cell = false) cells ->
  existsb p (join sep cells) = false.
Proof.
  intros Hsep. induction 1 as [|cell cells Hcell Hcells IH]; [done|].
  destruct cells as [|cell' cells']; [done|].
  change (join sep (cell :: cell' :: cells'))
    with (cell ++ sep ++ join sep (cell' :: cells')).
  by rewrite !existsb_app, Hcell, Hsep, IH.
Qed.

(** ** The walk over the tokens *)

Section ExtractFileUrlsMore.
Variable parse : bool -> jsstring -> list token.
Variable imageRegex anchorRegex : regex.

Lemma setLastIndex_same st r : setLastIndex st r (lastIndex st r) = st.
Proof. by destruct r, st. Qed.

Lemma lastIndex_set st r i : lastIndex (setLastIndex st r i) r = i.
Proof. by destruct r, st. Qed.

Lemma setLastIndex_twice st r i j :
  setLastIndex (setLastIndex st r i) r j = setLastIndex st r j.
Proof. by destruct r, st. Qed.

(** Property X15: with a pattern that has no empty match in the content, the
    [while] loop ends: a fuel above the number of characters left is
    enough, and the loop leaves [lastIndex] at 0. *)
Theorem execLoop_terminates (r : htmlRegex) (content : jsstring) (fuel : nat)
    (out : list ExtractFileUrlsResult) (st : regexState) :
  neverEmptyIn (patternOf imageRegex anchorRegex r) content = true ->
  (length content + 1 - lastIndex st r < fuel)%nat ->
  exists out',
    execLoop imageRegex anchorRegex fuel r content (out, st)
    = Return (out', setLastIndex st r 0).
Proof.
  intros Hr. revert out st.
  induction fuel as [|fuel IH]; intros out st Hfuel; [lia|].
  cbn [execLoop]. unfold execGlobal.
  destruct (Nat.ltb_spec (length content) (lastIndex st r)) as [Hi|Hi]; [eauto|].
  destruct (search _ _ _) as [m|] eqn:E; [|eauto].
  assert (Hm : (0 < length (m_text m))%nat).
  { unfold neverEmptyIn in Hr. rewrite forallb_forall in Hr.
    specialize (Hr (lastIndex st r)). rewrite E in Hr.
    apply Nat.ltb_lt, Hr, in_seq. lia. }
  apply search_bounds in E. rewrite length_drop in E.
  edestruct (IH (out ++ [{| url := group m 2;
                           type := match r with
                                   | ImageRegex => Image
                                   | AnchorRegex => Anchor
                                   end |}])
               (setLastIndex st r (m_index m + length (m_text m))))
    as [out' Hout].
  - rewrite lastIndex_set. lia.
  - exists out'. rewrite Hout. by rewrite setLastIndex_twice.
Qed.

(** Property X16: a pattern with an empty match where the search starts keeps the
    [while] loop running: [lastIndex] does not move, and no fuel is
    enough. *)
Theorem execLoop_empty_match (r : htmlRegex) (content : jsstring)
    (st : regexState) (m : matchResult) (fuel : nat)
    (out : list ExtractFileUrlsResult) :
  (lastIndex st r <= length content)%nat ->
  search (patternOf imageRegex anchorRegex r) (lastIndex st r)
    (drop (lastIndex st r) content) = Some m ->
  m_index m = lastIndex st r ->
  m_text m = [] ->
  execLoop imageRegex anchorRegex fuel r content (out, st) = OutOfFuel.
Proof.
  intros Hi Hm Hidx Htxt. revert out.
  induction fuel as [|fuel IH]; intros out; [done|].
  cbn [execLoop]. unfold execGlobal.
  destruct (Nat.ltb_spec (length content) (lastIndex st r)) as [Hlt|_]; [lia|].
  rewrite Hm, Hidx, Htxt. cbn [length]. rewrite Nat.add_0_r, setLastIndex_same.
  apply IH.
Qed.

(** The walk over a list of tokens, from facts about its tokens *)
Lemma searchUrls_Forall (P : walkState -> Prop) fuel ii ia (tokens : list token) :
  Forall (fun t => forall w w', P w ->
            searchUrlsToken imageRegex anchorRegex fuel ii ia t w = Return w' ->
            P w') tokens ->
  forall w w', P w ->
    searchUrls imageRegex anchorRegex fuel ii ia tokens w = Return w' -> P w'.
Proof.
  induction 1 as [|t tokens Ht _ IH]; intros w w' Hw H; cbn [searchUrls] in H.
  - by injection H as <-.
  - destruct (searchUrlsToken _ _ _ _ _ _ _) as [w1| |] eqn:E;
      cbn [bind] in H; [|done|done].
    eapply IH; [|exact H]. by eapply Ht.
Qed.

(** A property of the walk state that every token keeps is kept by the
    whole walk. *)
Lemma searchUrls_invariant (P : walkState -> Prop) fuel ii ia :
  (forall ty attrs content w finished w', P w ->
     visit imageRegex anchorRegex fuel ii ia ty attrs content w
     = Return (finished, w') -> P w') ->
  forall tokens w w', P w ->
    searchUrls imageRegex anchorRegex fuel ii ia tokens w = Return w' -> P w'.
Proof.
  intros Hvisit tokens. apply searchUrls_Forall, Forall_forall. intros t _.
  induction t as [ty attrs content children IH] using token_induction.
  intros w w' Hw. rewrite searchUrlsToken_unfold.
  destruct (visit _ _ _ _ _ _ _ _ _) as [[finished w1]| |] eqn:E;
    cbn [bind]; [|done|done].
  apply (Hvisit _ _ _ _ _ _ Hw) in E.
  destruct finished; [|by intros [= <-]].
  destruct children as [[|t l]|]; [by intros [= <-]| |by intros [= <-]].
  by apply searchUrls_Forall.
Qed.

Lemma execLoop_kinds ii ia r content :
  match r with ImageRegex => ii | AnchorRegex => ia end = true ->
  forall fuel out st out' st',
    forallb (kindAllowed ii ia) out = true ->
    execLoop imageRegex anchorRegex fuel r content (out, st) = Return (out', st') ->
    forallb (kindAllowed ii ia) out' = true.
Proof.
  intros Hr. induction fuel as [|fuel IH]; intros out st out' st' Hout H; [done|].
  cbn [execLoop] in H. destruct (execGlobal _ _ _ _ _) as [[m|] s1].
  - apply IH in H; [done|]. rewrite forallb_app, Hout. cbn.
    unfold kindAllowed. cbn [type]. destruct r; by rewrite Hr.
  - by injection H as <- _.
Qed.

Lemma pushAttr_kinds ii ia (isImage : bool) a out :
  (if isImage then ii else ia) = true ->
  forallb (kindAllowed ii ia) out = true ->
  forallb (kindAllowed ii ia) (pushAttr isImage a out) = true.
Proof.
  intros Hk Hout. unfold pushAttr. destruct (_ && truthy _); [|done].
  rewrite forallb_app, Hout. cbn. unfold kindAllowed. cbn [type].
  destruct isImage; by rewrite Hk.
Qed.

Lemma forLoop_invariant {St} (P : St -> Prop) (body : nat -> St -> outcome St) :
  (forall j s s', P s -> body j s = Return s' -> P s') ->
  forall n i s s', P s -> forLoop n i body s = Return s' -> P s'.
Proof.
  intros Hbody. induction n as [|n IH]; intros i s s' Hs H; cbn [forLoop] in H.
  - by injection H as <-.
  - destruct (body i s) as [s1| |] eqn:E; cbn [bind] in H; [|done|done].
    eapply IH; [|exact H]. by eapply Hbody.
Qed.

Lemma visit_kinds fuel ii ia ty attrs content w finished w' :
  forallb (kindAllowed ii ia) (fst w) = true ->
  visit imageRegex anchorRegex fuel ii ia ty attrs content w
  = Return (finished, w') ->
  forallb (kindAllowed ii ia) (fst w') = true.
Proof.
  intros Hw. unfold visit.
  destruct (bool_decide (ty = js "image") || bool_decide (ty = js "link_open")) eqn:Hty.
  - destruct (bool_decide (ty = js "image")) eqn:Himg; cbn [andb orb] in *.
    + destruct ii; cbn [negb]; [|by intros [= _ <-]].
      assert (js "image" <> js "link_open") as Hne by done.
      apply bool_decide_eq_true_1 in Himg. subst ty.
      rewrite (bool_decide_eq_false_2 _ Hne). cbn [andb].
      destruct attrs as [attrs|]; [|done].
      destruct (forLoop _ _ _ _) as [out| |] eqn:E; cbn [bind]; [|done|done].
      intros [= _ <-]. cbn [fst].
      eapply (forLoop_invariant (fun out => forallb (kindAllowed true ia) out = true));
        [|exact Hw|exact E].
      intros j s s' Hs. cbn beta. destruct (attrs !! j); [|done]. intros [= <-].
      by apply pushAttr_kinds.
    + rewrite Hty. cbn [andb]. destruct ia; cbn [negb]; [|by intros [= _ <-]].
      destruct attrs as [attrs|]; [|done].
      destruct (forLoop _ _ _ _) as [out| |] eqn:E; cbn [bind]; [|done|done].
      intros [= _ <-]. cbn [fst].
      eapply (forLoop_invariant (fun out => forallb (kindAllowed ii true) out = true));
        [|exact Hw|exact E].
      intros j s s' Hs. cbn beta. destruct (attrs !! j); [|done]. intros [= <-].
      by apply pushAttr_kinds.
  - destruct (bool_decide (ty = js "html_block")
              || bool_decide (ty = js "html_inline")); [|by intros [= _ <-]].
    cbn [foldl bind]. destruct w as [out st]. cbn [fst] in Hw.
    destruct ii eqn:Hii; cbn [negb].
    + destruct (execLoop _ _ _ _ _ _) as [[o1 s1]| |] eqn:E1; cbn [bind]; [|done|done].
      apply (execLoop_kinds true ia) in E1; [|done|done].
      destruct ia eqn:Hia; cbn [negb bind]; [|by intros [= _ <-]].
      destruct (execLoop _ _ _ _ _ _) as [[o2 s2]| |] eqn:E2; cbn [bind]; [|done|done].
      apply (execLoop_kinds true true) in E2; [|done|done].
      by intros [= _ <-].
    + cbn [bind]. destruct ia eqn:Hia; cbn [negb bind]; [|by intros [= _ <-]].
      destruct (execLoop _ _ _ _ _ _) as [[o2 s2]| |] eqn:E2; cbn [bind]; [|done|done].
      apply (execLoop_kinds false true) in E2; [|done|done].
      by intros [= _ <-].
Qed.

(** Property X12: the options filter the kinds: every record of a detailed result
    is an image only if images are asked for, and an anchor only if
    anchors are. *)
Theorem extractFileUrls_kinds (fuel : nat) (md : jsstring)
    (o : option ExtractFileUrlsOptions) (st st' : regexState)
    (l : list ExtractFileUrlsResult) :
  extractFileUrls parse imageRegex anchorRegex fuel md o st
  = Return (Detailed l, st') ->
  forallb (kindAllowed (wantsImages o) (wantsAnchors o)) l = true.
Proof.
  unfold extractFileUrls.
  assert (Hopts : exists d h, withDefaults o = (wantsAnchors o, wantsImages o, d, h)).
  { destruct o as [o|]; cbn; eauto. }
  destruct Hopts as (d & h & ->).
  destruct (searchUrls _ _ _ _ _ _ _) as [[out s1]| |] eqn:E; cbn [bind]; [|done|done].
  apply (searchUrls_invariant
           (fun w => forallb (kindAllowed (wantsImages o) (wantsAnchors o)) (fst w) = true))
    in E; [|intros; by eapply visit_kinds|done].
  destruct d; [|done]. by intros [= <- _].
Qed.

(** The walk with both kinds excluded does nothing. *)
Lemma visit_excluded fuel ty attrs content w :
  exists finished,
    visit imageRegex anchorRegex fuel false false ty attrs content w
    = Return (finished, w).
Proof.
  unfold visit.
  destruct (bool_decide (ty = js "image")), (bool_decide (ty = js "link_open"));
    cbn [andb orb negb]; eauto.
  destruct (_ || _); cbn [foldl bind]; eauto.
Qed.

Lemma searchUrls_excluded fuel (tokens : list token) w :
  searchUrls imageRegex anchorRegex fuel false false tokens w = Return w.
Proof.
  assert (Hlist : forall l : list token,
             Forall (fun t => forall w,
                       searchUrlsToken imageRegex anchorRegex fuel false false t w
                       = Return w) l ->
             forall w, searchUrls imageRegex anchorRegex fuel false false l w
                       = Return w).
  { induction 1 as [|t l Ht _ IH]; intros w0; cbn [searchUrls]; [done|].
    rewrite Ht. cbn [bind]. apply IH. }
  apply Hlist, Forall_forall. intros t _. clear w.
  induction t as [ty attrs content children IH] using token_induction.
  intros w. rewrite searchUrlsToken_unfold.
  destruct (visit_excluded fuel ty attrs content w) as [finished ->]. cbn [bind].
  destruct finished; [|done]. destruct children as [[|t l]|]; [done| |done].
  by apply Hlist.
Qed.

(** Property X13: with images and anchors both excluded the result is empty for
    every source, and the call neither raises nor loops nor touches the
    shared patterns. *)
Theorem extractFileUrls_excluded (fuel : nat) (md : jsstring)
    (detailed withHtml : option bool) (st : regexState) :
  extractFileUrls parse imageRegex anchorRegex fuel md
    (Some {| includeImages := Some false; includeAnchors := Some false;
             detailedResults := detailed; html := withHtml |}) st
  = Return (if default false detailed then Detailed [] else Urls [], st).
Proof.
  unfold extractFileUrls, withDefaults.
  cbn [includeImages includeAnchors detailedResults html default].
  rewrite searchUrls_excluded. cbn [bind].
  by destruct (default false detailed).
Qed.

(** Property X14: a call that starts with both shared patterns at
    [lastIndex] 0 and returns leaves both at [lastIndex] 0, so the same
    call made again returns the same result and leaves them at 0 again. *)
Theorem extractFileUrls_repeatable (fuel : nat) (md : jsstring)
    (o : option ExtractFileUrlsOptions) (r : extracted) (st' : regexState) :
  extractFileUrls parse imageRegex anchorRegex fuel md o zeroState
  = Return (r, st') ->
  lastIndex st' ImageRegex = 0%nat
  /\ lastIndex st' AnchorRegex = 0%nat
  /\ extractFileUrls parse imageRegex anchorRegex fuel md o st'
     = Return (r, zeroState).
Proof.
  intros H. pose proof (extractFileUrls_zero _ _ _ _ _ _ _ _ H) as Hst.
  subst st'. repeat split. exact H.
Qed.

End ExtractFileUrlsMore.

Section AnchorPattern.
Variable parse : bool -> jsstring -> list token.
Variable imageRegex anchor1 anchor2 : regex.

Lemma execLoop_image content : forall fuel w,
  execLoop imageRegex anchor1 fuel ImageRegex content w
  = execLoop imageRegex anchor2 fuel ImageRegex content w.
Proof.
  induction fuel as [|fuel IH]; intros [out st]; [done|].
  cbn [execLoop]. unfold execGlobal. cbn [patternOf].
  destruct (_ <? _)%nat; [done|]. destruct (search _ _ _); [apply IH|done].
Qed.

Lemma visit_image fuel ii ty attrs content w :
  visit imageRegex anchor1 fuel ii false ty attrs content w
  = visit imageRegex anchor2 fuel ii false ty attrs content w.
Proof.
  unfold visit. destruct (_ || _); [done|]. destruct (_ || _); [|done].
  cbn [foldl bind negb]. destruct (negb ii); [done|].
  by rewrite execLoop_image.
Qed.

Lemma searchUrls_image fuel ii (tokens : list token) w :
  searchUrls imageRegex anchor1 fuel ii false tokens w
  = searchUrls imageRegex anchor2 fuel ii false tokens w.
Proof.
  assert (Hlist : forall l : list token,
             Forall (fun t => forall w,
                       searchUrlsToken imageRegex anchor1 fuel ii false t w
                       = searchUrlsToken imageRegex anchor2 fuel ii false t w) l ->
             forall w, searchUrls imageRegex anchor1 fuel ii false l w
                       = searchUrls imageRegex anchor2 fuel ii false l w).
  { induction 1 as [|t l Ht _ IH]; intros w0; cbn [searchUrls]; [done|].
    rewrite Ht. destruct (searchUrlsToken _ _ _ _ _ _ _); cbn [bind]; [apply IH|done|done]. }
  apply Hlist, Forall_forall. intros t _. clear w.
  induction t as [ty attrs content children IH] using token_induction.
  intros w. rewrite !searchUrlsToken_unfold, visit_image.
  destruct (visit _ _ _ _ _ _ _ _ _) as [[finished w1]| |]; cbn [bind]; [|done|done].
  destruct finished; [|done]. destruct children as [[|t l]|]; [done| |done].
  by apply Hlist.
Qed.

(** Property X17: [extractImageUrls] never consults the pattern of anchors: with
    any two such patterns it gives the same result and leaves the same
    state. *)
Theorem extractImageUrls_anchor_pattern (fuel : nat) (md : jsstring)
    (st : regexState) :
  extractImageUrls parse imageRegex anchor1 fuel md st
  = extractImageUrls parse imageRegex anchor2 fuel md st.
Proof.
  unfold extractImageUrls, extractFileUrls, withDefaults.
  cbn [includeImages includeAnchors detailedResults html default].
  by rewrite searchUrls_image.
Qed.

End AnchorPattern.

Lemma execLoop_terminates_witness :
  exists out',
    execLoop sampleImageRegex sampleAnchorRegex 20 ImageRegex
      (js "<img src='a.png'>") ([], zeroState)
    = Return (out', setLastIndex zeroState ImageRegex 0).
Proof.
  apply (execLoop_terminates sampleImageRegex sampleAnchorRegex ImageRegex
           (js "<img src='a.png'>") 20 [] zeroState).
  - vm_compute. reflexivity.
  - cbn. lia.
Defined.

Lemma execLoop_empty_match_witness :
  execLoop (Star true (lit "a")) sampleAnchorRegex 1000 ImageRegex (js "b")
    ([], zeroState) = OutOfFuel.
Proof.
  apply (execLoop_empty_match (Star true (lit "a")) sampleAnchorRegex ImageRegex
           (js "b") zeroState (MatchResult 0 [] ∅)).
  - cbn. lia.
  - vm_compute. reflexivity.
  - reflexivity.
  - reflexivity.
Defined.

Lemma extractFileUrls_kinds_witness :
  forallb (kindAllowed true false)
    [ {| url := Some (js "a.png"); type := Image |};
      {| url := Some (js "b.png"); type := Image |} ] = true.
Proof.
  apply (extractFileUrls_kinds (fun _ _ => htmlTokens) sampleImageRegex
           sampleAnchorRegex 3 []
           (Some {| includeImages := None; includeAnchors := Some false;
                    detailedResults := Some true; html := None |})
           zeroState zeroState).
  vm_compute. reflexivity.
Defined.

Lemma extractFileUrls_repeatable_witness :
  lastIndex zeroState ImageRegex = 0%nat
  /\ lastIndex zeroState AnchorRegex = 0%nat
  /\ extractFileUrls (fun _ _ => htmlTokens) sampleImageRegex sampleAnchorRegex 3 []
       None zeroState
     = Return (Urls [Some (js "a.png"); Some (js "b.png"); Some (js "x")], zeroState).
Proof.
  apply (extractFileUrls_repeatable (fun _ _ => htmlTokens) sampleImageRegex
           sampleAnchorRegex 3 [] None
           (Urls [Some (js "a.png"); Some (js "b.png"); Some (js "x")]) zeroState).
  vm_compute. reflexivity.
Defined.

(** ** Single-line titles *)

Lemma existsb_takeWhile (q p : N -> bool) s :
  existsb q s = false -> existsb q (takeWhile p s) = false.
Proof.
  induction s as [|c s IH]; cbn; [done|]. intros [Hc Hs]%orb_false_iff.
  destruct (p c); [|done]. cbn. by rewrite Hc, IH.
Qed.

Lemma existsb_dropWhile (q p : N -> bool) s :
  existsb q s = false -> existsb q (dropWhile p s) = false.
Proof.
  induction s as [|c s IH]; cbn; [done|]. intros [Hc Hs]%orb_false_iff.
  destruct (p c); [by apply IH|]. cbn. by rewrite Hc, Hs.
Qed.

Lemma existsb_reverse (q : N -> bool) s : existsb q (reverse s) = existsb q s.
Proof.
  induction s as [|c s IH]; [done|]. rewrite reverse_cons, existsb_app, IH. cbn.
  rewrite orb_false_r. apply orb_comm.
Qed.

Lemma existsb_trim (q : N -> bool) s : existsb q s = false -> existsb q (trim s) = false.
Proof.
  intros H. unfold trim, trimEnd, trimStart.
  rewrite existsb_reverse. apply existsb_dropWhile.
  rewrite existsb_reverse. by apply existsb_dropWhile.
Qed.

Lemma existsb_take (q : N -> bool) n s :
  existsb q s = false -> existsb q (take n s) = false.
Proof.
  revert n. induction s as [|c s IH]; intros [|n]; cbn; try done.
  intros [Hc Hs]%orb_false_iff. by rewrite Hc, IH.
Qed.

(** A replacement made of characters of the text brings in no new
    character. *)
Lemma substitute_chars (q : N -> bool) find :
  (forall s txt n, find s = Some (txt, n) -> existsb q s = false ->
                   existsb q txt = false) ->
  forall s skip, existsb q s = false -> existsb q (substitute find skip s) = false.
Proof.
  intros Hfind. induction s as [|c s IH]; intros skip Hs.
  - destruct skip; cbn [substitute]; [|done].
    destruct (find []) as [[txt n]|] eqn:E; [|done].
    rewrite app_nil_r. by apply (Hfind _ _ _ E).
  - pose proof Hs as Hcs. cbn [existsb] in Hs.
    apply orb_false_iff in Hs as [Hc Hs].
    destruct skip as [|skip]; cbn [substitute]; [|by apply IH].
    destruct (find (c :: s)) as [[txt n]|] eqn:E.
    + rewrite existsb_app, (Hfind _ _ _ E Hcs). cbn [orb].
      destruct n; [cbn [existsb]; rewrite Hc|]; by rewrite IH.
    + cbn [existsb]. by rewrite Hc, IH.
Qed.

Lemma linkTarget_chars (q : N -> bool) s target rest :
  linkTarget s = Some (target, rest) -> existsb q s = false ->
  existsb q target = false.
Proof.
  unfold linkTarget. destruct s as [|c s]; [done|].
  destruct (isLineTerminator c); [done|].
  destruct (dropWhile inTarget s) as [|c' tail]; [done|].
  destruct (c' =? ch ")"); [|done]. intros [= <- _]. cbn [existsb].
  intros [Hc Hs]%orb_false_iff. by rewrite Hc, existsb_takeWhile.
Qed.

Lemma labelledBody_chars (q : N -> bool) s txt n :
  labelledBody s = Some (txt, n) -> existsb q s = false -> existsb q txt = false.
Proof.
  unfold labelledBody. destruct s as [|lb s1]; [done|].
  destruct (lb =? ch "["); [|done]. unfold bracketLabel.
  destruct (takeWhile notCloseBracket s1) as [|l0 label] eqn:El; [done|].
  destruct (dropWhile notCloseBracket s1) as [|rb [|lp s2]]; [done|done|].
  destruct (lp =? ch "("); [|done].
  destruct (linkTarget s2) as [[target tail]|]; [|done].
  intros [= <- _] Hs. rewrite <- El. apply existsb_takeWhile.
  cbn [existsb] in Hs. by apply orb_false_iff in Hs as [_ Hs].
Qed.

Lemma emptyLabelBody_chars (q : N -> bool) s txt n :
  emptyLabelBody s = Some (txt, n) -> existsb q s = false -> existsb q txt = false.
Proof.
  unfold emptyLabelBody. destruct s as [|lb [|rb [|lp s2]]]; try done.
  destruct (_ && _); [|done].
  destruct (linkTarget s2) as [[target tail]|] eqn:E; [|done].
  intros [= <- _]. cbn [existsb].
  intros [_ [_ [_ Hs]%orb_false_iff]%orb_false_iff]%orb_false_iff.
  by apply (linkTarget_chars q _ _ _ E).
Qed.

Lemma withBang_chars (q : N -> bool) body :
  (forall s txt n, body s = Some (txt, n) -> existsb q s = false ->
                   existsb q txt = false) ->
  forall s txt n, withBang body s = Some (txt, n) -> existsb q s = false ->
                  existsb q txt = false.
Proof.
  intros Hbody s txt n. unfold withBang. destruct s as [|c s]; [apply Hbody|].
  destruct (c =? ch "!"); [|apply Hbody].
  destruct (body s) as [[t m]|] eqn:E; [|done]. intros [= <- _].
  cbn [existsb]. intros [_ Hs]%orb_false_iff. by apply (Hbody _ _ _ E).
Qed.

Lemma firstLine_no_LF s : existsb isLF (firstLine s) = false.
Proof.
  unfold firstLine, isLF. induction s as [|c s IH]; cbn; [done|].
  destruct (c =? LF) eqn:E; cbn; [done|]. by rewrite E, IH.
Qed.

(** Property X26: the title is a single line: whatever the body, [titleFromBody]
    returns, and its result has no line feed and at most 80 characters. *)
Theorem titleFromBody_one_line (body : option jsstring) :
  exists title,
    titleFromBody body = Return title
    /\ existsb isLF title = false
    /\ (length title <= 80)%nat.
Proof.
  destruct body as [[|c body]|];
    [exists []; repeat split; cbn; lia| |exists []; repeat split; cbn; lia].
  unfold titleFromBody. rewrite split_first. cbn [invoke bind].
  rewrite replaceFirst_filterRegex, replaceAll_mdLinkRegex,
    replaceAll_emptyMdLinkRegex.
  eexists. split; [reflexivity|]. unfold substring0. split.
  - apply existsb_take.
    apply substitute_chars;
      [apply withBang_chars; intros s txt n; apply emptyLabelBody_chars|].
    apply substitute_chars;
      [apply withBang_chars; intros s txt n; apply labelledBody_chars|].
    apply existsb_dropWhile, existsb_trim, firstLine_no_LF.
  - rewrite length_take. lia.
Qed.

(** ** Base urls *)

Example prependBaseUrl_examples :
  let f := fun (u : option jsstring) (b : jsstring) => b ++ default [] u in
  prependBaseUrl f (js "[a](b.png) and ![c](d e) or [x]() [y](z") (js "/r/")
  = js "[a](/r/b.png) and ![c](/r/d e) or [x]() [y](z"
  /\ linkUrl (js "](d e) f") = Some (js "d", js " e)").
Proof. split; reflexivity. Qed.

Lemma pieces_substitute_with r (fn : matchResult -> jsstring) find :
  (forall pos rest,
      (fun m => (fn m, length (m_text m))) <$> matchAt r pos rest = find rest) ->
  forall s skip pos,
    flat_map (fun p => match p with Copy c => [c] | Hit m => fn m end)
      (pieces r skip pos s)
    = substitute find skip s.
Proof.
  intros Hfind. induction s as [|c s IH]; intros skip pos.
  - destruct skip; cbn [pieces substitute]; [|done].
    rewrite <- (Hfind pos []). destruct (matchAt r pos []) as [m|]; cbn; [|done].
    by rewrite !app_nil_r.
  - destruct skip; cbn [pieces substitute]; [|apply IH].
    rewrite <- (Hfind pos (c :: s)).
    destruct (matchAt r pos (c :: s)) as [m|];
      cbn [fmap option_fmap option_map flat_map].
    + f_equal. destruct (length (m_text m)); cbn [flat_map]; by rewrite IH.
    + by rewrite IH.
Qed.

(** A lazy star of any character before a closing parenthesis stops at
    the first closing parenthesis of the line. *)
Lemma star_lazy_close (kU : mstate -> option mstate)
    (kf : nat -> jsstring -> gmap nat jsstring -> option mstate) :
  (forall p c r cp,
      kU (MState p (c :: r) cp) = if c =? ch ")" then kf p r cp else None) ->
  (forall p cp, kU (MState p [] cp) = None) ->
  (forall p r cp, is_Some (kf p r cp)) ->
  forall pos s caps,
    starSet false Dot kU pos s caps
    = match dropWhile inTarget s with
      | c :: tail =>
          if c =? ch ")"
          then kf (pos + length (takeWhile inTarget s))%nat tail caps
          else None
      | [] => None
      end.
Proof.
  intros HkU Hnil Hkf pos s caps.
  rewrite (starSet_lazy_skip Dot kU inTarget).
  - destruct (dropWhile inTarget s) as [|c' tail] eqn:E; cbn [starSet].
    + by rewrite Hnil.
    + rewrite HkU. pose proof (dropWhile_head _ _ _ _ E) as Hc'.
      destruct (N.eqb_spec c' (ch ")")) as [->|Hne].
      * cbn [charSetMem].
        destruct (Hkf (pos + length (takeWhile inTarget s))%nat tail caps)
          as [x ->]. done.
      * unfold inTarget in Hc'. apply andb_false_iff in Hc' as [Hc'|Hc'].
        -- cbn [charSetMem]. by rewrite Hc'.
        -- apply negb_false_iff, N.eqb_eq in Hc'. done.
  - intros c0 Hc0. unfold inTarget in Hc0. by apply andb_true_iff in Hc0 as [? _].
  - intros p c0 r cp Hc0. rewrite HkU. unfold inTarget in Hc0.
    apply andb_true_iff in Hc0 as [_ Hc0]. apply negb_true_iff in Hc0.
    by rewrite Hc0.
Qed.

(** A greedy star takes the whole run when a continuation that fails
    after the run fails after every part of it. *)
Lemma starSet_greedy_run cs (p : N -> bool) k :
  (forall c, charSetMem cs c = p c) ->
  (forall pos c r caps, p c = true ->
     k (MState (S pos) r caps) = None -> k (MState pos (c :: r) caps) = None) ->
  forall rest pos caps,
    starSet true cs k pos rest caps
    = k (MState (pos + length (takeWhile p rest)) (dropWhile p rest) caps).
Proof.
  intros Hp Hk.
  assert (Hfail : forall rest pos caps,
             k (MState (pos + length (takeWhile p rest)) (dropWhile p rest) caps) = None ->
             k (MState pos rest caps) = None).
  { induction rest as [|c rest IH]; intros pos caps; cbn [takeWhile dropWhile].
    - cbn [length]. by rewrite Nat.add_0_r.
    - destruct (p c) eqn:Hc; cbn [length].
      + replace (pos + S (length (takeWhile p rest)))%nat
          with (S pos + length (takeWhile p rest))%nat by lia.
        intros H. by apply Hk, IH.
      + by rewrite Nat.add_0_r. }
  induction rest as [|c rest IH]; intros pos caps; cbn [starSet takeWhile dropWhile].
  - cbn [length]. by rewrite Nat.add_0_r.
  - rewrite Hp. destruct (p c) eqn:Hc; cbn [length].
    + rewrite IH.
      replace (pos + S (length (takeWhile p rest)))%nat
        with (S pos + length (takeWhile p rest))%nat by lia.
      destruct (k (MState (S pos + length (takeWhile p rest)) _ caps)) eqn:E; [done|].
      unfold orElse. by apply Hk, Hfail.
    + by rewrite Nat.add_0_r.
Qed.

Lemma mem_urlChar c :
  charSetMem (NotClass [CSpace; CChar (ch ")")]) c = isUrlChar c.
Proof. cbn. unfold isUrlChar. by rewrite orb_false_r. Qed.

Lemma urlChar_inTarget c : isUrlChar c = true -> inTarget c = true.
Proof.
  unfold isUrlChar, inTarget. intros H. apply negb_true_iff, orb_false_iff in H as [Hw Hp].
  rewrite Hp. cbn [negb]. rewrite andb_true_r. apply negb_true_iff.
  destruct (isLineTerminator c) eqn:E; [|done]. class_disjoint.
Qed.

Lemma dropWhile_inTarget_urlChars s :
  dropWhile inTarget (dropWhile isUrlChar s) = dropWhile inTarget s.
Proof.
  induction s as [|c s IH]; cbn [dropWhile]; [done|].
  destruct (isUrlChar c) eqn:Hc; [|done]. by rewrite (urlChar_inTarget c Hc).
Qed.

(** The third group and the end of the match *)
Lemma closing_group p s cp :
  rmatch (Group 3 (Star false (Chr Dot) · lit ")"))%re Some (MState p s cp)
  = match closingText s with
    | Some after =>
        Some (MState (p + length after) (drop (length after) s)
                (<[3%nat := after]> cp))
    | None => None
    end.
Proof.
  rewrite rmatch_group, rmatch_seq, rmatch_star_chr. cbn [ms_pos ms_rest ms_caps].
  rewrite (star_lazy_close _
             (fun p' r cp' =>
                Some (MState (S p') r (<[3%nat := take (S p' - p) s]> cp')))).
  - unfold closingText. pose proof (takeWhile_dropWhile inTarget s) as Hs.
    destruct (dropWhile inTarget s) as [|c tail]; [done|].
    destruct (N.eqb_spec c (ch ")")) as [->|]; [|done].
    remember (takeWhile inTarget s) as t eqn:Ht. clear Ht. subst s.
    rewrite length_app. cbn [length].
    replace (S (p + length t) - p)%nat with (length t + 1)%nat by lia.
    replace (S (p + length t)) with (p + (length t + 1))%nat by lia.
    rewrite take_app_add', drop_app_add' by done. reflexivity.
  - intros p' c r cp'. unfold lit. rewrite rmatch_chr, chrStep_cons, mem_lit.
    by destruct (c =? ch ")").
  - reflexivity.
  - by eauto.
Qed.

Lemma closingText_urlChar c s :
  isUrlChar c = true -> closingText s = None -> closingText (c :: s) = None.
Proof.
  intros Hc. unfold closingText. cbn [dropWhile takeWhile].
  rewrite (urlChar_inTarget c Hc).
  destruct (dropWhile inTarget s) as [|c' tail]; [done|]. by destruct (c' =? ch ")").
Qed.

Lemma url_group p0 s1 cp :
  rmatch (Group 2 (Plus true (Chr (NotClass [CSpace; CChar (ch ")")])))
          · Group 3 (Star false (Chr Dot) · lit ")"))%re Some (MState p0 s1 cp)
  = match takeWhile isUrlChar s1 with
    | [] => None
    | (_ :: _) as target =>
        match closingText (dropWhile isUrlChar s1) with
        | Some after =>
            Some (MState (p0 + length target + length after)
                    (drop (length after) (dropWhile isUrlChar s1))
                    (<[3%nat := after]> (<[2%nat := target]> cp)))
        | None => None
        end
    end.
Proof.
  rewrite rmatch_seq, rmatch_group, rmatch_plus_chr. unfold chrStep.
  cbn [ms_pos ms_rest ms_caps]. destruct s1 as [|c s]; [done|].
  rewrite mem_urlChar. cbn [takeWhile dropWhile].
  destruct (isUrlChar c) eqn:Hc; [|done].
  rewrite (starSet_greedy_run _ isUrlChar); [|apply mem_urlChar|].
  - cbn [ms_pos ms_rest ms_caps]. rewrite closing_group.
    replace (S p0 + length (takeWhile isUrlChar s) - p0)%nat
      with (S (length (takeWhile isUrlChar s))) by lia.
    cbn [take]. rewrite take_length_takeWhile.
    destruct (closingText (dropWhile isUrlChar s)) as [after|]; [|done].
    cbn [length]. do 2 f_equal. lia.
  - intros pos c0 r caps Hc0. cbn [ms_pos ms_rest ms_caps].
    rewrite !closing_group.
    destruct (closingText r) as [after|] eqn:E; [done|]. intros _.
    by rewrite (closingText_urlChar _ _ Hc0 E).
Qed.

Lemma linkUrlRegex_match pos rest :
  rmatch linkUrlRegex Some (MState pos rest ∅)
  = match linkUrl rest with
    | Some (target, after) =>
        Some (MState (pos + (2 + length target + length after))
                (drop (2 + length target + length after) rest)
                (<[3%nat := after]>
                   (<[2%nat := target]> (<[1%nat := js "]("]> ∅))))
    | None => None
    end.
Proof.
  unfold linkUrlRegex, lit. rewrite rmatch_seq, rmatch_group, rmatch_seq, !rmatch_chr.
  unfold linkUrl, chrStep at 1. cbn [ms_pos ms_rest ms_caps charSetMem].
  destruct rest as [|rb rest]; [done|].
  destruct (N.eqb_spec rb (ch "]")) as [->|]; [|by destruct rest].
  rewrite rmatch_chr. unfold chrStep at 1. cbn [ms_pos ms_rest ms_caps charSetMem].
  destruct rest as [|lp s1]; [done|].
  destruct (N.eqb_spec lp (ch "(")) as [->|]; [|done].
  cbn [andb ms_pos ms_rest ms_caps].
    replace (S (S pos) - pos)%nat with 2%nat by lia. cbn [take].
    rewrite url_group.
    pose proof (drop_length_takeWhile isUrlChar s1) as Hd.
    destruct (takeWhile isUrlChar s1) as [|c target]; [done|].
    destruct (closingText (dropWhile isUrlChar s1)) as [after|]; [|done].
    do 2 f_equal; [lia|].
    rewrite <- Hd, drop_drop. cbn [drop plus]. f_equal.
Qed.

Lemma linkUrl_prefix s target after :
  linkUrl s = Some (target, after) ->
  exists rest, s = js "](" ++ target ++ after ++ rest.
Proof.
  unfold linkUrl. destruct s as [|rb [|lp s1]]; try done.
  destruct (N.eqb_spec rb (ch "]")) as [->|]; [|done].
  destruct (N.eqb_spec lp (ch "(")) as [->|]; [|done]. cbn [andb].
  pose proof (takeWhile_dropWhile isUrlChar s1) as Hs1.
  destruct (takeWhile isUrlChar s1) as [|c t]; [done|].
  unfold closingText.
  pose proof (takeWhile_dropWhile inTarget (dropWhile isUrlChar s1)) as Hs2.
  destruct (dropWhile inTarget (dropWhile isUrlChar s1)) as [|c' tail]; [done|].
  destruct (c' =? ch ")"); [|done]. intros [= <- <-]. exists tail.
  cbn [js app]. rewrite <- Hs1 at 1. cbn [app]. do 3 f_equal.
  rewrite <- Hs2 at 1. by rewrite <- app_assoc.
Qed.

Lemma linkUrlRegex_find (fn : matchResult -> jsstring)
    (f : option jsstring -> jsstring -> jsstring) (baseUrl : jsstring) :
  (forall m, fn m = groupText m 1 ++ f (group m 2) baseUrl ++ groupText m 3) ->
  forall pos rest,
    (fun m => (fn m, length (m_text m))) <$> matchAt linkUrlRegex pos rest
    = rewrittenLink f baseUrl rest.
Proof.
  intros Hfn pos rest. unfold matchAt, rewrittenLink.
  pose proof (matchAt_text_length linkUrlRegex pos rest) as Hlen.
  rewrite linkUrlRegex_match in Hlen |- *.
  destruct (linkUrl rest) as [[target after]|]; [|done].
  specialize (Hlen _ eq_refl). cbn [ms_pos] in Hlen.
  cbn [fmap option_fmap option_map ms_pos ms_caps m_text]. rewrite Hlen, Hfn.
  unfold groupText. cbn [group m_caps].
  rewrite lookup_insert_eq, !lookup_insert_ne, !lookup_insert_eq by done.
  cbn [default].
  do 2 f_equal. lia.
Qed.

Section PrependBaseUrlFacts.
Variable f : option jsstring -> jsstring -> jsstring.

(** Property X9: [prependBaseUrl] without the regular expression: from left to
    right, after every [](] the longest run of characters other than
    white space and the closing parenthesis is the url, provided it is
    not empty and a closing parenthesis follows on the same line; the url
    is replaced by what [urlUtils.prependBaseUrl] returns for it, and the
    text around it is kept. *)
Theorem prependBaseUrl_direct (md baseUrl : jsstring) :
  prependBaseUrl f md baseUrl = substitute (rewrittenLink f baseUrl) 0 md.
Proof.
  unfold prependBaseUrl, replaceAllWith. apply pieces_substitute_with.
  by apply linkUrlRegex_find.
Qed.

End PrependBaseUrlFacts.

(** A replacement of every occurrence by itself changes nothing. *)
Lemma substitute_same find :
  (forall s txt n, find s = Some (txt, n) -> exists rest, s = txt ++ rest /\ n = length txt) ->
  forall s skip, substitute find skip s = drop skip s.
Proof.
  intros Hfind. induction s as [|c s IH]; intros skip.
  - destruct skip; cbn [substitute drop]; [|done].
    destruct (find []) as [[txt n]|] eqn:E; [|done].
    apply Hfind in E as (rest & Hs & _). symmetry in Hs.
    apply app_eq_nil in Hs as [-> _]. done.
  - destruct skip; cbn [substitute drop]; [|apply IH].
    destruct (find (c :: s)) as [[txt n]|] eqn:E; [|by rewrite IH].
    apply Hfind in E as (rest & Hs & ->).
    destruct txt as [|t txt]; cbn [app length]; [by rewrite IH|].
    rewrite IH. cbn [app] in Hs. injection Hs as -> ->.
    by rewrite drop_app_length.
Qed.

(** Property X10: when the rewriter returns every url as it is, [prependBaseUrl]
    returns the text as it is: only the url of a link is ever changed. *)
Theorem prependBaseUrl_same_urls (md baseUrl : jsstring) :
  prependBaseUrl (fun u _ => default [] u) md baseUrl = md.
Proof.
  unfold prependBaseUrl, replaceAllWith.
  rewrite (pieces_substitute_with _ _
             (rewrittenLink (fun u _ => default [] u) baseUrl))
    by by apply linkUrlRegex_find.
  rewrite substitute_same; [apply drop_0|].
  intros s txt n. unfold rewrittenLink.
  destruct (linkUrl s) as [[target after]|] eqn:E; [|done].
  intros [= <- <-]. apply linkUrl_prefix in E as [rest ->]. exists rest.
  cbn [default]. split; [by rewrite (app_assoc target after rest)|].
  cbn [length]. rewrite length_app. lia.
Qed.

(** A replacement that finds no occurrence changes nothing. *)
Lemma substitute_none find :
  forall s, (forall n, find (drop n s) = None) -> substitute find 0 s = s.
Proof.
  induction s as [|c s IH]; intros H.
  - cbn [substitute]. pose proof (H 0%nat) as H0. cbn [drop] in H0. by rewrite H0.
  - cbn [substitute]. pose proof (H 0%nat) as H0. cbn [drop] in H0. rewrite H0.
    f_equal. apply IH. intros n. apply (H (S n)).
Qed.

Lemma linkUrl_startsWith s : startsWith (js "](") s = false -> linkUrl s = None.
Proof.
  unfold linkUrl. destruct s as [|rb [|lp s1]]; try done. cbn.
  rewrite andb_true_r. by intros ->.
Qed.

Lemma includes_drop pat s n : includes pat s = false -> startsWith pat (drop n s) = false.
Proof.
  revert n. induction s as [|c s IH]; intros n.
  - destruct n; cbn [includes drop]; by destruct pat.
  - cbn [includes]. intros [H1 H2]%orb_false_iff. destruct n; [done|].
    cbn [drop]. by apply IH.
Qed.

Section PrependBaseUrlOutside.
Variable f : option jsstring -> jsstring -> jsstring.

(** Property X11: a text in which no closing bracket is directly followed by an
    opening parenthesis is returned as it is, whatever the rewriter. *)
Theorem prependBaseUrl_no_link (md baseUrl : jsstring) :
  includes (js "](") md = false -> prependBaseUrl f md baseUrl = md.
Proof.
  intros Hmd. unfold prependBaseUrl, replaceAllWith.
  rewrite (pieces_substitute_with _ _ (rewrittenLink f baseUrl))
    by by apply linkUrlRegex_find.
  apply substitute_none. intros n. unfold rewrittenLink.
  by rewrite linkUrl_startsWith by by apply includes_drop.
Qed.

End PrependBaseUrlOutside.

Lemma prependBaseUrl_no_link_witness :
  prependBaseUrl (fun u b => b ++ default [] u) (js "see [note] (here)") (js "/r/")
  = js "see [note] (here)".
Proof. apply prependBaseUrl_no_link. reflexivity. Defined.

(** ** The first line of the body *)

Lemma forallb_reverse (p : N -> bool) s : forallb p (reverse s) = forallb p s.
Proof.
  induction s as [|c s IH]; [done|]. rewrite reverse_cons, forallb_app, IH. cbn.
  rewrite andb_true_r. apply andb_comm.
Qed.

Lemma trimEnd_blank a b :
  forallb isWhiteSpace b = true -> trimEnd (a ++ b) = trimEnd a.
Proof.
  intros Hb. unfold trimEnd. rewrite reverse_app, dropWhile_all; [done|].
  by rewrite forallb_reverse.
Qed.

Lemma trimEnd_app a b :
  forallb isWhiteSpace b = false -> trimEnd (a ++ b) = a ++ trimEnd b.
Proof.
  intros Hb. unfold trimEnd. rewrite reverse_app.
  destruct (dropWhile isWhiteSpace (reverse b)) as [|y r] eqn:E.
  - apply dropWhile_nil in E. rewrite forallb_reverse in E. congruence.
  - rewrite (dropWhile_app _ _ _ _ _ E).
    change (y :: r ++ reverse a) with ((y :: r) ++ reverse a).
    by rewrite reverse_app, reverse_involutive.
Qed.

Lemma trimStart_head c s :
  isWhiteSpace c = false -> trimStart (c :: s) = c :: s.
Proof. intros Hc. unfold trimStart. cbn. by rewrite Hc. Qed.

Lemma trimEnd_cons c s :
  isWhiteSpace c = false -> exists s', trimEnd (c :: s) = c :: s'.
Proof.
  intros Hc. destruct (forallb isWhiteSpace s) eqn:Hs.
  - exists []. change (c :: s) with ([c] ++ s). rewrite trimEnd_blank by done.
    unfold trimEnd. cbn. by rewrite Hc.
  - exists (trimEnd s). change (c :: s) with ([c] ++ s). by rewrite trimEnd_app.
Qed.

Lemma trimEnd_idemp s : trimEnd (trimEnd s) = trimEnd s.
Proof.
  unfold trimEnd. rewrite reverse_involutive.
  destruct (dropWhile isWhiteSpace (reverse s)) as [|y r] eqn:E; [done|].
  pose proof (dropWhile_head _ _ _ _ E) as Hy. cbn. by rewrite Hy.
Qed.

Lemma firstLine_all s : existsb isLF s = false -> firstLine s = s.
Proof.
  unfold firstLine, isLF. induction s as [|c s IH]; cbn; [done|].
  intros [Hc Hs]%orb_false_iff. rewrite Hc. cbn. by rewrite IH.
Qed.

Lemma firstLine_app a b : existsb isLF a = false -> firstLine (a ++ LF :: b) = a.
Proof.
  unfold firstLine, isLF. induction a as [|c a IH]; cbn.
  - reflexivity.
  - intros [Hc Hs]%orb_false_iff. rewrite Hc. cbn. by rewrite IH.
Qed.

Lemma existsb_trimEnd (q : N -> bool) s :
  existsb q s = false -> existsb q (trimEnd s) = false.
Proof.
  intros H. unfold trimEnd. rewrite existsb_reverse. apply existsb_dropWhile.
  by rewrite existsb_reverse.
Qed.

(** The line the title is made of *)
Lemma titleLine_first (line rest : jsstring) :
  existsb isLF line = false ->
  forallb isWhiteSpace line = false ->
  trim (firstLine (trim (line ++ LF :: rest))) = trim (firstLine (trim line)).
Proof.
  intros Hlf Hline.
  destruct (dropWhile isWhiteSpace line) as [|x u] eqn:Eu.
  { apply dropWhile_nil in Eu. congruence. }
  pose proof (dropWhile_head _ _ _ _ Eu) as Hx.
  assert (Hu : existsb isLF (x :: u) = false).
  { rewrite <- Eu. by apply existsb_dropWhile. }
  assert (Hright : trim (firstLine (trim line)) = trimEnd (x :: u)).
  { unfold trim at 2. unfold trimStart at 1. rewrite Eu.
    rewrite firstLine_all by by apply existsb_trimEnd.
    unfold trim. destruct (trimEnd_cons x u Hx) as [s' Hs']. rewrite Hs'.
    rewrite trimStart_head by done. rewrite <- Hs'. apply trimEnd_idemp. }
  rewrite Hright. unfold trim at 2. unfold trimStart at 1.
  rewrite (dropWhile_app _ _ (LF :: rest) _ _ Eu).
  change (x :: u ++ LF :: rest) with ((x :: u) ++ LF :: rest).
  destruct (forallb isWhiteSpace (LF :: rest)) eqn:Hrest.
  - rewrite trimEnd_blank by done.
    rewrite firstLine_all by by apply existsb_trimEnd.
    unfold trim. destruct (trimEnd_cons x u Hx) as [s' Hs']. rewrite Hs'.
    rewrite trimStart_head by done. rewrite <- Hs'. apply trimEnd_idemp.
  - rewrite trimEnd_app by done.
    assert (Hlead : exists t, trimEnd (LF :: rest) = LF :: t).
    { cbn [forallb] in Hrest. change (isWhiteSpace LF) with true in Hrest.
      cbn [andb] in Hrest. exists (trimEnd rest).
      change (LF :: rest) with ([LF] ++ rest). by rewrite trimEnd_app. }
    destruct Hlead as [t ->]. rewrite firstLine_app by done.
    unfold trim. by rewrite trimStart_head.
Qed.

(** Property X27: the title is made of the first line that has text: whatever
    follows the first line feed after it is ignored. *)
Theorem titleFromBody_first_line (line rest : jsstring) :
  existsb isLF line = false ->
  forallb isWhiteSpace line = false ->
  titleFromBody (Some (line ++ LF :: rest)) = titleFromBody (Some line).
Proof.
  intros Hlf Hline. unfold titleFromBody.
  destruct line as [|c line]; [done|]. cbn [app].
  rewrite !split_first. cbn [invoke bind].
  change (takeWhile (fun c0 => negb (c0 =? LF)) ?s) with (firstLine s).
  change (c :: line ++ LF :: rest) with ((c :: line) ++ LF :: rest).
  by rewrite (titleLine_first (c :: line) rest Hlf Hline).
Qed.

Lemma titleFromBody_first_line_witness :
  titleFromBody (Some (js "  # Shopping list " ++ LF :: js "- milk"))
  = titleFromBody (Some (js "  # Shopping list ")).
Proof. apply titleFromBody_first_line; reflexivity. Defined.

(** ** Calls that return *)

Section ExtractFileUrlsReturns.
Variable parse : bool -> jsstring -> list token.
Variable imageRegex anchorRegex : regex.

Lemma visit_returns fuel ii ia ty attrs content children out :
  walkable imageRegex anchorRegex fuel (Token ty attrs content children) = true ->
  exists finished out',
    visit imageRegex anchorRegex fuel ii ia ty attrs content (out, zeroState)
    = Return (finished, (out', zeroState)).
Proof.
  cbn [walkable]. intros [Hhere _]%andb_true_iff. unfold visit.
  destruct (bool_decide (ty = js "image") || bool_decide (ty = js "link_open")).
  - destruct (_ && negb ii); [by eauto|]. destruct (_ && negb ia); [by eauto|].
    apply bool_decide_eq_true_1 in Hhere as [l ->]. cbn [fst snd].
    rewrite (forLoop_all l (fun out a => pushAttr (bool_decide (ty = js "image")) a out)).
    + cbn [bind]. by eauto.
    + by intros j a s ->.
  - destruct (bool_decide (ty = js "html_block")
              || bool_decide (ty = js "html_inline")); [|by eauto].
    apply andb_true_iff in Hhere as [[Himg Hanc]%andb_true_iff Hfuel].
    apply Nat.ltb_lt in Hfuel. cbn [foldl bind].
    assert (Hloop : forall r out0,
               exists out',
                 execLoop imageRegex anchorRegex fuel r content (out0, zeroState)
                 = Return (out', zeroState)).
    { intros r out0.
      destruct (execLoop_terminates imageRegex anchorRegex r content fuel out0 zeroState)
        as [out' Hout].
      - by destruct r.
      - destruct r; cbn; lia.
      - exists out'. rewrite Hout. by destruct r. }
    destruct ii; cbn [negb bind].
    + destruct (Hloop ImageRegex out) as [o1 ->]. cbn [bind].
      destruct ia; cbn [negb bind]; [|by eauto].
      destruct (Hloop AnchorRegex o1) as [o2 ->]. cbn [bind]. by eauto.
    + destruct ia; cbn [negb bind]; [|by eauto].
      destruct (Hloop AnchorRegex out) as [o2 ->]. cbn [bind]. by eauto.
Qed.

Lemma searchUrls_returns_list fuel ii ia (tokens : list token) :
  Forall (fun t => walkable imageRegex anchorRegex fuel t = true ->
            forall out, exists out',
              searchUrlsToken imageRegex anchorRegex fuel ii ia t (out, zeroState)
              = Return (out', zeroState)) tokens ->
  forallb (walkable imageRegex anchorRegex fuel) tokens = true ->
  forall out, exists out',
    searchUrls imageRegex anchorRegex fuel ii ia tokens (out, zeroState)
    = Return (out', zeroState).
Proof.
  induction 1 as [|t tokens Ht _ IH]; intros Hok out; cbn [searchUrls]; [by eauto|].
  cbn [forallb] in Hok. apply andb_true_iff in Hok as [Hok1 Hok2].
  destruct (Ht Hok1 out) as [o1 ->]. cbn [bind]. by apply IH.
Qed.

Lemma searchUrlsToken_returns fuel ii ia (t : token) :
  walkable imageRegex anchorRegex fuel t = true ->
  forall out, exists out',
    searchUrlsToken imageRegex anchorRegex fuel ii ia t (out, zeroState)
    = Return (out', zeroState).
Proof.
  induction t as [ty attrs content children IH] using token_induction.
  intros Hok out. rewrite searchUrlsToken_unfold.
  destruct (visit_returns fuel ii ia ty attrs content children out Hok)
    as (finished & o1 & ->). cbn [bind].
  destruct finished; [|by eauto].
  destruct children as [[|t l]|]; [by eauto| |by eauto].
  apply searchUrls_returns_list; [exact IH|].
  cbn [walkable] in Hok. by apply andb_true_iff in Hok as [_ Hok].
Qed.

(** Property X28: [extractFileUrls] returns, and leaves the shared patterns at
    [lastIndex] 0, when it starts with them there and every token the
    parser gives can be walked: images and links have their [attrs], and
    the patterns have no empty match in the content of an HTML token,
    with a fuel above the length of the content plus one. *)
Theorem extractFileUrls_returns (fuel : nat) (md : jsstring)
    (o : option ExtractFileUrlsOptions) :
  forallb (walkable imageRegex anchorRegex fuel)
    (parse (default false (o ≫= html)) md) = true ->
  exists r,
    extractFileUrls parse imageRegex anchorRegex fuel md o zeroState
    = Return (r, zeroState).
Proof.
  intros Hok. unfold extractFileUrls.
  assert (Hopts : exists ia ii d,
             withDefaults o = (ia, ii, d, default false (o ≫= html))).
  { destruct o as [o|]; cbn; eauto. }
  destruct Hopts as (ia & ii & d & ->).
  destruct (searchUrls_returns_list fuel ii ia
              (parse (default false (o ≫= html)) md)) with (out := @nil ExtractFileUrlsResult)
    as [out' ->]; [|exact Hok|].
  - apply Forall_forall. intros t _. apply searchUrlsToken_returns.
  - cbn [bind]. destruct d; by eauto.
Qed.

End ExtractFileUrlsReturns.

Lemma extractFileUrls_returns_witness :
  exists r,
    extractFileUrls (fun _ _ => htmlTokens ++ imageTokens) sampleImageRegex
      sampleAnchorRegex 60 [] None zeroState
    = Return (r, zeroState).
Proof.
  apply (extractFileUrls_returns (fun _ _ => htmlTokens ++ imageTokens)
           sampleImageRegex sampleAnchorRegex 60 [] None).
  vm_compute. reflexivity.
Defined.

(** ** Cells escaped twice *)

Lemma escapeTableCell_pipe_not_fixed_witness :
  escapeTableCell (escapeTableCell (js "a|b")) <> escapeTableCell (js "a|b").
Proof. apply escapeTableCell_pipe_not_fixed. right. left. reflexivity. Defined.

(** ** The generated table, read back *)

Lemma split_no_sep sep s :
  existsb (fun c => c =? sep) s = false -> split sep s = [s].
Proof.
  induction s as [|c s IH]; cbn [existsb split]; [done|].
  intros [Hc Hs]%orb_false_iff. by rewrite Hc, IH.
Qed.

Lemma split_app sep a b :
  existsb (fun c => c =? sep) a = false ->
  split sep (a ++ sep :: b) = a :: split sep b.
Proof.
  induction a as [|c a IH]; cbn [existsb split app].
  - by rewrite N.eqb_refl.
  - intros [Hc Ha]%orb_false_iff. by rewrite Hc, IH.
Qed.

(** The first two lines of a text of two or more lines without line feed
    in the first two *)
Lemma split_two_lines first second lines :
  existsb isLF first = false ->
  existsb isLF second = false ->
  split LF (join [LF] (first :: second :: lines)) !! 0%nat = Some first
  /\ split LF (join [LF] (first :: second :: lines)) !! 1%nat = Some second.
Proof.
  intros Hfirst Hsecond.
  change (join [LF] (first :: second :: lines))
    with (first ++ LF :: join [LF] (second :: lines)).
  rewrite (split_app LF) by exact Hfirst. split; [done|]. cbn [lookup list_lookup].
  destruct lines as [|line lines].
  - cbn [join]. by rewrite (split_no_sep LF) by exact Hsecond.
  - change (join [LF] (second :: line :: lines))
      with (second ++ LF :: join [LF] (line :: lines)).
    by rewrite (split_app LF) by exact Hsecond.
Qed.

Lemma headerCell_no_LF h :
  existsb isLF (h_label h) = false -> existsb isLF (headerCell h) = false.
Proof.
  intros H. unfold headerCell, stringPaddingRight. rewrite existsb_app, H.
  cbn [orb]. induction (5 - length (h_label h))%nat; [done|]. cbn. exact IHn.
Qed.

Lemma dividerCell_no_LF h : existsb isLF (dividerCell h) = false.
Proof. unfold dividerCell. by destruct (default Left (h_justify h)). Qed.

Lemma tableLine_no_LF cells :
  Forall (fun cell => existsb isLF cell = false) cells ->
  existsb isLF (tableLine cells) = false.
Proof.
  intros H. unfold tableLine. rewrite !existsb_app.
  by rewrite (existsb_join isLF) by done.
Qed.

Section GeneratedTable.
Variable stringPaddingOther : rowValue -> outcome jsstring.

Lemma createMarkdownTable_lines
    (headers : list MarkdownTableHeader) (rows : list MarkdownTableRow) :
  plainCells headers rows = true ->
  createMarkdownTable stringPaddingOther headers rows
  = Return (join [LF] (map tableLine (tableCells headers rows))).
Proof.
  intros Hplain. unfold createMarkdownTable.
  rewrite (forLoop_all headers
             (fun '(a, b) h => (a ++ [headerCell h], b ++ [dividerCell h]))).
  2:{ intros j h [a b] ->. unfold headerCell, dividerCell.
      by destruct (default Left (h_justify h)). }
  rewrite (foldl_push2 headerCell dividerCell). cbn [bind app].
  rewrite (forLoop_all rows
             (fun out row => out ++ [tableLine (map (dataCell row) headers)])).
  2:{ intros j row out Hrow. rewrite Hrow.
      unfold plainCells in Hplain. rewrite forallb_forall in Hplain.
      specialize (Hplain row). rewrite forallb_forall in Hplain.
      rewrite (forLoop_all headers (fun acc h => acc ++ [dataCell row h])).
      - by rewrite (foldl_push (dataCell row)).
      - intros i h acc Hh. rewrite Hh.
        assert (Hcell : isMember (cellRead row h) = false).
        { apply negb_true_iff, Hplain.
          - apply list_elem_of_In. by eapply list_elem_of_lookup_2.
          - apply list_elem_of_In. by eapply list_elem_of_lookup_2. }
        unfold dataCell, cellValue. unfold cellRead in *.
        destruct (match h_filter h with
                  | Some f => f (readRow row (h_name h))
                  | None => readRow row (h_name h)
                  end) as [|[|? ?]|]; [| | |done];
          by destruct (default false (h_disableEscape h)). }
  cbn [bind]. rewrite (foldl_push (fun row => tableLine (map (dataCell row) headers))).
  unfold tableCells. cbn [map app]. by rewrite map_map.
Qed.

(** Property X24: the table [createMarkdownTable] writes is recognised by
    [matchingTableDivider] and [countTableColumns]: when there is a header,
    no label has a pipe or a line feed, and no cell is made of an inherited
    member, the call returns a text whose first line has one column per
    header, whose second line has as many, and whose second line is a
    divider for the first. *)
Theorem createMarkdownTable_divider
    (headers : list MarkdownTableHeader) (rows : list MarkdownTableRow) :
  headers <> [] ->
  forallb (fun h => negb (existsb isPipe (h_label h))
                    && negb (existsb isLF (h_label h))) headers = true ->
  plainCells headers rows = true ->
  exists table first second,
    createMarkdownTable stringPaddingOther headers rows = Return table
    /\ split LF table !! 0%nat = Some first
    /\ split LF table !! 1%nat = Some second
    /\ countTableColumns (Some first) = Z.of_nat (length headers)
    /\ countTableColumns (Some second) = Z.of_nat (length headers)
    /\ matchingTableDivider (Some first) (Some second) = true.
Proof.
  intros Hne Hlabels Hplain. rewrite forallb_forall in Hlabels.
  assert (Hpipe : Forall (fun h => existsb isPipe (h_label h) = false) headers).
  { apply Forall_forall. intros h Hh%list_elem_of_In. apply Hlabels in Hh.
    apply andb_true_iff in Hh as [Hh _]. by apply negb_true_iff in Hh. }
  assert (HLF : Forall (fun h => existsb isLF (h_label h) = false) headers).
  { apply Forall_forall. intros h Hh%list_elem_of_In. apply Hlabels in Hh.
    apply andb_true_iff in Hh as [_ Hh]. by apply negb_true_iff in Hh. }
  exists (join [LF] (map tableLine (tableCells headers rows))),
    (tableLine (map headerCell headers)), (tableLine (map dividerCell headers)).
  split; [by apply createMarkdownTable_lines|].
  assert (Hlines : split LF (join [LF] (map tableLine (tableCells headers rows))) !! 0%nat
                   = Some (tableLine (map headerCell headers))
                   /\ split LF (join [LF] (map tableLine (tableCells headers rows))) !! 1%nat
                      = Some (tableLine (map dividerCell headers))).
  { unfold tableCells. cbn [map]. apply split_two_lines.
    - apply tableLine_no_LF, Forall_map. eapply Forall_impl; [exact HLF|].
      intros h. apply headerCell_no_LF.
    - apply tableLine_no_LF, Forall_map, Forall_forall. intros h _.
      apply dividerCell_no_LF. }
  destruct Hlines as [Hfirst Hsecond]. split; [exact Hfirst|]. split; [exact Hsecond|].
  assert (Hh : countTableColumns (Some (tableLine (map headerCell headers)))
               = Z.of_nat (length headers)).
  { rewrite countTableColumns_tableLine, length_map; [done|by destruct headers|].
    apply Forall_map. eapply Forall_impl; [exact Hpipe|].
    intros h. apply headerCell_no_pipe. }
  assert (Hd : countTableColumns (Some (tableLine (map dividerCell headers)))
               = Z.of_nat (length headers)).
  { rewrite countTableColumns_tableLine, length_map; [done|by destruct headers|].
    apply Forall_map, Forall_forall. intros h _. apply dividerCell_chars. }
  split; [exact Hh|]. split; [exact Hd|].
  unfold matchingTableDivider. rewrite Hh, Hd.
  change (negb (truthy (Some (tableLine (map headerCell headers))))) with false.
  change (negb (truthy (Some (tableLine (map dividerCell headers))))) with false.
  cbn [orb default]. unfold invalidDividerChar.
  assert (Hvalid : matchAll
                     (Chr (NotClass [CSpace; CChar (ch "-"); CChar (ch ":");
                                     CChar (ch "|")]))
                     (tableLine (map dividerCell headers)) = None).
  { apply (matchAll_chr_null _ _ _ invalidDividerChar_mem).
    unfold tableLine. rewrite !existsb_app.
    rewrite (existsb_join invalidInDivider); [done|done|].
    apply Forall_map, Forall_forall. intros h _. apply dividerCell_chars. }
  unfold id. rewrite Hvalid. destruct headers; [done|]. cbn [length].
  apply andb_true_iff. split; [apply Z.ltb_lt|apply Z.leb_le]; lia.
Qed.

End GeneratedTable.

(** The property at a table of two columns, one of its cells escaped and
    one left as it is, with a line feed in it. *)
Lemma createMarkdownTable_divider_witness :
  exists table first second,
    createMarkdownTable (fun _ => Throw_TypeError)
      [ sampleHeader;
        {| h_name := js "b"; h_label := js "B"; h_filter := None;
           h_disableEscape := Some true; h_justify := Some Right |} ]
      [ {[ js "a" := js "x|y"; js "b" := js "p" ++ [LF] ++ js "q" ]}; sampleRow ]
    = Return table
    /\ split LF table !! 0%nat = Some first
    /\ split LF table !! 1%nat = Some second
    /\ countTableColumns (Some first) = 2%Z
    /\ countTableColumns (Some second) = 2%Z
    /\ matchingTableDivider (Some first) (Some second) = true.
Proof.
  apply (createMarkdownTable_divider (fun _ => Throw_TypeError)
           [ sampleHeader;
             {| h_name := js "b"; h_label := js "B"; h_filter := None;
                h_disableEscape := Some true; h_justify := Some Right |} ]
           [ {[ js "a" := js "x|y"; js "b" := js "p" ++ [LF] ++ js "q" ]}; sampleRow ]);
    [done|reflexivity|reflexivity].
Defined.
